(** * Incremental 3D Delaunay tetrahedralisation (Bowyer-Watson) and its
      clipped Voronoi dual: a shallow embedding of [src/main.js].

    Numbers.  JavaScript numbers are modelled by exact rationals in canonical
    form ([Qc]), so that "equal by value" is Leibniz equality and the
    arithmetic identities of the circumsphere can be checked with [field].
    The one non-finite value the code stores, [Infinity] in [radiusSq], is a
    separate constructor of [Num].  What the rounding of binary64 changes is
    shown on a second embedding of the two classes, [Binary64], on
    primitive floating-point numbers.

    Objects.  A [THREE.Vector3] is a heap object: [Array.prototype.includes]
    compares such objects by identity while [Vector3.equals] compares their
    coordinates.  A vertex therefore carries an object identity [oid] next to
    its coordinates.  Temporaries ([a.clone().sub(d)]) and the circumcenter
    are only ever read through their coordinates and are modelled by the
    coordinate triple alone. *)

From Stdlib Require Import QArith Qcanon Qcabs Lqa.
From Stdlib Require Import List Bool Arith Lia Permutation.
From Stdlib Require Floats.
Import ListNotations.

Set Warnings "-inexact-float".

Open Scope Qc_scope.

(* ================================================================== *)
(** ** Numbers                                                          *)
(* ================================================================== *)

Module Number.

(** Integer literals of the source. *)
Definition ofZ (n : Z) : Qc := Q2Qc (inject_Z n).

(** [0.5] and the degeneracy tolerance [1e-12] of [calcCircumsphere]. *)
Definition half : Qc := Q2Qc (1 # 2).
Definition tolerance : Qc := Q2Qc (1 # 1000000000000).

(** The comparison operators [<], [<=] and [===] on numbers. *)
Definition ltb (a b : Qc) : bool :=
  match a ?= b with Lt => true | _ => false end.

Definition leb (a b : Qc) : bool :=
  match a ?= b with Gt => false | _ => true end.

Definition eqb (a b : Qc) : bool :=
  match a ?= b with Eq => true | _ => false end.

(** A number that may be [Infinity] (the value of [radiusSq] of a
    degenerate tetrahedron). *)
Inductive Num : Type :=
| Fin (q : Qc)
| Infinity.

(** [q < n] for a finite left operand. *)
Definition lt_num (q : Qc) (n : Num) : bool :=
  match n with
  | Fin r => ltb q r
  | Infinity => true
  end.

End Number.
Import Number.

(* ================================================================== *)
(** ** THREE.Vector3, THREE.Matrix3, THREE.Box3, THREE.Ray               *)
(* ================================================================== *)

(** The coordinates of a vector. *)
Record Vec3 : Type := mkVec3 { vx : Qc; vy : Qc; vz : Qc }.

(** A [THREE.Vector3] object held by reference: identity and coordinates. *)
Record Vector3 : Type := mkVector3 { oid : nat; pos : Vec3 }.

(** The allocator: the next unused object identity. *)
Definition Heap : Type := nat.

Bind Scope nat_scope with Heap.

(** [new THREE.Vector3(x, y, z)] for an object that is kept. *)
Definition new_Vector3 (x y z : Qc) (h : Heap) : Vector3 * Heap :=
  (mkVector3 h (mkVec3 x y z), S h).

Arguments new_Vector3 x y z h%_nat.

Module Vec.

(** [u.clone().sub(v)] *)
Definition sub (u v : Vec3) : Vec3 :=
  mkVec3 (vx u - vx v) (vy u - vy v) (vz u - vz v).

(** [u.add(v)] *)
Definition add (u v : Vec3) : Vec3 :=
  mkVec3 (vx u + vx v) (vy u + vy v) (vz u + vz v).

(** [u.lengthSq()] *)
Definition lengthSq (u : Vec3) : Qc :=
  vx u * vx u + vy u * vy u + vz u * vz u.

(** [u.distanceToSquared(v)] *)
Definition distanceToSquared (u v : Vec3) : Qc :=
  let dx := vx u - vx v in
  let dy := vy u - vy v in
  let dz := vz u - vz v in
  dx * dx + dy * dy + dz * dz.

(** [u.equals(v)]: coordinate-wise [===]. *)
Definition equals (u v : Vec3) : bool :=
  eqb (vx u) (vx v) && eqb (vy u) (vy v) && eqb (vz u) (vz v).

End Vec.

(** [Matrix3]: the nine entries in the column-major order of
    [Matrix3.elements]. *)
Record Matrix3 : Type := mkMatrix3 {
  te0 : Qc; te1 : Qc; te2 : Qc;
  te3 : Qc; te4 : Qc; te5 : Qc;
  te6 : Qc; te7 : Qc; te8 : Qc
}.

Module Mat.

(** [M.set(n11, n12, n13, n21, n22, n23, n31, n32, n33)] takes the entries
    row by row and stores them column by column. *)
Definition set (n11 n12 n13 n21 n22 n23 n31 n32 n33 : Qc) : Matrix3 :=
  mkMatrix3 n11 n21 n31 n12 n22 n32 n13 n23 n33.

(** [M.determinant()] *)
Definition determinant (m : Matrix3) : Qc :=
  let a := te0 m in let b := te1 m in let c := te2 m in
  let d := te3 m in let e := te4 m in let f := te5 m in
  let g := te6 m in let h := te7 m in let i := te8 m in
  a * e * i - a * f * h - b * d * i + b * f * g + c * d * h - c * e * g.

End Mat.

(** [THREE.Box3] and [THREE.Ray]. *)
Record Box3 : Type := mkBox3 { bmin : Vec3; bmax : Vec3 }.
Record Ray : Type := mkRay { origin : Vec3; direction : Vec3 }.

(** [box.containsPoint(p)]: the closed box. *)
Definition Box3_containsPoint (b : Box3) (p : Vec3) : bool :=
  leb (vx (bmin b)) (vx p) && leb (vx p) (vx (bmax b)) &&
  leb (vy (bmin b)) (vy p) && leb (vy p) (vy (bmax b)) &&
  leb (vz (bmin b)) (vz p) && leb (vz p) (vz (bmax b)).

(* ================================================================== *)
(** ** Constants                                                         *)
(* ================================================================== *)

Definition BOX_SIZE : Qc := ofZ 10.
Definition JITTER_AMOUNT : Qc := Q2Qc (1 # 1000000).

(* ================================================================== *)
(** ** class Tetrahedron                                                 *)
(* ================================================================== *)

(** The object built by [new Tetrahedron(p1, p2, p3, p4)]: the four vertex
    references of [this.points] and the two fields cached by
    [calcCircumsphere]. *)
Record Tetrahedron : Type := mkTetrahedron {
  pt0 : Vector3; pt1 : Vector3; pt2 : Vector3; pt3 : Vector3;
  circumcenter : option Vec3;
  radiusSq : Num
}.

(** [this.points] *)
Definition points (t : Tetrahedron) : list Vector3 :=
  [pt0 t; pt1 t; pt2 t; pt3 t].

(** The determinant [det] computed in [calcCircumsphere] from the three edge
    vectors towards the fourth vertex. *)
Definition edgeDet (a b c d : Vec3) : Qc :=
  let a_ := Vec.sub a d in
  let b_ := Vec.sub b d in
  let c_ := Vec.sub c d in
  Mat.determinant
    (Mat.set (vx a_) (vy a_) (vz a_)
             (vx b_) (vy b_) (vz b_)
             (vx c_) (vy c_) (vz c_)).

(** [calcCircumsphere()], as the pair of values it assigns to
    [this.circumcenter] and [this.radiusSq]. *)
Definition calcCircumsphere (a b c d : Vec3) : option Vec3 * Num :=
  let a_ := Vec.sub a d in
  let b_ := Vec.sub b d in
  let c_ := Vec.sub c d in
  let A := Vec.lengthSq a_ in
  let B := Vec.lengthSq b_ in
  let C := Vec.lengthSq c_ in
  let det := edgeDet a b c d in
  if ltb (Qcabs det) tolerance then (None, Infinity)
  else
    let invDet := half / det in
    let x := (A * (vy b_ * vz c_ - vy c_ * vz b_)
              - B * (vy a_ * vz c_ - vy c_ * vz a_)
              + C * (vy a_ * vz b_ - vy b_ * vz a_)) * invDet in
    let y := (A * (vz b_ * vx c_ - vz c_ * vx b_)
              - B * (vz a_ * vx c_ - vz c_ * vx a_)
              + C * (vz a_ * vx b_ - vz b_ * vx a_)) * invDet in
    let z := (A * (vx b_ * vy c_ - vx c_ * vy b_)
              - B * (vx a_ * vy c_ - vx c_ * vy a_)
              + C * (vx a_ * vy b_ - vx b_ * vy a_)) * invDet in
    let center := Vec.add (mkVec3 x y z) d in
    (Some center, Fin (Vec.distanceToSquared center a)).

(** [new Tetrahedron(p1, p2, p3, p4)] *)
Definition new_Tetrahedron (p1 p2 p3 p4 : Vector3) : Tetrahedron :=
  let cs := calcCircumsphere (pos p1) (pos p2) (pos p3) (pos p4) in
  mkTetrahedron p1 p2 p3 p4 (fst cs) (snd cs).

(** [containsPoint(p)] *)
Definition containsPoint (t : Tetrahedron) (p : Vector3) : bool :=
  existsb (fun v => Vec.equals (pos v) (pos p)) (points t).

(** [circumsphereContains(p)] *)
Definition circumsphereContains (t : Tetrahedron) (p : Vector3) : bool :=
  match circumcenter t with
  | None => false
  | Some c => lt_num (Vec.distanceToSquared (pos p) c) (radiusSq t)
  end.

(** A face object [{a, b, c}] of [getFaces]. *)
Record Face : Type := mkFace { fa : Vector3; fb : Vector3; fc : Vector3 }.

(** [getFaces()] *)
Definition getFaces (t : Tetrahedron) : list Face :=
  [ mkFace (pt0 t) (pt1 t) (pt2 t); mkFace (pt0 t) (pt1 t) (pt3 t);
    mkFace (pt0 t) (pt2 t) (pt3 t); mkFace (pt1 t) (pt2 t) (pt3 t) ].

(** [isAdjacent(other)]: the number of pairs of equal vertices is 3. *)
Definition isAdjacent (t other : Tetrahedron) : bool :=
  let common :=
    fold_left
      (fun n p1 =>
         fold_left
           (fun m p2 => if Vec.equals (pos p1) (pos p2) then S m else m)
           (points other) n)
      (points t) 0%nat in
  Nat.eqb common 3.

(* ================================================================== *)
(** ** Face keys and the face map of [addPoint]                          *)
(* ================================================================== *)

(** The key of a face is the string
    [[a, b, c].map(p => `${p.x},${p.y},${p.z}`).sort().join('|')].
    The rendering of a number determines the number and holds neither [,]
    nor [|], so the string determines, and is determined by, the sorted list
    of the three coordinate triples.  The key is modelled by that sorted
    list; only equality of keys is ever observed ([Map.has], [Map.delete]),
    so the order chosen for sorting is immaterial. *)
Definition Key : Type := list Vec3.

Module FaceKey.

(** Lexicographic order on coordinate triples. *)
Definition vec_leb (u v : Vec3) : bool :=
  match vx u ?= vx v with
  | Lt => true
  | Gt => false
  | Eq =>
      match vy u ?= vy v with
      | Lt => true
      | Gt => false
      | Eq => leb (vz u) (vz v)
      end
  end.

Fixpoint insert (k : Vec3) (l : list Vec3) : list Vec3 :=
  match l with
  | [] => [k]
  | h :: t => if vec_leb k h then k :: l else h :: insert k t
  end.

(** [.sort()] *)
Definition sort (l : list Vec3) : list Vec3 := fold_right insert [] l.

(** The key of a face. *)
Definition key (f : Face) : Key :=
  sort (map pos [fa f; fb f; fc f]).

(** Equality of two keys. *)
Fixpoint eqb (k1 k2 : Key) : bool :=
  match k1, k2 with
  | [], [] => true
  | u :: k1', v :: k2' => Vec.equals u v && eqb k1' k2'
  | _, _ => false
  end.

End FaceKey.

(** [Map]: the entries in insertion order. *)
Definition FaceMap : Type := list (Key * Face).

Module MapOps.

(** [m.has(key)] *)
Definition has (k : Key) (m : FaceMap) : bool :=
  existsb (fun e => FaceKey.eqb k (fst e)) m.

(** [m.delete(key)] *)
Definition delete (k : Key) (m : FaceMap) : FaceMap :=
  filter (fun e => negb (FaceKey.eqb k (fst e))) m.

(** [m.set(key, value)]: a present key keeps its place, a new one goes last. *)
Definition set (k : Key) (f : Face) (m : FaceMap) : FaceMap :=
  if has k m
  then map (fun e => if FaceKey.eqb k (fst e) then (fst e, f) else e) m
  else m ++ [(k, f)].

(** The values in iteration order ([m.forEach]). *)
Definition values (m : FaceMap) : list Face := map snd m.

End MapOps.

(* ================================================================== *)
(** ** class Delaunay3D                                                  *)
(* ================================================================== *)

Record Delaunay3D : Type := mkDelaunay3D {
  tetrahedra : list Tetrahedron;
  superPoints : list Vector3
}.

(** [new Delaunay3D(size)] *)
Definition new_Delaunay3D (size : Qc) (h : Heap) : Delaunay3D * Heap :=
  let s := size in
  let '(p1, h1) := new_Vector3 (- s) (- s) (- s) h in
  let '(p2, h2) := new_Vector3 s (- s) 0 h1 in
  let '(p3, h3) := new_Vector3 0 s (- s) h2 in
  let '(p4, h4) := new_Vector3 0 (- s) s h3 in
  (mkDelaunay3D ([] ++ [new_Tetrahedron p1 p2 p3 p4]) [p1; p2; p3; p4], h4).

Arguments new_Delaunay3D size h%_nat.

(** The value returned by [addPoint]. *)
Record Delta : Type := mkDelta {
  badTetras : list Tetrahedron;
  cavityFaces : list Face;
  newTetras : list Tetrahedron
}.

(** The body of the inner [forEach] of [addPoint]:
    [faceMap.has(key) ? faceMap.delete(key) : faceMap.set(key, face)]. *)
Definition toggleFace (faceMap : FaceMap) (face : Face) : FaceMap :=
  let key := FaceKey.key face in
  if MapOps.has key faceMap
  then MapOps.delete key faceMap
  else MapOps.set key face faceMap.

(** The face map after the two nested [forEach] over [badTetras]. *)
Definition collectFaces (bad : list Tetrahedron) : FaceMap :=
  fold_left
    (fun faceMap tetra => fold_left toggleFace (getFaces tetra) faceMap)
    bad [].

(** The last [forEach] of [addPoint]: one new tetrahedron per cavity face,
    pushed onto [this.tetrahedra] and onto [newTetras]. *)
Definition fillCavity (point : Vector3) (faces : list Face)
    (live : list Tetrahedron) : list Tetrahedron * list Tetrahedron :=
  fold_left
    (fun acc face =>
       let newTetra := new_Tetrahedron point (fa face) (fb face) (fc face) in
       (fst acc ++ [newTetra], snd acc ++ [newTetra]))
    faces (live, []).

(** [addPoint(point)]: the returned delta and the updated object. *)
Definition addPoint (this : Delaunay3D) (point : Vector3)
    : Delta * Delaunay3D :=
  let bad :=
    filter (fun tetra => circumsphereContains tetra point) (tetrahedra this) in
  let good :=
    filter (fun tetra => negb (circumsphereContains tetra point))
           (tetrahedra this) in
  let faceMap := collectFaces bad in
  let cavity := fold_left (fun acc face => acc ++ [face])
                          (MapOps.values faceMap) [] in
  let filled := fillCavity point cavity good in
  (mkDelta bad cavity (snd filled),
   mkDelaunay3D (fst filled) (superPoints this)).

(** [superPoints.includes(p)]: identity of objects. *)
Definition includes (l : list Vector3) (p : Vector3) : bool :=
  existsb (fun q => Nat.eqb (oid q) (oid p)) l.

(** [getTriangulation()]: the returned array and the (untouched) object. *)
Definition getTriangulation (this : Delaunay3D)
    : list Tetrahedron * Delaunay3D :=
  (filter
     (fun tetra => negb (existsb (fun p => includes (superPoints this) p)
                                 (points tetra)))
     (tetrahedra this),
   this).

(** A caller that inserts the points of a list one after the other, as
    [doNextStep] does with [points[pointIndex]]. *)
Definition insertAll (this : Delaunay3D) (pts : list Vector3) : Delaunay3D :=
  fold_left (fun d p => snd (addPoint d p)) pts this.

(* ================================================================== *)
(** ** setupSimulation: the generated points                             *)
(* ================================================================== *)

(** One generated position; the six arguments are the six results of
    [Math.random()], each in [0, 1). *)
Definition randomPosition (r1 r2 r3 j1 j2 j3 : Qc) : Vec3 :=
  mkVec3 ((r1 - half) * BOX_SIZE + (j1 - half) * JITTER_AMOUNT)
         ((r2 - half) * BOX_SIZE + (j2 - half) * JITTER_AMOUNT)
         ((r3 - half) * BOX_SIZE + (j3 - half) * JITTER_AMOUNT).

(* ================================================================== *)
(** ** drawVoronoi                                                       *)
(* ================================================================== *)

(** The box of [drawVoronoi]. *)
Definition bounds : Box3 :=
  mkBox3 (mkVec3 (- BOX_SIZE / ofZ 2) (- BOX_SIZE / ofZ 2) (- BOX_SIZE / ofZ 2))
         (mkVec3 (BOX_SIZE / ofZ 2) (BOX_SIZE / ofZ 2) (BOX_SIZE / ofZ 2)).

Section Voronoi.

(** Two operations of three.js that the embedding leaves uninterpreted:
    [v.normalize()], which takes a square root, and
    [ray.intersectBox(box, target)], which returns the target filled with
    the intersection point, or [null]. *)
Variable normalize : Vec3 -> Vec3.
Variable intersectBox : Ray -> Box3 -> option Vec3.

(** The body of the inner loop for the pair [(ti, tj)]; the result is the
    array [positions] after the iteration. *)
Definition voronoiStep (ti tj : Tetrahedron) (positions : list Qc)
    : list Qc :=
  if negb (isAdjacent ti tj) then positions
  else
    match circumcenter ti, circumcenter tj with
    | Some c1, Some c2 =>
        let isC1Inside := Box3_containsPoint bounds c1 in
        let isC2Inside := Box3_containsPoint bounds c2 in
        if isC1Inside && isC2Inside then
          positions ++ [vx c1; vy c1; vz c1; vx c2; vy c2; vz c2]
        else if isC1Inside && negb isC2Inside then
          let ray := mkRay c1 (normalize (Vec.sub c2 c1)) in
          match intersectBox ray bounds with
          | Some ip => positions ++ [vx c1; vy c1; vz c1; vx ip; vy ip; vz ip]
          | None => positions
          end
        else if negb isC1Inside && isC2Inside then
          let ray := mkRay c2 (normalize (Vec.sub c1 c2)) in
          match intersectBox ray bounds with
          | Some ip => positions ++ [vx c2; vy c2; vz c2; vx ip; vy ip; vz ip]
          | None => positions
          end
        else positions
    | _, _ => positions
    end.

(** The two nested [for] loops over the indices [i < j]. *)
Definition voronoiLoops (finalTetras : list Tetrahedron) : list Qc :=
  let n := length finalTetras in
  fold_left
    (fun positions i =>
       fold_left
         (fun positions j =>
            match nth_error finalTetras i, nth_error finalTetras j with
            | Some ti, Some tj => voronoiStep ti tj positions
            | _, _ => positions
            end)
         (seq (i + 1) (n - (i + 1))) positions)
    (seq 0 n) [].

(** [drawVoronoi()]: the array [positions] handed to the geometry. *)
Definition drawVoronoi (delaunay : Delaunay3D) : list Qc :=
  voronoiLoops (fst (getTriangulation delaunay)).

End Voronoi.

(* ================================================================== *)
(** ** Notions used to state the properties                              *)
(* ================================================================== *)

(** A tetrahedron object as the constructor leaves it: the cached
    circumsphere is the one of its four vertices. *)
Definition built (t : Tetrahedron) : Prop :=
  t = new_Tetrahedron (pt0 t) (pt1 t) (pt2 t) (pt3 t).

(** A triangulation all of whose live tetrahedra came out of the
    constructor. *)
Definition wellFormed (d : Delaunay3D) : Prop :=
  Forall built (tetrahedra d).

(** The three vertices of a face, by value. *)
Definition faceVertices (f : Face) : list Vec3 :=
  map pos [fa f; fb f; fc f].

(** Two faces with the same key. *)
Definition sameFace (f g : Face) : bool :=
  FaceKey.eqb (FaceKey.key f) (FaceKey.key g).

(** The number of faces of a list that are the face [f]. *)
Definition occurrences (f : Face) (l : list Face) : nat :=
  length (filter (sameFace f) l).

(** The face [f] is one of the four faces of [t]. *)
Definition hasFace (t : Tetrahedron) (f : Face) : bool :=
  existsb (sameFace f) (getFaces t).

(** The number of tetrahedra of a list that have the face [f]. *)
Definition tetrahedraWithFace (f : Face) (l : list Tetrahedron) : nat :=
  length (filter (fun t => hasFace t f) l).

(** The face [f] occurs in a list of faces. *)
Definition listsFace (l : list Face) (f : Face) : bool :=
  existsb (sameFace f) l.

(** The tetrahedron that [addPoint] builds on a cavity face. *)
Definition tetraOnFace (point : Vector3) (face : Face) : Tetrahedron :=
  new_Tetrahedron point (fa face) (fb face) (fc face).


(** The same property as a test. *)
Definition violatesDelaunay (d : Delaunay3D) (pts : list Vector3) : bool :=
  existsb
    (fun t =>
       existsb
         (fun p => negb (containsPoint t p) && circumsphereContains t p) pts)
    (tetrahedra d).

(** The point [q] is a convex combination, with four positive weights, of
    the four points: it lies strictly inside their convex hull. *)
Definition strictlyInside (p1 p2 p3 p4 q : Vec3) : Prop :=
  exists w1 w2 w3 w4 : Qc,
    0 < w1 /\ 0 < w2 /\ 0 < w3 /\ 0 < w4 /\
    w1 + w2 + w3 + w4 = 1 /\
    vx q = w1 * vx p1 + w2 * vx p2 + w3 * vx p3 + w4 * vx p4 /\
    vy q = w1 * vy p1 + w2 * vy p2 + w3 * vy p3 + w4 * vy p4 /\
    vz q = w1 * vz p1 + w2 * vz p2 + w3 * vz p3 + w4 * vz p4.

(** Strictly inside the hull of the super-tetrahedron of a triangulation. *)
Definition insideSuperTetrahedron (d : Delaunay3D) (q : Vec3) : Prop :=
  match superPoints d with
  | [p1; p2; p3; p4] => strictlyInside (pos p1) (pos p2) (pos p3) (pos p4) q
  | _ => False
  end.

(** The final query as the specification words it: the live tetrahedra none
    of whose vertices has the coordinates of a super-tetrahedron point. *)
Definition triangulationByValue (d : Delaunay3D) : list Tetrahedron :=
  filter
    (fun t =>
       negb (existsb
               (fun p => existsb (fun sp => Vec.equals (pos sp) (pos p))
                                 (superPoints d))
               (points t)))
    (tetrahedra d).

(** For the vertices of the live tetrahedra, being one of the
    super-tetrahedron point objects and having the coordinates of one of
    them are the same thing. *)
Definition identityIsValue (d : Delaunay3D) : Prop :=
  forall t p,
    In t (tetrahedra d) -> In p (points t) ->
    ((exists sp, In sp (superPoints d) /\ oid sp = oid p) <->
     (exists sp, In sp (superPoints d) /\ pos sp = pos p)).

(** A point that is none of the super-tetrahedron point objects and has
    the coordinates of none of them. *)
Definition foreignPoint (d : Delaunay3D) (p : Vector3) : Prop :=
  forall sp, In sp (superPoints d) -> oid sp <> oid p /\ pos sp <> pos p.

(** The pairs [(l[i], l[j])] with [i < j], in the order of the two loops. *)
Fixpoint unorderedPairs (l : list Tetrahedron)
    : list (Tetrahedron * Tetrahedron) :=
  match l with
  | [] => []
  | t :: rest => map (pair t) rest ++ unorderedPairs rest
  end.

(** The six numbers pushed for a segment. *)
Definition segment (a b : Vec3) : list Qc :=
  [vx a; vy a; vz a; vx b; vy b; vz b].

(** The identities of the vertices of a tetrahedron and of a face, to name
    them in examples. *)
Definition tetraIds (t : Tetrahedron) : list nat := map oid (points t).
Definition faceIds (f : Face) : list nat := map oid [fa f; fb f; fc f].

(** A vertex object with integer coordinates. *)
Definition vertex (id : nat) (x y z : Z) : Vector3 :=
  mkVector3 id (mkVec3 (ofZ x) (ofZ y) (ofZ z)).


(* ================================================================== *)
(** ** getTetraEdges, drawDelaunay                                       *)
(* ================================================================== *)

(** [getTetraEdges(tetras)]: the array [positions] handed to the geometry,
    six pushes of six numbers for every tetrahedron. *)
Definition getTetraEdges (tetras : list Tetrahedron) : list Qc :=
  fold_left
    (fun positions tetra =>
       let p0 := pos (pt0 tetra) in
       let p1 := pos (pt1 tetra) in
       let p2 := pos (pt2 tetra) in
       let p3 := pos (pt3 tetra) in
       let positions := positions ++ [vx p0; vy p0; vz p0; vx p1; vy p1; vz p1] in
       let positions := positions ++ [vx p0; vy p0; vz p0; vx p2; vy p2; vz p2] in
       let positions := positions ++ [vx p0; vy p0; vz p0; vx p3; vy p3; vz p3] in
       let positions := positions ++ [vx p1; vy p1; vz p1; vx p2; vy p2; vz p2] in
       let positions := positions ++ [vx p1; vy p1; vz p1; vx p3; vy p3; vz p3] in
       positions ++ [vx p2; vy p2; vz p2; vx p3; vy p3; vz p3])
    tetras [].

(** [drawDelaunay()]: the positions of the line segments put into
    [sceneObjects.delaunayEdges]. *)
Definition drawDelaunay (delaunay : Delaunay3D) : list Qc :=
  getTetraEdges (fst (getTriangulation delaunay)).

(* ================================================================== *)
(** ** setupSimulation, doNextStep, runAllSteps                          *)
(* ================================================================== *)

(** The six results of [Math.random()] used for one point. *)
Record Draw : Type := mkDraw {
  r1 : Qc; r2 : Qc; r3 : Qc; j1 : Qc; j2 : Qc; j3 : Qc
}.

(** The position generated from one draw. *)
Definition drawPosition (d : Draw) : Vec3 :=
  randomPosition (r1 d) (r2 d) (r3 d) (j1 d) (j2 d) (j3 d).

(** The loop of [setupSimulation] that fills [points]: one new [Vector3]
    per draw. *)
Definition generatePoints (draws : list Draw) (h : Heap)
    : list Vector3 * Heap :=
  fold_left
    (fun acc d =>
       let p := drawPosition d in
       let '(v, h') := new_Vector3 (vx p) (vy p) (vz p) (snd acc) in
       (fst acc ++ [v], h'))
    draws ([], h).

Module Simulation.

(** What [stepInfo] shows. *)
Inductive StepInfo : Type :=
| Initialized (numPoints : nat)
| Adding (step total bad cavity created : nat)
| Complete.

(** The globals [points], [pointIndex] and [delaunay], and the parts of the
    page that [doNextStep] and [drawVoronoi] write: the content of the group
    [sceneObjects.voronoiEdges] ([None] when it has no child, else the
    positions of its line segments), the flag
    [sceneObjects.delaunayEdges.visible], the [disabled] flags of the two
    buttons, and [stepInfo].  The meshes drawn by [visualizeStep] are left
    out. *)
Record State : Type := mkState {
  points : list Vector3;
  pointIndex : nat;
  delaunay : Delaunay3D;
  voronoiEdges : option (list Qc);
  delaunayEdgesVisible : bool;
  nextBtnDisabled : bool;
  runAllBtnDisabled : bool;
  stepInfo : StepInfo
}.

(** [setupSimulation()]; [visible] is the flag
    [sceneObjects.delaunayEdges.visible] found on entry, which the function
    does not touch, and [draws] holds the results of [Math.random()], its
    length being the number of points read from the slider. *)
Definition setupSimulation (visible : bool) (draws : list Draw) (h : Heap)
    : State * Heap :=
  let '(pts, h1) := generatePoints draws h in
  let '(d, h2) := new_Delaunay3D (BOX_SIZE * ofZ 2) h1 in
  (mkState pts 0 d None visible false false (Initialized (length draws)), h2).

Section Steps.

Variable normalize : Vec3 -> Vec3.
Variable intersectBox : Ray -> Box3 -> option Vec3.

(** [doNextStep()] *)
Definition doNextStep (s : State) : State :=
  if Nat.leb (length (points s)) (pointIndex s) then
    mkState (points s) (pointIndex s) (delaunay s)
            (Some (drawVoronoi normalize intersectBox (delaunay s)))
            false true true Complete
  else
    match nth_error (points s) (pointIndex s) with
    | Some point =>
        let '(delta, d') := addPoint (delaunay s) point in
        let pointIndex' := S (pointIndex s) in
        mkState (points s) pointIndex' d'
                None
                (delaunayEdgesVisible s) (nextBtnDisabled s)
                (runAllBtnDisabled s)
                (Adding pointIndex' (length (points s))
                        (length (badTetras delta))
                        (length (cavityFaces delta))
                        (length (newTetras delta)))
    | None => s
    end.

(** [runAllSteps()] up to the moment when the timer has fired [ticks]
    times: the two buttons are disabled, [next] runs at once and again at
    every firing. *)
Definition runAllSteps (ticks : nat) (s : State) : State :=
  Nat.iter (S ticks) doNextStep
    (mkState (points s) (pointIndex s) (delaunay s) (voronoiEdges s)
             (delaunayEdgesVisible s) true true (stepInfo s)).

End Steps.

End Simulation.

(* ================================================================== *)
(** ** More notions used to state the properties                         *)
(* ================================================================== *)

(** A random result as [Math.random()] returns it: in [0, 1). *)
Definition unitInterval (r : Qc) : Prop := 0 <= r /\ r < 1.

Definition validDraw (d : Draw) : Prop :=
  unitInterval (r1 d) /\ unitInterval (r2 d) /\ unitInterval (r3 d) /\
  unitInterval (j1 d) /\ unitInterval (j2 d) /\ unitInterval (j3 d).

(** The number of vertices of [t] that are vertices of [u], by value. *)
Definition sharedVertices (t u : Tetrahedron) : nat :=
  length (filter (fun p => containsPoint u p) (points t)).

(** The four vertices differ by value. *)
Definition distinctVertices (t : Tetrahedron) : Prop :=
  NoDup (map pos (points t)).

(** The segments that a list of pairs of points stands for. *)
Definition segments (l : list (Vec3 * Vec3)) : list Qc :=
  flat_map (fun s => segment (fst s) (snd s)) l.

(** The six edges of a tetrahedron, in the order of [getTetraEdges]. *)
Definition tetraEdges (t : Tetrahedron) : list (Vec3 * Vec3) :=
  [ (pos (pt0 t), pos (pt1 t)); (pos (pt0 t), pos (pt2 t));
    (pos (pt0 t), pos (pt3 t)); (pos (pt1 t), pos (pt2 t));
    (pos (pt1 t), pos (pt3 t)); (pos (pt2 t), pos (pt3 t)) ].

(* ================================================================== *)
(** ** Notions used to state the Delaunay invariant                      *)
(* ================================================================== *)

(** The tetrahedron has a circumsphere: [calcCircumsphere] did not take
    its degenerate branch. *)
Definition nondegenerate (t : Tetrahedron) : bool :=
  match circumcenter t with
  | Some _ => true
  | None => false
  end.

(** A run of insertions during which no live tetrahedron is degenerate:
    neither before the first insertion nor after any of them. *)
Fixpoint regularRun (d : Delaunay3D) (pts : list Vector3) : bool :=
  forallb nondegenerate (tetrahedra d) &&
  match pts with
  | [] => true
  | p :: rest => regularRun (snd (addPoint d p)) rest
  end.


(** The faces of the tetrahedra of a list, with their repetitions. *)
Definition allFaces (l : list Tetrahedron) : list Face :=
  flat_map getFaces l.

(** The number of faces of the tetrahedron that [addPoint] builds on the
    face [g] that are the face [f]. *)
Definition coneOccurrences (f : Face) (p : Vector3) (g : Face) : nat :=
  occurrences f (getFaces (tetraOnFace p g)).




(* ================================================================== *)
(** ** The classes with the numbers of JavaScript                        *)
(* ================================================================== *)

(** The properties below that rest on the arithmetic of the circumsphere
    are proved for exact rationals.  To tell which of them the rounding of
    the code's numbers breaks, [Binary64] repeats [Tetrahedron] and
    [Delaunay3D.addPoint] on IEEE 754 binary64 numbers, with the operations
    in the order in which the source and three.js write them ([a * e * i -
    a * f * h - ...] from left to right).  Two keys of faces are equal
    strings exactly when their three coordinate triples are equal up to
    order: the rendering of a finite number determines it, but for [-0],
    which is rendered like [0] and which [==] on binary64 identifies with
    it too. *)
Module Binary64.

Import PrimFloat.
Local Open Scope float_scope.

Record Vec3 : Type := mkVec3 { vx : float; vy : float; vz : float }.

Record Vector3 : Type := mkVector3 { oid : nat; pos : Vec3 }.

Definition sub (u v : Vec3) : Vec3 :=
  mkVec3 (vx u - vx v) (vy u - vy v) (vz u - vz v).

Definition add (u v : Vec3) : Vec3 :=
  mkVec3 (vx u + vx v) (vy u + vy v) (vz u + vz v).

Definition lengthSq (u : Vec3) : float :=
  vx u * vx u + vy u * vy u + vz u * vz u.

Definition distanceToSquared (u v : Vec3) : float :=
  let dx := vx u - vx v in
  let dy := vy u - vy v in
  let dz := vz u - vz v in
  dx * dx + dy * dy + dz * dz.

Definition equals (u v : Vec3) : bool :=
  eqb (vx u) (vx v) && eqb (vy u) (vy v) && eqb (vz u) (vz v).

(** [M.set(n11, ..., n33)] followed by [M.determinant()]. *)
Definition determinant (n11 n12 n13 n21 n22 n23 n31 n32 n33 : float)
    : float :=
  let a := n11 in let b := n21 in let c := n31 in
  let d := n12 in let e := n22 in let f := n32 in
  let g := n13 in let h := n23 in let i := n33 in
  a * e * i - a * f * h - b * d * i + b * f * g + c * d * h - c * e * g.

Record Tetrahedron : Type := mkTetrahedron {
  pt0 : Vector3; pt1 : Vector3; pt2 : Vector3; pt3 : Vector3;
  circumcenter : option Vec3;
  radiusSq : float
}.

Definition points (t : Tetrahedron) : list Vector3 :=
  [pt0 t; pt1 t; pt2 t; pt3 t].

Definition calcCircumsphere (a b c d : Vec3) : option Vec3 * float :=
  let a_ := sub a d in
  let b_ := sub b d in
  let c_ := sub c d in
  let A := lengthSq a_ in
  let B := lengthSq b_ in
  let C := lengthSq c_ in
  let det := determinant (vx a_) (vy a_) (vz a_)
                         (vx b_) (vy b_) (vz b_)
                         (vx c_) (vy c_) (vz c_) in
  if ltb (abs det) 1e-12 then (None, infinity)
  else
    let invDet := 0.5 / det in
    let x := (A * (vy b_ * vz c_ - vy c_ * vz b_)
              - B * (vy a_ * vz c_ - vy c_ * vz a_)
              + C * (vy a_ * vz b_ - vy b_ * vz a_)) * invDet in
    let y := (A * (vz b_ * vx c_ - vz c_ * vx b_)
              - B * (vz a_ * vx c_ - vz c_ * vx a_)
              + C * (vz a_ * vx b_ - vz b_ * vx a_)) * invDet in
    let z := (A * (vx b_ * vy c_ - vx c_ * vy b_)
              - B * (vx a_ * vy c_ - vx c_ * vy a_)
              + C * (vx a_ * vy b_ - vx b_ * vy a_)) * invDet in
    let center := add (mkVec3 x y z) d in
    (Some center, distanceToSquared center a).

Definition new_Tetrahedron (p1 p2 p3 p4 : Vector3) : Tetrahedron :=
  let cs := calcCircumsphere (pos p1) (pos p2) (pos p3) (pos p4) in
  mkTetrahedron p1 p2 p3 p4 (fst cs) (snd cs).

Definition containsPoint (t : Tetrahedron) (p : Vector3) : bool :=
  existsb (fun v => equals (pos v) (pos p)) (points t).

Definition circumsphereContains (t : Tetrahedron) (p : Vector3) : bool :=
  match circumcenter t with
  | None => false
  | Some c => ltb (distanceToSquared (pos p) c) (radiusSq t)
  end.

Record Face : Type := mkFace { fa : Vector3; fb : Vector3; fc : Vector3 }.

Definition getFaces (t : Tetrahedron) : list Face :=
  [ mkFace (pt0 t) (pt1 t) (pt2 t); mkFace (pt0 t) (pt1 t) (pt3 t);
    mkFace (pt0 t) (pt2 t) (pt3 t); mkFace (pt1 t) (pt2 t) (pt3 t) ].

(** The key of a face, up to the order of its three parts. *)
Definition Key : Type := list Vec3.

Definition key (f : Face) : Key := map pos [fa f; fb f; fc f].

Fixpoint without (v : Vec3) (k : Key) : option Key :=
  match k with
  | [] => None
  | u :: rest =>
      if equals u v then Some rest
      else match without v rest with
           | Some rest' => Some (u :: rest')
           | None => None
           end
  end.

Fixpoint keyEqb (k1 k2 : Key) : bool :=
  match k1 with
  | [] => match k2 with [] => true | _ :: _ => false end
  | v :: rest =>
      match without v k2 with
      | Some k2' => keyEqb rest k2'
      | None => false
      end
  end.

Definition FaceMap : Type := list (Key * Face).

Definition has (k : Key) (m : FaceMap) : bool :=
  existsb (fun e => keyEqb k (fst e)) m.

Definition delete (k : Key) (m : FaceMap) : FaceMap :=
  filter (fun e => negb (keyEqb k (fst e))) m.

Definition set (k : Key) (f : Face) (m : FaceMap) : FaceMap :=
  if has k m
  then map (fun e => if keyEqb k (fst e) then (fst e, f) else e) m
  else m ++ [(k, f)].

Record Delaunay3D : Type := mkDelaunay3D {
  tetrahedra : list Tetrahedron;
  superPoints : list Vector3
}.

Definition new_Delaunay3D (size : float) (h : nat) : Delaunay3D :=
  let s := size in
  let p1 := mkVector3 h (mkVec3 (- s) (- s) (- s)) in
  let p2 := mkVector3 (S h) (mkVec3 s (- s) 0) in
  let p3 := mkVector3 (S (S h)) (mkVec3 0 s (- s)) in
  let p4 := mkVector3 (S (S (S h))) (mkVec3 0 (- s) s) in
  mkDelaunay3D [new_Tetrahedron p1 p2 p3 p4] [p1; p2; p3; p4].

Definition toggleFace (faceMap : FaceMap) (face : Face) : FaceMap :=
  if has (key face) faceMap
  then delete (key face) faceMap
  else set (key face) face faceMap.

Definition addPoint (this : Delaunay3D) (point : Vector3) : Delaunay3D :=
  let bad :=
    filter (fun tetra => circumsphereContains tetra point) (tetrahedra this) in
  let good :=
    filter (fun tetra => negb (circumsphereContains tetra point))
           (tetrahedra this) in
  let faceMap :=
    fold_left
      (fun faceMap tetra => fold_left toggleFace (getFaces tetra) faceMap)
      bad [] in
  let cavity := map snd faceMap in
  mkDelaunay3D
    (good ++ map (fun face => new_Tetrahedron point (fa face) (fb face)
                                              (fc face)) cavity)
    (superPoints this).

Definition insertAll (this : Delaunay3D) (pts : list Vector3) : Delaunay3D :=
  fold_left addPoint pts this.

(** A vertex with integer coordinates. *)
Definition vertex (id : nat) (x y z : float) : Vector3 :=
  mkVector3 id (mkVec3 x y z).

(** Some live tetrahedron has one of the points, not one of its vertices,
    strictly inside its circumsphere. *)
Definition violatesDelaunay (d : Delaunay3D) (pts : list Vector3) : bool :=
  existsb
    (fun t =>
       existsb
         (fun p => negb (containsPoint t p) && circumsphereContains t p) pts)
    (tetrahedra d).

(** No tetrahedron is degenerate, before or after any of the insertions. *)
Fixpoint regularRun (d : Delaunay3D) (pts : list Vector3) : bool :=
  forallb (fun t => match circumcenter t with Some _ => true | None => false end)
          (tetrahedra d) &&
  match pts with
  | [] => true
  | p :: rest => regularRun (addPoint d p) rest
  end.

End Binary64.
(* ================================================================== *)
(** * Properties                                                         *)
(* ================================================================== *)

(** ** Comparisons *)

Lemma ltb_lt (a b : Qc) : ltb a b = true <-> a < b.
Proof.
  unfold ltb. rewrite Qclt_alt.
  destruct (a ?= b); split; intro H; congruence.
Qed.

Lemma leb_le (a b : Qc) : leb a b = true <-> a <= b.
Proof.
  unfold leb. rewrite Qcle_alt.
  destruct (a ?= b); split; intro H; congruence.
Qed.

Lemma eqb_eq (a b : Qc) : eqb a b = true <-> a = b.
Proof.
  unfold eqb. rewrite Qceq_alt.
  destruct (a ?= b); split; intro H; congruence.
Qed.

Lemma ltb_irrefl (a : Qc) : ltb a a = false.
Proof.
  destruct (ltb a a) eqn:E; [|reflexivity].
  apply ltb_lt in E. exfalso. apply (Qclt_not_eq _ _ E). reflexivity.
Qed.

Lemma ltb_false_le (a b : Qc) : ltb a b = false <-> b <= a.
Proof.
  split; intro H.
  - apply Qcnot_lt_le. intro L. apply ltb_lt in L. congruence.
  - destruct (ltb a b) eqn:E; [|reflexivity].
    apply ltb_lt in E. exfalso. exact (Qcle_not_lt _ _ H E).
Qed.

Lemma equals_eq (u v : Vec3) : Vec.equals u v = true <-> u = v.
Proof.
  unfold Vec.equals. rewrite !andb_true_iff, !eqb_eq.
  destruct u, v; simpl. split.
  - intros [[-> ->] ->]. reflexivity.
  - intros H. injection H as -> -> ->. auto.
Qed.

Lemma equals_refl (u : Vec3) : Vec.equals u u = true.
Proof. apply equals_eq. reflexivity. Qed.

(** ** The circumsphere *)

Lemma nondegenerate_det_nonzero (det : Qc) :
  ltb (Qcabs det) tolerance = false -> det <> 0.
Proof.
  intros H ->.
  assert (ltb (Qcabs 0) tolerance = true) by reflexivity. congruence.
Qed.

(** The operations of [Qc] read on the underlying fractions. *)
Lemma this_plus (a b : Qc) : (this (a + b) == this a + this b)%Q.
Proof. unfold Qcplus, Q2Qc. cbn [this]. apply Qred_correct. Qed.

Lemma this_mult (a b : Qc) : (this (a * b) == this a * this b)%Q.
Proof. unfold Qcmult, Q2Qc. cbn [this]. apply Qred_correct. Qed.

Lemma this_opp (a : Qc) : (this (- a) == - this a)%Q.
Proof. unfold Qcopp, Q2Qc. cbn [this]. apply Qred_correct. Qed.

Lemma this_minus (a b : Qc) : (this (a - b) == this a - this b)%Q.
Proof.
  unfold Qcminus. rewrite this_plus, this_opp. reflexivity.
Qed.

(** Cramer's rule behind [calcCircumsphere]: the numerators of the three
    quotients, multiplied with one of the three edge vectors, give the
    squared length of that edge times the determinant. *)
Lemma cramer_rows (ax ay az bx by_ bz cx cy cz : Qc) :
  let A := ax * ax + ay * ay + az * az in
  let B := bx * bx + by_ * by_ + bz * bz in
  let C := cx * cx + cy * cy + cz * cz in
  let det := Mat.determinant (Mat.set ax ay az bx by_ bz cx cy cz) in
  let nx := A * (by_ * cz - cy * bz) - B * (ay * cz - cy * az)
            + C * (ay * bz - by_ * az) in
  let ny := A * (bz * cx - cz * bx) - B * (az * cx - cz * ax)
            + C * (az * bx - bz * ax) in
  let nz := A * (bx * cy - cx * by_) - B * (ax * cy - cx * ay)
            + C * (ax * by_ - bx * ay) in
  nx * ax + ny * ay + nz * az = A * det /\
  nx * bx + ny * by_ + nz * bz = B * det /\
  nx * cx + ny * cy + nz * cz = C * det.
Proof.
  unfold Mat.determinant, Mat.set.
  cbn [te0 te1 te2 te3 te4 te5 te6 te7 te8]. cbv zeta.
  split; [|split]; ring.
Qed.

Lemma half_double (u : Qc) : (1 + 1) * (u * half) = u.
Proof.
  assert (E : (1 + 1) * half = 1) by (apply Qc_is_canon; reflexivity).
  transitivity (u * ((1 + 1) * half)); [ring|]. rewrite E. ring.
Qed.

(** A point [(x, y, z) + d] whose offset has scalar product [U / 2] with the
    edge vector [v - d], [U] being the squared length of that edge, is as far
    from [v] as from [d]. *)
Lemma equidistant_from_product (x y z : Qc) (v d : Vec3) :
  let u := Vec.sub v d in
  x * vx u + y * vy u + z * vz u = Vec.lengthSq u * half ->
  Vec.distanceToSquared (Vec.add (mkVec3 x y z) d) v
  = x * x + y * y + z * z.
Proof.
  intros u H.
  transitivity (x * x + y * y + z * z
                - (1 + 1) * (x * vx u + y * vy u + z * vz u)
                + Vec.lengthSq u).
  - subst u. destruct v as [v1 v2 v3], d as [d1 d2 d3].
    unfold Vec.distanceToSquared, Vec.add, Vec.sub, Vec.lengthSq.
    cbn [vx vy vz]. ring.
  - rewrite H, half_double. ring.
Qed.

Lemma distance_to_base (x y z : Qc) (d : Vec3) :
  Vec.distanceToSquared (Vec.add (mkVec3 x y z) d) d = x * x + y * y + z * z.
Proof.
  destruct d as [d1 d2 d3]. unfold Vec.distanceToSquared, Vec.add.
  cbn [vx vy vz]. ring.
Qed.

Lemma scaled_product (n1 n2 n3 u1 u2 u3 U det : Qc) :
  n1 * u1 + n2 * u2 + n3 * u3 = U * det ->
  det <> 0 ->
  n1 * (half / det) * u1 + n2 * (half / det) * u2 + n3 * (half / det) * u3
  = U * half.
Proof.
  intros H Hne.
  transitivity ((n1 * u1 + n2 * u2 + n3 * u3) * (half / det)); [ring|].
  rewrite H. field. exact Hne.
Qed.

Lemma calc_nondegenerate (a b c d : Vec3) :
  ltb (Qcabs (edgeDet a b c d)) tolerance = false ->
  exists cc,
    calcCircumsphere a b c d = (Some cc, Fin (Vec.distanceToSquared cc a))
    /\ Vec.distanceToSquared cc b = Vec.distanceToSquared cc a
    /\ Vec.distanceToSquared cc c = Vec.distanceToSquared cc a
    /\ Vec.distanceToSquared cc d = Vec.distanceToSquared cc a.
Proof.
  intros Hdeg. pose proof (nondegenerate_det_nonzero _ Hdeg) as Hne.
  unfold calcCircumsphere. rewrite Hdeg.
  eexists. split; [reflexivity|].
  unfold edgeDet in Hne. cbv zeta in Hne.
  set (a_ := Vec.sub a d) in *. set (b_ := Vec.sub b d) in *.
  set (c_ := Vec.sub c d) in *.
  destruct (cramer_rows (vx a_) (vy a_) (vz a_) (vx b_) (vy b_) (vz b_)
                        (vx c_) (vy c_) (vz c_)) as (Ha & Hb & Hc).
  pose proof (scaled_product _ _ _ _ _ _ _ _ Ha Hne) as Ha'.
  pose proof (scaled_product _ _ _ _ _ _ _ _ Hb Hne) as Hb'.
  pose proof (scaled_product _ _ _ _ _ _ _ _ Hc Hne) as Hc'.
  clear Ha Hb Hc.
  pose proof (equidistant_from_product _ _ _ a d Ha') as Ea.
  pose proof (equidistant_from_product _ _ _ b d Hb') as Eb.
  pose proof (equidistant_from_product _ _ _ c d Hc') as Ec.
  split; [|split].
  - etransitivity; [exact Eb|symmetry; exact Ea].
  - etransitivity; [exact Ec|symmetry; exact Ea].
  - etransitivity; [apply distance_to_base|symmetry; exact Ea].
Qed.

Lemma calc_degenerate (a b c d : Vec3) :
  ltb (Qcabs (edgeDet a b c d)) tolerance = true ->
  calcCircumsphere a b c d = (None, Infinity).
Proof. intros H. unfold calcCircumsphere. rewrite H. reflexivity. Qed.

Lemma distanceToSquared_sym (u v : Vec3) :
  Vec.distanceToSquared u v = Vec.distanceToSquared v u.
Proof. unfold Vec.distanceToSquared. cbv zeta. ring. Qed.

(** The two outcomes of the constructor. *)
Lemma new_Tetrahedron_cases (p1 p2 p3 p4 : Vector3) :
  let t := new_Tetrahedron p1 p2 p3 p4 in
  (ltb (Qcabs (edgeDet (pos p1) (pos p2) (pos p3) (pos p4))) tolerance = true
   /\ circumcenter t = None /\ radiusSq t = Infinity)
  \/
  (ltb (Qcabs (edgeDet (pos p1) (pos p2) (pos p3) (pos p4))) tolerance = false
   /\ exists cc r,
       circumcenter t = Some cc /\ radiusSq t = Fin r /\
       Forall (fun v => Vec.distanceToSquared (pos v) cc = r) (points t)).
Proof.
  intros t. subst t. unfold new_Tetrahedron, points. cbn [pt0 pt1 pt2 pt3].
  destruct (ltb (Qcabs (edgeDet (pos p1) (pos p2) (pos p3) (pos p4)))
                tolerance) eqn:E.
  - left. rewrite (calc_degenerate _ _ _ _ E). auto.
  - right. split; [reflexivity|].
    destruct (calc_nondegenerate _ _ _ _ E) as (cc & -> & Hb & Hc & Hd).
    exists cc, (Vec.distanceToSquared cc (pos p1)).
    cbn [fst snd circumcenter radiusSq]. repeat split.
    repeat constructor; rewrite distanceToSquared_sym; auto.
Qed.

(** A vertex of a constructed tetrahedron is never strictly inside its
    circumsphere. *)
Lemma vertex_not_inside (p1 p2 p3 p4 v : Vector3) :
  In (pos v) (map pos (points (new_Tetrahedron p1 p2 p3 p4))) ->
  circumsphereContains (new_Tetrahedron p1 p2 p3 p4) v = false.
Proof.
  intros Hin. apply in_map_iff in Hin. destruct Hin as (w & Hw & Hin).
  unfold circumsphereContains.
  destruct (new_Tetrahedron_cases p1 p2 p3 p4)
    as [(_ & -> & _) | (_ & cc & r & -> & -> & Hall)]; [reflexivity|].
  rewrite Forall_forall in Hall. specialize (Hall _ Hin).
  rewrite <- Hw, Hall. apply ltb_irrefl.
Qed.

(** ** The shape of [addPoint] *)

Lemma push_each {A : Type} (l acc : list A) :
  fold_left (fun acc x => acc ++ [x]) l acc = acc ++ l.
Proof.
  revert acc. induction l as [|x l IH]; intros acc; simpl.
  - now rewrite app_nil_r.
  - rewrite IH, <- app_assoc. reflexivity.
Qed.

Lemma fillCavity_from (point : Vector3) (faces : list Face)
    (live created : list Tetrahedron) :
  fold_left
    (fun acc face =>
       let newTetra := new_Tetrahedron point (fa face) (fb face) (fc face) in
       (fst acc ++ [newTetra], snd acc ++ [newTetra]))
    faces (live, created)
  = (live ++ map (tetraOnFace point) faces,
     created ++ map (tetraOnFace point) faces).
Proof.
  revert live created. induction faces as [|f faces IH]; intros; simpl.
  - now rewrite !app_nil_r.
  - rewrite IH, <- !app_assoc. reflexivity.
Qed.

Lemma fillCavity_spec (point : Vector3) (faces : list Face)
    (live : list Tetrahedron) :
  fillCavity point faces live
  = (live ++ map (tetraOnFace point) faces, map (tetraOnFace point) faces).
Proof. unfold fillCavity. now rewrite fillCavity_from. Qed.

(** The three deltas and the new live list, without the loops. *)
Lemma addPoint_spec (this : Delaunay3D) (point : Vector3) :
  let bad := filter (fun t => circumsphereContains t point)
                    (tetrahedra this) in
  let good := filter (fun t => negb (circumsphereContains t point))
                     (tetrahedra this) in
  let cavity := MapOps.values (collectFaces bad) in
  addPoint this point
  = (mkDelta bad cavity (map (tetraOnFace point) cavity),
     mkDelaunay3D (good ++ map (tetraOnFace point) cavity)
                  (superPoints this)).
Proof.
  intros bad good cavity. unfold addPoint.
  rewrite push_each, fillCavity_spec. reflexivity.
Qed.

Lemma filter_split_length {A : Type} (f : A -> bool) (l : list A) :
  (length (filter f l) + length (filter (fun x => negb (f x)) l)
   = length l)%nat.
Proof.
  induction l as [|x l IH]; simpl; [reflexivity|].
  destruct (f x); simpl; lia.
Qed.

(** After [addPoint(p)] no live tetrahedron has [p] strictly inside its
    circumsphere: the survivors failed the test and the new ones have [p]
    as a vertex. *)
Lemma addPoint_excludes_point (this : Delaunay3D) (p : Vector3)
    (t : Tetrahedron) :
  In t (tetrahedra (snd (addPoint this p))) ->
  circumsphereContains t p = false.
Proof.
  rewrite addPoint_spec. cbn [snd tetrahedra]. intros Hin.
  apply in_app_or in Hin. destruct Hin as [Hin | Hin].
  - apply filter_In in Hin. destruct Hin as [_ Hin].
    now apply negb_true_iff in Hin.
  - apply in_map_iff in Hin. destruct Hin as (f & <- & _).
    unfold tetraOnFace. apply vertex_not_inside.
    unfold new_Tetrahedron, points. cbn. auto.
Qed.

(** A live tetrahedron after [addPoint] survived or was created. *)
Lemma addPoint_live (this : Delaunay3D) (p : Vector3) (t : Tetrahedron) :
  In t (tetrahedra (snd (addPoint this p))) <->
  (In t (tetrahedra this) /\ circumsphereContains t p = false)
  \/ In t (newTetras (fst (addPoint this p))).
Proof.
  rewrite addPoint_spec. cbn [fst snd tetrahedra newTetras].
  rewrite in_app_iff, filter_In, negb_true_iff. reflexivity.
Qed.

Lemma insertAll_app (d : Delaunay3D) (l1 l2 : list Vector3) :
  insertAll d (l1 ++ l2) = insertAll (insertAll d l1) l2.
Proof. unfold insertAll. apply fold_left_app. Qed.

Lemma insertAll_last (d : Delaunay3D) (l : list Vector3) (p : Vector3) :
  insertAll d (l ++ [p]) = snd (addPoint (insertAll d l) p).
Proof. now rewrite insertAll_app. Qed.

(* ================================================================== *)
(** ** Tetrahedron: the circumsphere and the in-sphere test              *)
(* ================================================================== *)

(** C5.  For every constructed tetrahedron [t] and every point [p],
    [circumsphereContains] answers [true] exactly when the circumcenter is
    defined and the squared distance from [p] to it is strictly below the
    squared radius; a point at squared distance equal to the squared radius
    is not inside; a tetrahedron whose edge determinant is below [1e-12] in
    absolute value has no circumcenter, an infinite [radiusSq], and answers
    [false]; and the circumcenter is defined exactly when the determinant
    is not below the tolerance. *)
Theorem circumsphereContains_spec (p1 p2 p3 p4 p : Vector3) :
  let t := new_Tetrahedron p1 p2 p3 p4 in
  let det := edgeDet (pos p1) (pos p2) (pos p3) (pos p4) in
  (circumsphereContains t p = true <->
   exists cc r,
     circumcenter t = Some cc /\ radiusSq t = Fin r /\
     Vec.distanceToSquared (pos p) cc < r)
  /\ (forall cc r,
        circumcenter t = Some cc -> radiusSq t = Fin r ->
        Vec.distanceToSquared (pos p) cc = r ->
        circumsphereContains t p = false)
  /\ (Qcabs det < tolerance ->
      circumcenter t = None /\ radiusSq t = Infinity /\
      circumsphereContains t p = false)
  /\ (circumcenter t <> None <-> tolerance <= Qcabs det).
Proof.
  intros t det.
  destruct (new_Tetrahedron_cases p1 p2 p3 p4)
    as [(Hd & Hc & Hr) | (Hd & cc & r & Hc & Hr & _)];
    fold t in Hc, Hr; fold det in Hd.
  - (* degenerate *)
    assert (Hf : circumsphereContains t p = false).
    { unfold circumsphereContains. now rewrite Hc. }
    split; [split|split; [|split; [|split]]].
    + rewrite Hf. discriminate.
    + intros (cc & r & E & _). congruence.
    + intros cc r E. congruence.
    + intros _. auto.
    + intros H. congruence.
    + intros H. apply ltb_lt in Hd. exfalso. exact (Qcle_not_lt _ _ H Hd).
  - (* a sphere *)
    assert (Hv : circumsphereContains t p
                 = ltb (Vec.distanceToSquared (pos p) cc) r).
    { unfold circumsphereContains. now rewrite Hc, Hr. }
    apply ltb_false_le in Hd.
    split; [split|split; [|split; [|split]]].
    + rewrite Hv, ltb_lt. intros H. exists cc, r.
      split; [exact Hc|split; [exact Hr|exact H]].
    + intros (cc' & r' & E1 & E2 & L). rewrite Hv, ltb_lt.
      assert (r' = r) by congruence. assert (cc' = cc) by congruence.
      subst. exact L.
    + intros cc' r' E1 E2 E. rewrite Hv.
      assert (r' = r) by congruence. assert (cc' = cc) by congruence.
      subst. apply ltb_irrefl.
    + intros L. exfalso. exact (Qcle_not_lt _ _ Hd L).
    + intros _. exact Hd.
    + intros _. congruence.
Qed.

(** Two instances: four coplanar points make a degenerate tetrahedron, which
    contains no point; and the origin lies on the circumsphere of the
    tetrahedron on [(2,0,0)], [(0,2,0)], [(0,0,2)] and itself, not inside. *)
Example degenerate_tetrahedron :
  let t := new_Tetrahedron (vertex 0 0 0 0) (vertex 1 1 0 0)
                           (vertex 2 0 1 0) (vertex 3 1 1 0) in
  circumcenter t = None /\ radiusSq t = Infinity /\
  circumsphereContains t (vertex 4 0 0 0) = false /\
  circumsphereContains t (vertex 5 7 7 7) = false.
Proof. repeat split. Qed.

Example on_the_sphere_is_outside :
  let t := new_Tetrahedron (vertex 0 2 0 0) (vertex 1 0 2 0)
                           (vertex 2 0 0 2) (vertex 3 0 0 0) in
  option_map (fun c => Vec.equals c (mkVec3 1 1 1)) (circumcenter t)
  = Some true
  /\ circumsphereContains t (vertex 4 2 2 2) = false
  /\ circumsphereContains t (vertex 5 2 2 0) = false
  /\ circumsphereContains t (vertex 6 1 1 0) = true.
Proof. repeat split; vm_compute; reflexivity. Qed.

(** C6.  When the determinant of the edge-vector matrix is at least
    [1e-12] in absolute value, the constructor stores a circumcenter and a
    finite [radiusSq], and the squared distance from the circumcenter to
    each of the four vertices is [radiusSq]: the sphere passes through the
    four vertices. *)
Theorem circumsphere_through_vertices (p1 p2 p3 p4 : Vector3) :
  tolerance <= Qcabs (edgeDet (pos p1) (pos p2) (pos p3) (pos p4)) ->
  let t := new_Tetrahedron p1 p2 p3 p4 in
  exists cc r,
    circumcenter t = Some cc /\ radiusSq t = Fin r /\
    Vec.distanceToSquared cc (pos p1) = r /\
    Vec.distanceToSquared cc (pos p2) = r /\
    Vec.distanceToSquared cc (pos p3) = r /\
    Vec.distanceToSquared cc (pos p4) = r.
Proof.
  intros Hdet t. apply ltb_false_le in Hdet.
  destruct (calc_nondegenerate _ _ _ _ Hdet) as (cc & E & Hb & Hc & Hd).
  exists cc, (Vec.distanceToSquared cc (pos p1)).
  subst t. unfold new_Tetrahedron. rewrite E. cbn [fst snd circumcenter radiusSq].
  auto 7.
Qed.

(** The super-tetrahedron of scale 20 is an instance. *)
Lemma circumsphere_through_vertices_witness :
  let p1 := vertex 0 (-20) (-20) (-20) in
  let p2 := vertex 1 20 (-20) 0 in
  let p3 := vertex 2 0 20 (-20) in
  let p4 := vertex 3 0 (-20) 20 in
  tolerance <= Qcabs (edgeDet (pos p1) (pos p2) (pos p3) (pos p4)) /\
  exists cc r,
    circumcenter (new_Tetrahedron p1 p2 p3 p4) = Some cc /\
    radiusSq (new_Tetrahedron p1 p2 p3 p4) = Fin r /\
    Vec.distanceToSquared cc (pos p1) = r /\
    Vec.distanceToSquared cc (pos p2) = r /\
    Vec.distanceToSquared cc (pos p3) = r /\
    Vec.distanceToSquared cc (pos p4) = r.
Proof.
  intros p1 p2 p3 p4.
  assert (H : tolerance
              <= Qcabs (edgeDet (pos p1) (pos p2) (pos p3) (pos p4))).
  { apply leb_le. vm_compute. reflexivity. }
  split; [exact H|].
  exact (circumsphere_through_vertices p1 p2 p3 p4 H).
Defined.

(** C10.  A tetrahedron with a nonzero edge determinant never has one of
    its own vertices strictly inside its circumsphere: when the circumcenter
    is defined the vertex is at squared distance exactly [radiusSq], and the
    test is strict.  Hence inserting a point with the coordinates of one of
    its vertices does not put the tetrahedron among the bad ones, and it
    stays live. *)
Theorem own_vertices_not_inside (p1 p2 p3 p4 : Vector3) :
  edgeDet (pos p1) (pos p2) (pos p3) (pos p4) <> 0 ->
  let t := new_Tetrahedron p1 p2 p3 p4 in
  (forall v, In v (points t) -> circumsphereContains t v = false)
  /\ (forall v cc r,
        In v (points t) -> circumcenter t = Some cc -> radiusSq t = Fin r ->
        Vec.distanceToSquared (pos v) cc = r)
  /\ (forall this p v,
        In v (points t) -> pos p = pos v -> In t (tetrahedra this) ->
        ~ In t (badTetras (fst (addPoint this p)))
        /\ In t (tetrahedra (snd (addPoint this p)))).
Proof.
  intros _ t.
  assert (Hown : forall p v, In v (points t) -> pos p = pos v ->
                             circumsphereContains t p = false).
  { intros p v Hv E. apply vertex_not_inside. rewrite E.
    now apply in_map. }
  split; [|split; [|intros this p v Hv E Hlive; split]].
  - intros v Hv. now apply (Hown v v).
  - intros v cc r Hv Hc Hr. subst t.
    destruct (new_Tetrahedron_cases p1 p2 p3 p4)
      as [(_ & Hc' & _) | (_ & cc' & r' & Hc' & Hr' & Hall)];
      [congruence|].
    rewrite Forall_forall in Hall.
    assert (cc' = cc) by congruence. assert (r' = r) by congruence.
    subst. apply Hall. exact Hv.
  - rewrite addPoint_spec. cbn [fst badTetras]. intros Hbad.
    apply filter_In in Hbad. destruct Hbad as [_ Hbad].
    rewrite (Hown p v) in Hbad by assumption. discriminate.
  - apply addPoint_live. left. split; [assumption|]. now apply (Hown p v).
Qed.

Lemma own_vertices_not_inside_witness :
  let p1 := vertex 0 (-20) (-20) (-20) in
  let p2 := vertex 1 20 (-20) 0 in
  let p3 := vertex 2 0 20 (-20) in
  let p4 := vertex 3 0 (-20) 20 in
  edgeDet (pos p1) (pos p2) (pos p3) (pos p4) <> 0 /\
  forall v, In v (points (new_Tetrahedron p1 p2 p3 p4)) ->
            circumsphereContains (new_Tetrahedron p1 p2 p3 p4) v = false.
Proof.
  intros p1 p2 p3 p4.
  assert (H : edgeDet (pos p1) (pos p2) (pos p3) (pos p4) <> 0).
  { intro E. apply (f_equal this) in E. vm_compute in E. discriminate E. }
  split; [exact H|].
  exact (proj1 (own_vertices_not_inside p1 p2 p3 p4 H)).
Defined.
(* ================================================================== *)
(** ** addPoint: conservation, frame and the Delaunay property           *)
(* ================================================================== *)

(** C3.  For every state and every point, [addPoint] removes exactly the
    live tetrahedra whose circumsphere strictly contains the point, keeps
    every other live tetrahedron, in place and unchanged, appends the created
    ones, leaves the super-tetrahedron points alone, and the number of live
    tetrahedra afterwards is the number before, minus the removed, plus the
    created. *)
Theorem addPoint_conservation (this : Delaunay3D) (p : Vector3) :
  let r := fst (addPoint this p) in
  let this' := snd (addPoint this p) in
  (forall t, In t (badTetras r) <->
             In t (tetrahedra this) /\ circumsphereContains t p = true)
  /\ badTetras r
     = filter (fun t => circumsphereContains t p) (tetrahedra this)
  /\ tetrahedra this'
     = filter (fun t => negb (circumsphereContains t p)) (tetrahedra this)
       ++ newTetras r
  /\ (forall t, In t (tetrahedra this) -> circumsphereContains t p = false ->
                In t (tetrahedra this'))
  /\ newTetras r = map (tetraOnFace p) (cavityFaces r)
  /\ superPoints this' = superPoints this
  /\ (length (tetrahedra this')
      = length (tetrahedra this) - length (badTetras r)
        + length (newTetras r))%nat
  /\ (length (tetrahedra this') + length (badTetras r)
      = length (tetrahedra this) + length (newTetras r))%nat.
Proof.
  intros r this'. subst r this'. rewrite addPoint_spec.
  cbn [fst snd badTetras newTetras cavityFaces tetrahedra superPoints].
  pose proof (filter_split_length (fun t => circumsphereContains t p)
                                  (tetrahedra this)) as Hlen.
  cbv beta in Hlen.
  split; [|split; [|split; [|split; [|split; [|split; [|split]]]]]].
  - intros t. apply filter_In.
  - reflexivity.
  - reflexivity.
  - intros t Hin Hout. apply in_or_app. left. apply filter_In.
    split; [exact Hin|]. rewrite Hout. reflexivity.
  - reflexivity.
  - reflexivity.
  - rewrite length_app. lia.
  - rewrite length_app. lia.
Qed.

(** A point outside the super-tetrahedron.  With the scale 20, the point
    [(0, 30, 0)] lies outside the circumsphere of the super-tetrahedron, so
    its insertion changes nothing; the insertion of [(-4, -5, -5)] then
    creates tetrahedra whose circumspheres strictly contain [(0, 30, 0)].
    Tetrahedra are named by the identities of their vertices (2 to 5 are
    the super-tetrahedron points).  The circumsphere of
    the super-tetrahedron has centre [(-10/3, -10/3, -10/3)] and squared
    radius [2500/3]; [(0, 30, 0)] is at squared distance [3400/3] from the
    centre.  The tetrahedron on [(-4,-5,-5)] and the super-tetrahedron points
    2, 4 and 5 has centre [(-417, 407/2, 407/2)] and squared radius
    [515027/2]; [(0, 30, 0)] is at squared distance [490807/2]. *)
Lemma delaunay_outside_point_run :
  let d0 := fst (new_Delaunay3D (ofZ 20) 2) in
  let p := vertex 0 0 30 0 in
  let q := vertex 1 (-4) (-5) (-5) in
  let d1 := snd (addPoint d0 p) in
  let d2 := snd (addPoint d1 q) in
  map tetraIds (tetrahedra d0) = ([2; 3; 4; 5] :: nil)%nat
  /\ map (fun t => circumsphereContains t p) (tetrahedra d0) = (false :: nil)
  /\ map tetraIds (tetrahedra d1) = ([2; 3; 4; 5] :: nil)%nat
  /\ map tetraIds (badTetras (fst (addPoint d1 q)))
     = ([2; 3; 4; 5] :: nil)%nat
  /\ map tetraIds (tetrahedra d2)
     = [[1; 2; 3; 4]; [1; 2; 3; 5]; [1; 2; 4; 5]; [1; 3; 4; 5]]%nat
  /\ map (fun t => circumsphereContains t p) (tetrahedra d2)
     = [false; false; true; true]
  /\ map (fun t => containsPoint t p) (tetrahedra d2)
     = [false; false; false; false].
Proof. repeat split; vm_compute; reflexivity. Qed.

(** The Delaunay property fails in the same way with two points of the box
    of [setupSimulation]: [(-4, 2, 2)] is not inside the
    super-tetrahedron. *)
Lemma delaunay_fails_inside_box :
  let pts := [vertex 0 4 (-4) (-1); vertex 1 (-4) 2 2] in
  forallb (fun p => Box3_containsPoint bounds (pos p)) pts = true /\
  violatesDelaunay (insertAll (fst (new_Delaunay3D (BOX_SIZE * ofZ 2) 2)) pts)
                   pts = true.
Proof. split; vm_compute; reflexivity. Qed.
(* ================================================================== *)
(** ** Face keys                                                         *)
(* ================================================================== *)

Lemma FaceKey_eqb_eq (k1 k2 : Key) : FaceKey.eqb k1 k2 = true <-> k1 = k2.
Proof.
  revert k2. induction k1 as [|u k1 IH]; intros [|v k2]; simpl;
    try (split; [discriminate|discriminate]); try tauto.
  rewrite andb_true_iff, equals_eq, IH. split.
  - intros [-> ->]. reflexivity.
  - intros E. injection E as -> ->. auto.
Qed.

Lemma FaceKey_eqb_refl (k : Key) : FaceKey.eqb k k = true.
Proof. apply FaceKey_eqb_eq. reflexivity. Qed.

Lemma FaceKey_eqb_sym (k1 k2 : Key) : FaceKey.eqb k1 k2 = FaceKey.eqb k2 k1.
Proof.
  destruct (FaceKey.eqb k1 k2) eqn:E1, (FaceKey.eqb k2 k1) eqn:E2;
    try reflexivity.
  - apply FaceKey_eqb_eq in E1. subst.
    rewrite FaceKey_eqb_refl in E2. discriminate.
  - apply FaceKey_eqb_eq in E2. subst.
    rewrite FaceKey_eqb_refl in E1. discriminate.
Qed.

Lemma Qccompare_cases (a b : Qc) :
  CompareSpec (a = b) (a < b) (b < a) (a ?= b).
Proof.
  destruct (a ?= b) eqn:E; constructor.
  - now apply Qceq_alt.
  - now apply Qclt_alt.
  - now apply Qcgt_alt.
Qed.

(** Order reasoning on [Qc] through [Q]. *)
Ltac qc_order :=
  repeat match goal with
         | H : @eq Qc _ _ |- _ => apply (f_equal this) in H
         end;
  try apply Qc_is_canon;
  unfold Qclt, Qcle in *;
  repeat match goal with
         | H : @eq Q ?x ?y |- _ =>
             assert (x == y)%Q by (rewrite H; reflexivity); clear H
         end;
  lra.

(** The sorting order, read as a relation: lexicographic on the three
    coordinates. *)
Lemma vec_leb_spec (u v : Vec3) :
  FaceKey.vec_leb u v = true <->
  vx u < vx v \/
  (vx u = vx v /\ (vy u < vy v \/ (vy u = vy v /\ vz u <= vz v))).
Proof.
  unfold FaceKey.vec_leb.
  destruct (Qccompare_cases (vx u) (vx v)) as [Ex|Lx|Gx].
  - destruct (Qccompare_cases (vy u) (vy v)) as [Ey|Ly|Gy].
    + rewrite leb_le. split; [intros H; right; auto|].
      intros [L | [_ [L | [_ L]]]]; [qc_order|qc_order|exact L].
    + split; [intros _; right; auto|reflexivity].
    + split; [discriminate|].
      intros [L | [_ [L | [E _]]]]; qc_order.
  - split; [intros _; left; exact Lx|reflexivity].
  - split; [discriminate|].
    intros [L | [E _]]; qc_order.
Qed.

Lemma vec_leb_total (u v : Vec3) :
  FaceKey.vec_leb u v = true \/ FaceKey.vec_leb v u = true.
Proof.
  rewrite !vec_leb_spec.
  destruct (Qccompare_cases (vx u) (vx v)) as [Ex|Lx|Gx];
    [|left; left; exact Lx|right; left; exact Gx].
  destruct (Qccompare_cases (vy u) (vy v)) as [Ey|Ly|Gy];
    [|left; right; auto|right; right; auto].
  destruct (Qclt_le_dec (vz v) (vz u)) as [L|L].
  - right. right. split; [auto|]. right. split; [auto|].
    apply Qclt_le_weak. exact L.
  - left. right. auto.
Qed.

Lemma vec_leb_antisym (u v : Vec3) :
  FaceKey.vec_leb u v = true -> FaceKey.vec_leb v u = true -> u = v.
Proof.
  rewrite !vec_leb_spec. destruct u as [a b c], v as [a' b' c'].
  cbn [vx vy vz].
  intros [L1 | [E1 [L1 | [E1' L1]]]] [L2 | [E2 [L2 | [E2' L2]]]];
    try (exfalso; qc_order).
  subst. f_equal. qc_order.
Qed.

Lemma vec_leb_trans (u v w : Vec3) :
  FaceKey.vec_leb u v = true -> FaceKey.vec_leb v w = true ->
  FaceKey.vec_leb u w = true.
Proof.
  rewrite !vec_leb_spec.
  intros [L1 | [E1 [L1 | [E1' L1]]]] [L2 | [E2 [L2 | [E2' L2]]]].
  - left. qc_order.
  - left. rewrite <- E2. exact L1.
  - left. rewrite <- E2. exact L1.
  - left. rewrite E1. exact L2.
  - right. split; [congruence|]. left. qc_order.
  - right. split; [congruence|]. left. rewrite <- E2'. exact L1.
  - left. rewrite E1. exact L2.
  - right. split; [congruence|]. left. rewrite E1'. exact L2.
  - right. split; [congruence|]. right. split; [congruence|]. qc_order.
Qed.

Lemma vec_leb_false (u v : Vec3) :
  FaceKey.vec_leb u v = false -> FaceKey.vec_leb v u = true.
Proof.
  intros H. destruct (vec_leb_total u v) as [T|T]; [congruence|exact T].
Qed.

Lemma insert_comm (x y : Vec3) (l : list Vec3) :
  FaceKey.insert x (FaceKey.insert y l)
  = FaceKey.insert y (FaceKey.insert x l).
Proof.
  induction l as [|h l IH]; simpl.
  - destruct (FaceKey.vec_leb x y) eqn:Exy,
             (FaceKey.vec_leb y x) eqn:Eyx; try reflexivity.
    + now rewrite (vec_leb_antisym _ _ Exy Eyx).
    + apply vec_leb_false in Exy. congruence.
  - destruct (FaceKey.vec_leb y h) eqn:Eyh,
             (FaceKey.vec_leb x h) eqn:Exh; simpl.
    + destruct (FaceKey.vec_leb x y) eqn:Exy,
               (FaceKey.vec_leb y x) eqn:Eyx;
        rewrite ?Exh, ?Eyh; try reflexivity.
      * now rewrite (vec_leb_antisym _ _ Exy Eyx).
      * apply vec_leb_false in Exy. congruence.
    + destruct (FaceKey.vec_leb x y) eqn:Exy.
      * rewrite (vec_leb_trans _ _ _ Exy Eyh) in Exh. discriminate.
      * rewrite Exh, Eyh. reflexivity.
    + destruct (FaceKey.vec_leb y x) eqn:Eyx.
      * rewrite (vec_leb_trans _ _ _ Eyx Exh) in Eyh. discriminate.
      * rewrite Exh, Eyh. reflexivity.
    + rewrite Exh, Eyh, IH. reflexivity.
Qed.

Lemma insert_perm (x : Vec3) (l : list Vec3) :
  Permutation (FaceKey.insert x l) (x :: l).
Proof.
  induction l as [|h l IH]; simpl; [reflexivity|].
  destruct (FaceKey.vec_leb x h); [reflexivity|].
  rewrite IH. apply perm_swap.
Qed.

Lemma sort_perm (l : list Vec3) : Permutation (FaceKey.sort l) l.
Proof.
  induction l as [|x l IH]; simpl; [reflexivity|].
  rewrite insert_perm, IH. reflexivity.
Qed.

Lemma sort_of_perm (l l' : list Vec3) :
  Permutation l l' -> FaceKey.sort l = FaceKey.sort l'.
Proof.
  induction 1 as [|x l l' _ IH|x y l|l l' l'' _ IH1 _ IH2]; simpl.
  - reflexivity.
  - now rewrite IH.
  - apply insert_comm.
  - now rewrite IH1.
Qed.

(** Two faces have the same key exactly when they have the same three
    vertices by value, in any order. *)
Lemma key_eq_iff (f g : Face) :
  FaceKey.key f = FaceKey.key g <->
  Permutation (faceVertices f) (faceVertices g).
Proof.
  unfold FaceKey.key. fold (faceVertices f) (faceVertices g). split.
  - intros E. rewrite <- (sort_perm (faceVertices f)), E. apply sort_perm.
  - apply sort_of_perm.
Qed.

Lemma sameFace_iff (f g : Face) :
  sameFace f g = true <-> Permutation (faceVertices f) (faceVertices g).
Proof. unfold sameFace. rewrite FaceKey_eqb_eq. apply key_eq_iff. Qed.

Lemma sameFace_key (f g : Face) :
  sameFace f g = true <-> FaceKey.key f = FaceKey.key g.
Proof. apply FaceKey_eqb_eq. Qed.
(* ================================================================== *)
(** ** The faces of a non-degenerate tetrahedron                         *)
(* ================================================================== *)

(** Two equal vertices make the edge determinant vanish. *)
Lemma edgeDet_distinct (a b c d : Vec3) :
  edgeDet a b c d <> 0 ->
  a <> b /\ a <> c /\ a <> d /\ b <> c /\ b <> d /\ c <> d.
Proof.
  intros Hne.
  assert (Hz : forall a b c d, a = b \/ a = c \/ a = d \/ b = c \/ b = d
                               \/ c = d -> edgeDet a b c d = 0).
  { clear. intros [a1 a2 a3] [b1 b2 b3] [c1 c2 c3] [d1 d2 d3] H.
    unfold edgeDet, Mat.determinant, Mat.set, Vec.sub.
    cbn [vx vy vz te0 te1 te2 te3 te4 te5 te6 te7 te8].
    destruct H as [E|[E|[E|[E|[E|E]]]]]; injection E as -> -> ->; ring. }
  repeat split; intros E; apply Hne, Hz; tauto.
Qed.

Lemma faces_differ (f g : Face) (v : Vec3) :
  In v (faceVertices f) -> ~ In v (faceVertices g) ->
  FaceKey.key f <> FaceKey.key g.
Proof.
  intros Hin Hout E. apply key_eq_iff in E.
  apply Hout. exact (Permutation_in _ E Hin).
Qed.

(** A constructed tetrahedron with a circumcenter has four vertices that
    differ by value, hence four faces with four different keys. *)
Lemma built_faces_distinct (t : Tetrahedron) :
  built t -> circumcenter t <> None ->
  NoDup (map FaceKey.key (getFaces t)).
Proof.
  intros Hb Hc.
  assert (Hdet : edgeDet (pos (pt0 t)) (pos (pt1 t)) (pos (pt2 t))
                         (pos (pt3 t)) <> 0).
  { destruct (new_Tetrahedron_cases (pt0 t) (pt1 t) (pt2 t) (pt3 t))
      as [(_ & Hn & _) | (Hd & _)].
    - rewrite <- Hb in Hn. contradiction.
    - exact (nondegenerate_det_nonzero _ Hd). }
  destruct (edgeDet_distinct _ _ _ _ Hdet) as (Hab & Hac & Had & Hbc & Hbd & Hcd).
  unfold getFaces. cbn [map].
  assert (D : forall f g v, In v (faceVertices f) -> ~ In v (faceVertices g) ->
                            FaceKey.key f <> FaceKey.key g
                            /\ FaceKey.key g <> FaceKey.key f).
  { intros f g v H1 H2. split; [|apply not_eq_sym];
      exact (faces_differ f g v H1 H2). }
  repeat constructor; cbn [In]; intros H;
    repeat (destruct H as [H|H]; [revert H|]); try exact H.
  - eapply (D _ _ (pos (pt2 t))); cbn; intuition congruence.
  - eapply (D _ _ (pos (pt1 t))); cbn; intuition congruence.
  - eapply (D _ _ (pos (pt0 t))); cbn; intuition congruence.
  - eapply (D _ _ (pos (pt1 t))); cbn; intuition congruence.
  - eapply (D _ _ (pos (pt0 t))); cbn; intuition congruence.
  - eapply (D _ _ (pos (pt0 t))); cbn; intuition congruence.
Qed.

(* ================================================================== *)
(** ** The face map                                                      *)
(* ================================================================== *)

Lemma has_In (k : Key) (m : FaceMap) :
  MapOps.has k m = true <-> In k (map fst m).
Proof.
  unfold MapOps.has. rewrite existsb_exists, in_map_iff. split.
  - intros (e & Hin & E). apply FaceKey_eqb_eq in E. exists e. auto.
  - intros (e & E & Hin). exists e. split; [exact Hin|].
    apply FaceKey_eqb_eq. auto.
Qed.

Lemma has_app (k : Key) (m1 m2 : FaceMap) :
  MapOps.has k (m1 ++ m2) = MapOps.has k m1 || MapOps.has k m2.
Proof. unfold MapOps.has. apply existsb_app. Qed.

Lemma has_delete (k k' : Key) (m : FaceMap) :
  MapOps.has k (MapOps.delete k' m)
  = MapOps.has k m && negb (FaceKey.eqb k k').
Proof.
  unfold MapOps.has, MapOps.delete.
  induction m as [|e m IH]; simpl; [reflexivity|].
  destruct (FaceKey.eqb k' (fst e)) eqn:E1; simpl.
  - apply FaceKey_eqb_eq in E1. subst k'. rewrite IH.
    destruct (FaceKey.eqb k (fst e)); simpl; [|reflexivity].
    rewrite andb_false_r. reflexivity.
  - rewrite IH. destruct (FaceKey.eqb k (fst e)) eqn:E2; simpl;
      [|reflexivity].
    apply FaceKey_eqb_eq in E2. subst k.
    rewrite FaceKey_eqb_sym, E1. reflexivity.
Qed.


(** The map after one toggle: an entry removed, or one appended. *)
Lemma toggle_cases (m : FaceMap) (f : Face) :
  (MapOps.has (FaceKey.key f) m = true /\
   toggleFace m f = MapOps.delete (FaceKey.key f) m)
  \/
  (MapOps.has (FaceKey.key f) m = false /\
   toggleFace m f = m ++ [(FaceKey.key f, f)]).
Proof.
  unfold toggleFace. cbv zeta.
  destruct (MapOps.has (FaceKey.key f) m) eqn:Hf; [left; auto|right].
  split; [reflexivity|]. unfold MapOps.set. rewrite Hf. reflexivity.
Qed.

(** The invariant of the face map: no key twice, every entry filed under
    the key of its face, every face taken from the given list. *)
Lemma toggle_invariant (fs : list Face) (m : FaceMap) (f : Face) :
  NoDup (map fst m) /\
  (forall e, In e m -> fst e = FaceKey.key (snd e) /\ In (snd e) fs) ->
  NoDup (map fst (toggleFace m f)) /\
  (forall e, In e (toggleFace m f) ->
             fst e = FaceKey.key (snd e) /\ In (snd e) (f :: fs)).
Proof.
  intros [Hnd Hk].
  destruct (toggle_cases m f) as [[Hf ->] | [Hf ->]].
  - split.
    + unfold MapOps.delete. clear Hk Hf.
      induction m as [|e m IH]; simpl; [constructor|].
      inversion Hnd as [|? ? Hnot Hnd']; subst.
      destruct (negb (FaceKey.eqb (FaceKey.key f) (fst e))); simpl;
        [|auto].
      constructor; [|auto].
      intros Hin. apply Hnot. apply in_map_iff in Hin.
      destruct Hin as (e' & E & Hin). apply filter_In in Hin.
      apply in_map_iff. exists e'. tauto.
    + intros e Hin. apply filter_In in Hin. destruct Hin as [Hin _].
      destruct (Hk e Hin). split; [auto|right; auto].
  - split.
    + rewrite map_app. simpl.
      apply NoDup_app; [exact Hnd|repeat constructor; auto|].
      intros k Hk1 [<-|[]]. apply has_In in Hk1. congruence.
    + intros e Hin. apply in_app_or in Hin. destruct Hin as [Hin|[<-|[]]].
      * destruct (Hk e Hin). split; [auto|right; auto].
      * simpl. auto.
Qed.

Lemma occurrences_cons (f g : Face) (l : list Face) :
  occurrences f (g :: l)
  = ((if sameFace f g then 1 else 0) + occurrences f l)%nat.
Proof. unfold occurrences. simpl. destruct (sameFace f g); reflexivity. Qed.

Lemma occurrences_app (f : Face) (l1 l2 : list Face) :
  occurrences f (l1 ++ l2) = (occurrences f l1 + occurrences f l2)%nat.
Proof. unfold occurrences. now rewrite filter_app, length_app. Qed.


Lemma fold_toggle_invariant (fs seen : list Face) (m : FaceMap) :
  NoDup (map fst m) /\
  (forall e, In e m -> fst e = FaceKey.key (snd e) /\ In (snd e) seen) ->
  NoDup (map fst (fold_left toggleFace fs m)) /\
  (forall e, In e (fold_left toggleFace fs m) ->
             fst e = FaceKey.key (snd e) /\ In (snd e) (seen ++ fs)).
Proof.
  revert seen m. induction fs as [|g fs IH]; intros seen m H; simpl.
  - rewrite app_nil_r. exact H.
  - apply (toggle_invariant seen m g) in H.
    destruct (IH (g :: seen) _ H) as [Hnd Hk]. split; [exact Hnd|].
    intros e Hin. destruct (Hk e Hin) as [E Hs]. split; [exact E|].
    apply in_app_or in Hs. apply in_or_app. simpl in *. tauto.
Qed.

(** The nested loops visit the faces of the bad tetrahedra in order. *)
Lemma collectFaces_flat (bad : list Tetrahedron) :
  collectFaces bad = fold_left toggleFace (flat_map getFaces bad) [].
Proof.
  unfold collectFaces. generalize (@nil (Key * Face)).
  induction bad as [|t bad IH]; intros m; [reflexivity|].
  cbn [fold_left flat_map]. rewrite IH, fold_left_app. reflexivity.
Qed.

(** Toggling faces whose keys are new and pairwise different files each of
    them, in order. *)
Lemma fold_toggle_fresh (fs : list Face) (m : FaceMap) :
  NoDup (map FaceKey.key fs) ->
  (forall f, In f fs -> MapOps.has (FaceKey.key f) m = false) ->
  fold_left toggleFace fs m = m ++ map (fun f => (FaceKey.key f, f)) fs.
Proof.
  revert m. induction fs as [|g fs IH]; intros m Hnd Hnew; simpl.
  - now rewrite app_nil_r.
  - inversion Hnd as [|? ? Hnot Hnd']; subst.
    destruct (toggle_cases m g) as [[Hg _] | [_ ->]].
    + rewrite Hnew in Hg by (left; reflexivity). discriminate.
    + rewrite IH, <- app_assoc; [reflexivity|exact Hnd'|].
      intros f Hf. rewrite has_app, Hnew by (right; exact Hf).
      simpl. rewrite orb_false_r.
      destruct (FaceKey.eqb (FaceKey.key f) (FaceKey.key g)) eqn:E;
        [|reflexivity].
      apply FaceKey_eqb_eq in E. exfalso. apply Hnot. rewrite <- E.
      now apply in_map.
Qed.

(** In a list of faces with pairwise different keys a face occurs once or
    not at all. *)
Lemma occurrences_NoDup (f : Face) (l : list Face) :
  NoDup (map FaceKey.key l) ->
  occurrences f l = if listsFace l f then 1%nat else 0%nat.
Proof.
  unfold listsFace.
  induction l as [|g l IH]; intros Hnd; [reflexivity|].
  inversion Hnd as [|? ? Hnot Hnd']; subst.
  rewrite occurrences_cons, (IH Hnd'). simpl.
  destruct (sameFace f g) eqn:E; simpl; [|reflexivity].
  destruct (existsb (sameFace f) l) eqn:E'; [|reflexivity].
  exfalso. apply Hnot. apply existsb_exists in E'.
  destruct E' as (g' & Hin & E'). apply sameFace_key in E, E'.
  rewrite <- E, E'. now apply in_map.
Qed.



(* ================================================================== *)
(** ** addPoint: the cavity and the first insertion                      *)
(* ================================================================== *)

Lemma built_new (p1 p2 p3 p4 : Vector3) : built (new_Tetrahedron p1 p2 p3 p4).
Proof. reflexivity. Qed.

Lemma wellFormed_new (size : Qc) (h : Heap) :
  wellFormed (fst (new_Delaunay3D size h)).
Proof.
  unfold wellFormed, new_Delaunay3D, new_Vector3. cbn [fst tetrahedra app].
  constructor; [apply built_new|constructor].
Qed.

Lemma wellFormed_addPoint (d : Delaunay3D) (p : Vector3) :
  wellFormed d -> wellFormed (snd (addPoint d p)).
Proof.
  unfold wellFormed. rewrite !Forall_forall. intros Hwf t Hin.
  apply addPoint_live in Hin. destruct Hin as [[Hin _] | Hin]; [auto|].
  rewrite addPoint_spec in Hin. cbn [fst newTetras] in Hin.
  apply in_map_iff in Hin. destruct Hin as (f & <- & _). apply built_new.
Qed.

Lemma wellFormed_insertAll (d : Delaunay3D) (pts : list Vector3) :
  wellFormed d -> wellFormed (insertAll d pts).
Proof.
  revert d. induction pts as [|p pts IH]; intros d Hwf; [exact Hwf|].
  apply IH, wellFormed_addPoint, Hwf.
Qed.




(** The run behind it (4 to 7 are the super-tetrahedron points, 0 to 2 the
    points inserted before, 3 the point being inserted): the face on the
    vertices 2, 1 and 7 belongs to three of the six removed tetrahedra. *)
Lemma cavity_three_bad_tetrahedra_run :
  let d := insertAll (fst (new_Delaunay3D (ofZ 20) 4))
             [vertex 0 (-5) (-3) (-2); vertex 1 2 5 (-4); vertex 2 (-1) 4 1] in
  let r := fst (addPoint d (vertex 3 (-2) 3 0)) in
  map tetraIds (badTetras r)
  = [[1; 5; 6; 7]; [2; 1; 4; 6]; [2; 1; 4; 7]; [2; 1; 6; 7]; [2; 4; 6; 7];
     [2; 1; 5; 7]]%nat
  /\ map faceIds (cavityFaces r)
     = [[1; 5; 6]; [5; 6; 7]; [1; 4; 6]; [1; 4; 7]; [4; 6; 7]; [2; 1; 5];
        [2; 1; 7]; [2; 5; 7]]%nat
  /\ map (fun f => tetrahedraWithFace f (badTetras r)) (cavityFaces r)
     = [1; 1; 1; 1; 1; 1; 3; 1]%nat.
Proof. repeat split; vm_compute; reflexivity. Qed.

(** C7.  On a fresh triangulation, for every point strictly inside the
    circumsphere of the super-tetrahedron, [addPoint] returns the
    super-tetrahedron as the only removed tetrahedron, its four faces, in the
    order of [getFaces], as the cavity boundary, and four created tetrahedra,
    one per face, each made of the point and the three vertices of that
    face; these four are then the live tetrahedra. *)
Theorem first_insertion (size : Qc) (h : Heap) (p : Vector3)
    (T : Tetrahedron) :
  tetrahedra (fst (new_Delaunay3D size h)) = [T]%list ->
  circumsphereContains T p = true ->
  let r := addPoint (fst (new_Delaunay3D size h)) p in
  badTetras (fst r) = [T]%list
  /\ cavityFaces (fst r) = getFaces T
  /\ newTetras (fst r) = map (tetraOnFace p) (getFaces T)
  /\ length (newTetras (fst r)) = 4%nat
  /\ Forall2 (fun t f => points t = [p; fa f; fb f; fc f])
             (newTetras (fst r)) (getFaces T)
  /\ tetrahedra (snd r) = newTetras (fst r).
Proof.
  intros HT Hin r.
  assert (Hb : built T).
  { unfold new_Delaunay3D, new_Vector3 in HT.
    cbn [fst tetrahedra app] in HT. injection HT as <-. apply built_new. }
  assert (Hc : circumcenter T <> None).
  { unfold circumsphereContains in Hin.
    destruct (circumcenter T); [discriminate|discriminate]. }
  pose proof (built_faces_distinct T Hb Hc) as Hnd.
  assert (Hcav : MapOps.values (collectFaces [T]%list) = getFaces T).
  { rewrite collectFaces_flat. cbn [flat_map]. rewrite app_nil_r.
    rewrite fold_toggle_fresh; [|exact Hnd|reflexivity].
    cbn [app]. unfold MapOps.values. rewrite map_map. cbn [snd].
    apply map_id. }
  subst r. rewrite addPoint_spec. rewrite HT.
  cbn [filter]. rewrite Hin. cbn [negb fst snd badTetras cavityFaces
                                   newTetras tetrahedra app].
  rewrite Hcav.
  split; [reflexivity|]. split; [reflexivity|]. split; [reflexivity|].
  split; [reflexivity|]. split; [|reflexivity].
  unfold getFaces. cbn [map]. repeat constructor.
Qed.

Lemma first_insertion_witness :
  let d := fst (new_Delaunay3D (BOX_SIZE * ofZ 2) 1) in
  let p := vertex 0 (-4) (-5) (-5) in
  let T := new_Tetrahedron (mkVector3 1 (mkVec3 (- (BOX_SIZE * ofZ 2))
                                               (- (BOX_SIZE * ofZ 2))
                                               (- (BOX_SIZE * ofZ 2))))
                           (mkVector3 2 (mkVec3 (BOX_SIZE * ofZ 2)
                                               (- (BOX_SIZE * ofZ 2)) 0))
                           (mkVector3 3 (mkVec3 0 (BOX_SIZE * ofZ 2)
                                               (- (BOX_SIZE * ofZ 2))))
                           (mkVector3 4 (mkVec3 0 (- (BOX_SIZE * ofZ 2))
                                               (BOX_SIZE * ofZ 2))) in
  tetrahedra d = [T]%list /\ circumsphereContains T p = true /\
  badTetras (fst (addPoint d p)) = [T]%list /\
  cavityFaces (fst (addPoint d p)) = getFaces T /\
  newTetras (fst (addPoint d p)) = map (tetraOnFace p) (getFaces T).
Proof.
  intros d p T.
  assert (H1 : tetrahedra d = [T]%list) by reflexivity.
  assert (H2 : circumsphereContains T p = true) by (vm_compute; reflexivity).
  pose proof (first_insertion (BOX_SIZE * ofZ 2) 1%nat p T H1 H2)
    as (Ha & Hb & Hc & _).
  split; [exact H1|]. split; [exact H2|]. split; [exact Ha|].
  split; [exact Hb|exact Hc].
Defined.
(* ================================================================== *)
(** ** The super-tetrahedron and the box                                 *)
(* ================================================================== *)

Lemma Qcopp_neg_of_pos (a : Qc) : 0 < a -> - a < 0.
Proof.
  intros H. apply Qclt_minus_iff.
  replace (0 + - - a) with a by ring. exact H.
Qed.

Lemma Qcmult_pos (a b : Qc) : 0 < a -> 0 < b -> 0 < a * b.
Proof.
  intros Ha Hb. replace 0 with (0 * b) by ring.
  apply Qcmult_lt_compat_r; assumption.
Qed.

(** Three of the four super-tetrahedron points lie on the plane
    [x + y + z = 0] and the fourth below it: every point strictly inside the
    super-tetrahedron has a negative coordinate sum. *)
Lemma inside_super_negative_sum (s : Qc) (h : Heap) (q : Vec3) :
  0 < s ->
  insideSuperTetrahedron (fst (new_Delaunay3D s h)) q ->
  vx q + vy q + vz q < 0.
Proof.
  intros Hs.
  unfold insideSuperTetrahedron, new_Delaunay3D, new_Vector3.
  cbn [fst superPoints pos vx vy vz].
  intros (w1 & w2 & w3 & w4 & H1 & _ & _ & _ & _ & Ex & Ey & Ez).
  cbn [vx vy vz] in Ex, Ey, Ez. rewrite Ex, Ey, Ez.
  replace (w1 * - s + w2 * s + w3 * 0 + w4 * 0 +
           (w1 * - s + w2 * - s + w3 * s + w4 * - s) +
           (w1 * - s + w2 * 0 + w3 * - s + w4 * s))
    with (- ((1 + 1 + 1) * (w1 * s))) by ring.
  apply Qcopp_neg_of_pos, Qcmult_pos; [reflexivity|].
  apply Qcmult_pos; assumption.
Qed.

(** C4 fails on the code.  The super-tetrahedron built by
    [new Delaunay3D(BOX_SIZE * 2)] lies in the half space [x + y + z <= 0].
    The position generated by [setupSimulation] when [Math.random()] returns
    0.75 for the three coordinates and 0.5 for the three jitters is
    [(5/2, 5/2, 5/2)]; it is in the box and not strictly inside the
    super-tetrahedron, and neither is the centre of the box. *)
Theorem super_tetrahedron_misses_box (h : Heap) :
  let d := fst (new_Delaunay3D (BOX_SIZE * ofZ 2) h) in
  let r := Q2Qc (3 # 4) in
  let q := randomPosition r r r half half half in
  let o := randomPosition half half half half half half in
  (forall v, insideSuperTetrahedron d v -> vx v + vy v + vz v < 0)
  /\ q = mkVec3 (Q2Qc (5 # 2)) (Q2Qc (5 # 2)) (Q2Qc (5 # 2))
  /\ Box3_containsPoint bounds q = true
  /\ ~ insideSuperTetrahedron d q
  /\ o = mkVec3 0 0 0
  /\ Box3_containsPoint bounds o = true
  /\ ~ insideSuperTetrahedron d o.
Proof.
  intros d r q o.
  assert (Hs : 0 < BOX_SIZE * ofZ 2) by reflexivity.
  assert (Hq : q = mkVec3 (Q2Qc (5 # 2)) (Q2Qc (5 # 2)) (Q2Qc (5 # 2))).
  { unfold q, randomPosition. f_equal; apply Qc_is_canon; reflexivity. }
  assert (Ho : o = mkVec3 0 0 0).
  { unfold o, randomPosition. f_equal; apply Qc_is_canon; reflexivity. }
  split; [intros v; apply inside_super_negative_sum; exact Hs|].
  split; [exact Hq|].
  split; [rewrite Hq; vm_compute; reflexivity|].
  split.
  { intros Hin. apply (inside_super_negative_sum _ _ _ Hs) in Hin.
    rewrite Hq in Hin. vm_compute in Hin. discriminate Hin. }
  split; [exact Ho|].
  split; [rewrite Ho; vm_compute; reflexivity|].
  intros Hin. apply (inside_super_negative_sum _ _ _ Hs) in Hin.
  rewrite Ho in Hin. vm_compute in Hin. discriminate Hin.
Qed.
(* ================================================================== *)
(** ** getTriangulation                                                  *)
(* ================================================================== *)

Lemma includes_spec (l : list Vector3) (p : Vector3) :
  includes l p = true <-> exists q, In q l /\ oid q = oid p.
Proof.
  unfold includes. rewrite existsb_exists.
  split; intros (q & Hin & E); exists q; split; auto;
    now apply Nat.eqb_eq.
Qed.

Lemma existsb_ext_in {A : Type} (f g : A -> bool) (l : list A) :
  (forall x, In x l -> f x = g x) -> existsb f l = existsb g l.
Proof.
  induction l as [|x l IH]; intros H; [reflexivity|]. simpl.
  rewrite (H x (or_introl eq_refl)), IH; [reflexivity|].
  intros y Hy. apply H. right. exact Hy.
Qed.

(** Every cavity face is a face of a removed tetrahedron. *)
Lemma cavity_from_bad (d : Delaunay3D) (p : Vector3) (g : Face) :
  In g (cavityFaces (fst (addPoint d p))) ->
  exists t, In t (badTetras (fst (addPoint d p))) /\ In g (getFaces t).
Proof.
  rewrite addPoint_spec. cbn [fst cavityFaces badTetras].
  rewrite collectFaces_flat. intros Hg.
  destruct (fold_toggle_invariant
              (flat_map getFaces
                 (filter (fun t => circumsphereContains t p) (tetrahedra d)))
              [] [])
    as [_ Hk]; [split; [constructor|intros e []]|].
  unfold MapOps.values in Hg. apply in_map_iff in Hg.
  destruct Hg as (e & <- & He). destruct (Hk e He) as [_ Hin].
  simpl in Hin. apply in_flat_map in Hin. exact Hin.
Qed.

(** The vertices of the live tetrahedra are super-tetrahedron points or
    inserted points, as objects. *)
Lemma vertices_of_insertAll (d : Delaunay3D) (pts : list Vector3)
    (known : list Vector3) :
  (forall t v, In t (tetrahedra d) -> In v (points t) -> In v known) ->
  forall t v, In t (tetrahedra (insertAll d pts)) -> In v (points t) ->
              In v (known ++ pts).
Proof.
  revert d known. induction pts as [|p pts IH]; intros d known Hd t v Ht Hv.
  - rewrite app_nil_r. exact (Hd t v Ht Hv).
  - cbn [insertAll fold_left] in Ht.
    change (In t (tetrahedra (insertAll (snd (addPoint d p)) pts))) in Ht.
    assert (E : known ++ p :: pts = (known ++ [p]) ++ pts)
      by (rewrite <- app_assoc; reflexivity).
    rewrite E. apply (IH (snd (addPoint d p)) (known ++ [p])) with (t := t);
      [|exact Ht|exact Hv].
    clear t v Ht Hv. intros t v Ht Hv. apply in_or_app.
    apply addPoint_live in Ht. destruct Ht as [[Ht _] | Ht].
    + left. exact (Hd t v Ht Hv).
    + assert (Hnew : newTetras (fst (addPoint d p))
                     = map (tetraOnFace p) (cavityFaces (fst (addPoint d p)))).
      { rewrite addPoint_spec. reflexivity. }
      rewrite Hnew in Ht. apply in_map_iff in Ht.
      destruct Ht as (g & <- & Hg).
      destruct (cavity_from_bad d p g Hg) as (t' & Hbad & Hface).
      assert (Hlive : In t' (tetrahedra d)).
      { rewrite addPoint_spec in Hbad. cbn [fst badTetras] in Hbad.
        apply filter_In in Hbad. tauto. }
      unfold tetraOnFace, new_Tetrahedron, points in Hv.
      cbn [pt0 pt1 pt2 pt3] in Hv.
      assert (Hsub : forall w, In w [fa g; fb g; fc g] -> In w (points t')).
      { unfold getFaces in Hface. unfold points.
        destruct Hface as [<-|[<-|[<-|[<-|[]]]]]; cbn; intros w; tauto. }
      destruct Hv as [<-|Hv]; [right; left; reflexivity|].
      left. apply (Hd t' v Hlive). apply Hsub. exact Hv.
Qed.

Lemma superPoints_insertAll (d : Delaunay3D) (pts : list Vector3) :
  superPoints (insertAll d pts) = superPoints d.
Proof.
  revert d. induction pts as [|p pts IH]; intros d; [reflexivity|].
  cbn [insertAll fold_left].
  change (superPoints (insertAll (snd (addPoint d p)) pts) = superPoints d).
  rewrite IH. reflexivity.
Qed.

(** After the insertion of foreign points into a fresh triangulation,
    identity and coordinates tell the same about the super-tetrahedron
    points. *)
Lemma identityIsValue_insertAll (size : Qc) (h : Heap)
    (pts : list Vector3) :
  let d0 := fst (new_Delaunay3D size h) in
  Forall (foreignPoint d0) pts ->
  identityIsValue (insertAll d0 pts).
Proof.
  intros d0 Hpts t v Ht Hv. rewrite superPoints_insertAll.
  assert (Hin : In v (superPoints d0 ++ pts)).
  { apply (vertices_of_insertAll d0 pts (superPoints d0)) with (t := t);
      [|exact Ht|exact Hv].
    unfold d0, new_Delaunay3D, new_Vector3.
    cbn [fst tetrahedra superPoints app].
    intros t' v' [<-|[]] Hv'. exact Hv'. }
  apply in_app_or in Hin. destruct Hin as [Hin | Hin].
  - split; intros _; exists v; auto.
  - rewrite Forall_forall in Hpts. specialize (Hpts v Hin).
    split; intros (sp & Hsp & E); destruct (Hpts sp Hsp); contradiction.
Qed.

(** C9, as amended.  [getTriangulation] returns exactly the live tetrahedra
    none of whose four vertex objects is one of the four super-tetrahedron
    point objects, the comparison being the identity of objects and not the
    equality of coordinates; it leaves the triangulation as it is, so a
    second call returns the same; and it agrees with the filter by
    coordinates whenever, between the vertices of the live tetrahedra and
    the super-tetrahedron points, same identity and same coordinates are the
    same thing.  This is the case after inserting, into a fresh
    triangulation, points that are none of the super-tetrahedron point
    objects and have the coordinates of none of them. *)
Theorem getTriangulation_by_identity (d : Delaunay3D) :
  (forall t, In t (fst (getTriangulation d)) <->
             In t (tetrahedra d) /\
             forall v sp, In v (points t) -> In sp (superPoints d) ->
                          oid sp <> oid v)
  /\ snd (getTriangulation d) = d
  /\ getTriangulation (snd (getTriangulation d)) = getTriangulation d
  /\ (identityIsValue d ->
      fst (getTriangulation d) = triangulationByValue d)
  /\ (forall size h pts,
        d = insertAll (fst (new_Delaunay3D size h)) pts ->
        Forall (foreignPoint (fst (new_Delaunay3D size h))) pts ->
        fst (getTriangulation d) = triangulationByValue d).
Proof.
  assert (Hval : identityIsValue d ->
                 fst (getTriangulation d) = triangulationByValue d).
  { intros Hid. unfold getTriangulation, triangulationByValue. cbn [fst].
    apply filter_ext_in. intros t Ht. f_equal.
    apply existsb_ext_in. intros p Hp.
    destruct (Hid t p Ht Hp) as [H1 H2].
    destruct (includes (superPoints d) p) eqn:E1,
             (existsb (fun sp => Vec.equals (pos sp) (pos p))
                      (superPoints d)) eqn:E2; try reflexivity.
    - apply includes_spec, H1 in E1. destruct E1 as (sp & Hsp & E).
      assert (Ht' : existsb (fun sp => Vec.equals (pos sp) (pos p))
                            (superPoints d) = true).
      { apply existsb_exists. exists sp. split; [exact Hsp|].
        apply equals_eq. exact E. }
      congruence.
    - apply existsb_exists in E2. destruct E2 as (sp & Hsp & E).
      apply equals_eq in E.
      assert (Ht' : includes (superPoints d) p = true).
      { apply includes_spec, H2. exists sp. auto. }
      congruence. }
  split; [|split; [reflexivity|split; [reflexivity|split; [exact Hval|]]]];
    [|intros size h pts -> Hpts; apply Hval, identityIsValue_insertAll;
      exact Hpts].
  - intros t. unfold getTriangulation. cbn [fst].
    rewrite filter_In, negb_true_iff. apply and_iff_compat_l.
    split.
    + intros Hf v sp Hv Hsp E.
      assert (Ht : existsb (fun p => includes (superPoints d) p) (points t)
                   = true).
      { apply existsb_exists. exists v. split; [exact Hv|].
        apply includes_spec. exists sp. auto. }
      congruence.
    + intros Hall.
      destruct (existsb (fun p => includes (superPoints d) p) (points t))
        eqn:E; [|reflexivity].
      apply existsb_exists in E. destruct E as (v & Hv & E).
      apply includes_spec in E. destruct E as (sp & Hsp & E).
      exfalso. exact (Hall v sp Hv Hsp E).
Qed.

Lemma getTriangulation_by_identity_witness :
  let d := insertAll (fst (new_Delaunay3D (ofZ 20) 1))
             (vertex 0 (-4) (-5) (-5) :: nil) in
  identityIsValue d /\ fst (getTriangulation d) = triangulationByValue d.
Proof.
  intros d.
  assert (Hid : identityIsValue d).
  { apply (identityIsValue_insertAll (ofZ 20) 1).
    constructor; [|constructor].
    intros sp Hsp. cbn in Hsp.
    destruct Hsp as [<-|[<-|[<-|[<-|[]]]]]; cbn [oid pos];
      (split; [discriminate|]); intros E;
      apply (f_equal (fun v => this (vx v))) in E;
      vm_compute in E; discriminate E. }
  split; [exact Hid|].
  exact (proj1 (proj2 (proj2 (proj2 (getTriangulation_by_identity d)))) Hid).
Defined.

(** C9, as stated, fails.  After the points [(5,-2,0)], [(2,-5,3)] and
    [(1,4,-3)], insert a point that is a new object with the coordinates
    [(-20,-20,-20)] of the first super-tetrahedron point.  One live
    tetrahedron has the three points and the new object as its vertices:
    [getTriangulation] returns it, the filter by coordinates does not. *)
Lemma getTriangulation_not_by_value :
  let d := insertAll (fst (new_Delaunay3D (ofZ 20) 4))
             [vertex 0 5 (-2) 0; vertex 1 2 (-5) 3; vertex 2 1 4 (-3);
              vertex 3 (-20) (-20) (-20)] in
  fst (getTriangulation d) <> triangulationByValue d.
Proof.
  intros d E. apply (f_equal (@length Tetrahedron)) in E.
  vm_compute in E. discriminate E.
Qed.

(** The run behind it, computed in exact arithmetic (4 to 7 are the
    super-tetrahedron points, 3 is the new object with the coordinates of
    point 4). *)
Lemma value_copy_run :
  let d := insertAll (fst (new_Delaunay3D (ofZ 20) 4))
             [vertex 0 5 (-2) 0; vertex 1 2 (-5) 3; vertex 2 1 4 (-3);
              vertex 3 (-20) (-20) (-20)] in
  map oid (superPoints d) = [4; 5; 6; 7]%nat
  /\ map tetraIds (tetrahedra d)
     = [[0; 4; 5; 6]; [1; 0; 4; 5]; [1; 4; 5; 7]; [1; 5; 6; 7];
        [2; 1; 0; 4]; [2; 0; 4; 6]; [2; 1; 4; 7]; [2; 4; 6; 7];
        [3; 2; 1; 7]; [3; 2; 6; 7]; [3; 1; 6; 7]; [3; 2; 1; 0];
        [3; 1; 0; 5]; [3; 1; 5; 6]; [3; 2; 0; 6]; [3; 0; 5; 6]]%nat
  /\ map tetraIds (fst (getTriangulation d)) = ([3; 2; 1; 0] :: nil)%nat
  /\ map tetraIds (triangulationByValue d) = nil.
Proof. repeat split; vm_compute; reflexivity. Qed.
(* ================================================================== *)
(** ** drawVoronoi                                                       *)
(* ================================================================== *)

Lemma fold_left_seq_shift {A : Type} (g : A -> nat -> A) (k a : nat)
    (acc : A) :
  fold_left g (seq (S a) k) acc
  = fold_left (fun x j => g x (S j)) (seq a k) acc.
Proof.
  revert a acc. induction k as [|k IH]; intros a acc; [reflexivity|].
  cbn [seq fold_left]. apply IH.
Qed.

Lemma fold_left_pointwise {A B : Type} (f g : A -> B -> A) (l : list B) (acc : A) :
  (forall x y, f x y = g x y) -> fold_left f l acc = fold_left g l acc.
Proof.
  intros H. revert acc. induction l as [|y l IH]; intros acc; [reflexivity|].
  cbn [fold_left]. rewrite H. apply IH.
Qed.

(** A loop over the indices of a list is a loop over its elements. *)
Lemma fold_left_indices {A B : Type} (f : B -> A -> A) (l : list B)
    (acc : A) :
  fold_left
    (fun x j => match nth_error l j with Some b => f b x | None => x end)
    (seq 0 (length l)) acc
  = fold_left (fun x b => f b x) l acc.
Proof.
  revert acc. induction l as [|b l IH]; intros acc; [reflexivity|].
  cbn [length seq fold_left nth_error].
  rewrite fold_left_seq_shift. cbn [nth_error]. apply IH.
Qed.

Section VoronoiLoops.

Variable normalize : Vec3 -> Vec3.
Variable intersectBox : Ray -> Box3 -> option Vec3.

(** The two index loops of [drawVoronoi] run the loop body once for every
    pair of tetrahedra at positions [i < j], in that order. *)
Lemma voronoiLoops_from (l : list Tetrahedron) (acc : list Qc) :
  fold_left
    (fun positions i =>
       fold_left
         (fun positions j =>
            match nth_error l i, nth_error l j with
            | Some ti, Some tj =>
                voronoiStep normalize intersectBox ti tj positions
            | _, _ => positions
            end)
         (seq (i + 1) (length l - (i + 1))) positions)
    (seq 0 (length l)) acc
  = fold_left
      (fun positions pr =>
         voronoiStep normalize intersectBox (fst pr) (snd pr) positions)
      (unorderedPairs l) acc.
Proof.
  revert acc. induction l as [|t l IH]; intros acc; [reflexivity|].
  cbn [length seq fold_left unorderedPairs].
  rewrite fold_left_app, <- IH. clear IH.
  rewrite fold_left_seq_shift.
  cbn [Nat.add Nat.sub nth_error]. rewrite Nat.sub_0_r.
  rewrite fold_left_seq_shift. cbn [nth_error].
  rewrite (fold_left_indices
             (fun tj positions =>
                voronoiStep normalize intersectBox t tj positions) l acc).
  assert (Hmap : forall acc,
             fold_left
               (fun positions pr =>
                  voronoiStep normalize intersectBox (fst pr) (snd pr)
                              positions)
               (map (pair t) l) acc
             = fold_left
                 (fun positions tj =>
                    voronoiStep normalize intersectBox t tj positions)
                 l acc).
  { clear. induction l as [|u l IH]; intros acc; [reflexivity|].
    cbn [map fold_left fst snd]. apply IH. }
  rewrite Hmap.
  apply fold_left_pointwise. intros positions i.
  rewrite fold_left_seq_shift. reflexivity.
Qed.

Lemma containsPoint_bounds (c : Vec3) :
  Box3_containsPoint bounds c = true <->
  (- BOX_SIZE / ofZ 2 <= vx c /\ vx c <= BOX_SIZE / ofZ 2) /\
  (- BOX_SIZE / ofZ 2 <= vy c /\ vy c <= BOX_SIZE / ofZ 2) /\
  (- BOX_SIZE / ofZ 2 <= vz c /\ vz c <= BOX_SIZE / ofZ 2).
Proof.
  unfold Box3_containsPoint, bounds. cbn [bmin bmax vx vy vz].
  rewrite !andb_true_iff, !leb_le. tauto.
Qed.

(** C8.  [drawVoronoi] runs over the unordered pairs of tetrahedra of the
    final triangulation, each pair once.  A pair that is not adjacent, or
    one of whose circumcenters is undefined, adds nothing.  For an adjacent
    pair with circumcenters [c1] and [c2]: when both are in the box, the
    segment from [c1] to [c2] is added; when exactly one is in the box, the
    ray from it towards the other is intersected with the box and the
    segment from the inside circumcenter to the intersection point is added,
    or nothing when the ray misses the box; when both are outside, nothing
    is added. *)
Theorem voronoi_clipping :
  (forall d,
      drawVoronoi normalize intersectBox d
      = fold_left
          (fun positions pr =>
             voronoiStep normalize intersectBox (fst pr) (snd pr) positions)
          (unorderedPairs (fst (getTriangulation d))) [])
  /\ (forall c,
        Box3_containsPoint bounds c = true <->
        (- BOX_SIZE / ofZ 2 <= vx c /\ vx c <= BOX_SIZE / ofZ 2) /\
        (- BOX_SIZE / ofZ 2 <= vy c /\ vy c <= BOX_SIZE / ofZ 2) /\
        (- BOX_SIZE / ofZ 2 <= vz c /\ vz c <= BOX_SIZE / ofZ 2))
  /\ (forall ti tj positions,
        let out := voronoiStep normalize intersectBox ti tj positions in
        (isAdjacent ti tj = false -> out = positions)
        /\ (circumcenter ti = None \/ circumcenter tj = None ->
            out = positions)
        /\ (forall c1 c2,
              isAdjacent ti tj = true ->
              circumcenter ti = Some c1 -> circumcenter tj = Some c2 ->
              let in1 := Box3_containsPoint bounds c1 in
              let in2 := Box3_containsPoint bounds c2 in
              (in1 = true -> in2 = true ->
               out = positions ++ segment c1 c2)
              /\ (in1 = true -> in2 = false ->
                  out = positions ++
                        match intersectBox
                                (mkRay c1 (normalize (Vec.sub c2 c1)))
                                bounds with
                        | Some ip => segment c1 ip
                        | None => []
                        end)
              /\ (in1 = false -> in2 = true ->
                  out = positions ++
                        match intersectBox
                                (mkRay c2 (normalize (Vec.sub c1 c2)))
                                bounds with
                        | Some ip => segment c2 ip
                        | None => []
                        end)
              /\ (in1 = false -> in2 = false -> out = positions))).
Proof.
  split; [|split; [exact containsPoint_bounds|]].
  - intros d. unfold drawVoronoi, voronoiLoops. apply voronoiLoops_from.
  - intros ti tj positions out. subst out. unfold voronoiStep.
    split; [|split].
    + intros ->. reflexivity.
    + destruct (negb (isAdjacent ti tj)); [reflexivity|].
      intros [-> | ->]; [reflexivity|].
      destruct (circumcenter ti); reflexivity.
    + intros c1 c2 Ha Hc1 Hc2. cbv zeta. rewrite Ha, Hc1, Hc2. cbn [negb].
      split; [|split; [|split]]; intros -> ->; cbn [andb negb].
      * reflexivity.
      * destruct (intersectBox _ _); [reflexivity|].
        now rewrite app_nil_r.
      * destruct (intersectBox _ _); [reflexivity|].
        now rewrite app_nil_r.
      * reflexivity.
Qed.

End VoronoiLoops.
(* ================================================================== *)
(** * Further properties of the code                                     *)
(* ================================================================== *)

(** ** isAdjacent *)

Lemma equals_sym (u v : Vec3) : Vec.equals u v = Vec.equals v u.
Proof.
  destruct (Vec.equals u v) eqn:E1, (Vec.equals v u) eqn:E2;
    try reflexivity.
  - apply equals_eq in E1. subst. rewrite equals_refl in E2. discriminate.
  - apply equals_eq in E2. subst. rewrite equals_refl in E1. discriminate.
Qed.

(** A counting loop adds the number of elements that pass the test. *)
Lemma count_loop {A : Type} (g : A -> bool) (l : list A) (n : nat) :
  fold_left (fun m x => if g x then S m else m) l n
  = (n + length (filter g l))%nat.
Proof.
  revert n. induction l as [|x l IH]; intros n; simpl; [lia|].
  rewrite IH. destruct (g x); simpl; lia.
Qed.

Lemma length_filter_cons {A : Type} (g : A -> bool) (x : A) (l : list A) :
  length (filter g (x :: l))
  = ((if g x then 1 else 0) + length (filter g l))%nat.
Proof. simpl. destruct (g x); reflexivity. Qed.

(** The number [common] computed by [isAdjacent]. *)
Lemma isAdjacent_common (t u : Tetrahedron) :
  isAdjacent t u
  = Nat.eqb
      (fold_right
         (fun p1 acc =>
            (length (filter (fun p2 => Vec.equals (pos p1) (pos p2))
                            (points u)) + acc)%nat)
         0%nat (points t))
      3.
Proof.
  unfold isAdjacent. f_equal.
  assert (H : forall l n,
             fold_left
               (fun n p1 =>
                  fold_left
                    (fun m p2 =>
                       if Vec.equals (pos p1) (pos p2) then S m else m)
                    (points u) n) l n
             = (n + fold_right
                      (fun p1 acc =>
                         (length (filter
                                    (fun p2 => Vec.equals (pos p1) (pos p2))
                                    (points u)) + acc)%nat)
                      0%nat l)%nat).
  { induction l as [|p l IH]; intros n; cbn [fold_left fold_right]; [lia|].
    rewrite IH, count_loop. lia. }
  rewrite H. reflexivity.
Qed.

(** X1.  [isAdjacent] is symmetric. *)
Theorem isAdjacent_symmetric (t u : Tetrahedron) :
  isAdjacent t u = isAdjacent u t.
Proof.
  rewrite !isAdjacent_common. f_equal.
  unfold points. cbn [fold_right].
  rewrite !length_filter_cons. cbn [filter length].
  rewrite (equals_sym (pos (pt0 u)) (pos (pt0 t))),
          (equals_sym (pos (pt0 u)) (pos (pt1 t))),
          (equals_sym (pos (pt0 u)) (pos (pt2 t))),
          (equals_sym (pos (pt0 u)) (pos (pt3 t))),
          (equals_sym (pos (pt1 u)) (pos (pt0 t))),
          (equals_sym (pos (pt1 u)) (pos (pt1 t))),
          (equals_sym (pos (pt1 u)) (pos (pt2 t))),
          (equals_sym (pos (pt1 u)) (pos (pt3 t))),
          (equals_sym (pos (pt2 u)) (pos (pt0 t))),
          (equals_sym (pos (pt2 u)) (pos (pt1 t))),
          (equals_sym (pos (pt2 u)) (pos (pt2 t))),
          (equals_sym (pos (pt2 u)) (pos (pt3 t))),
          (equals_sym (pos (pt3 u)) (pos (pt0 t))),
          (equals_sym (pos (pt3 u)) (pos (pt1 t))),
          (equals_sym (pos (pt3 u)) (pos (pt2 t))),
          (equals_sym (pos (pt3 u)) (pos (pt3 t))).
  lia.
Qed.

(** The six ways in which two lists of three elements are permutations of
    each other. *)
Ltac perm3 :=
  first [ apply Permutation_refl
        | apply perm_swap
        | apply perm_skip; apply perm_swap
        | eapply perm_trans;
          [apply perm_swap|apply perm_skip; apply perm_swap]
        | eapply perm_trans;
          [apply perm_skip; apply perm_swap|apply perm_swap]
        | eapply perm_trans;
          [apply perm_swap
          |eapply perm_trans;
           [apply perm_skip; apply perm_swap|apply perm_swap]] ].

(** In a list of vertices that differ by value, a point equals at most one
    of them. *)
Lemma matches_NoDup (p : Vector3) (l : list Vector3) :
  NoDup (map pos l) ->
  length (filter (fun q => Vec.equals (pos p) (pos q)) l)
  = if existsb (fun v => Vec.equals (pos v) (pos p)) l then 1%nat else 0%nat.
Proof.
  induction l as [|q l IH]; intros Hnd; [reflexivity|].
  inversion Hnd as [|? ? Hnot Hnd']; subst.
  rewrite length_filter_cons, (IH Hnd'). cbn [existsb].
  rewrite (equals_sym (pos q) (pos p)).
  destruct (Vec.equals (pos p) (pos q)) eqn:E; [|reflexivity].
  apply equals_eq in E. cbn [orb].
  destruct (existsb (fun v => Vec.equals (pos v) (pos p)) l) eqn:E';
    [|reflexivity].
  exfalso. apply Hnot. apply existsb_exists in E'.
  destruct E' as (v & Hv & Ev). apply equals_eq in Ev.
  rewrite <- E, <- Ev. now apply in_map.
Qed.

Lemma common_shared (t u : Tetrahedron) :
  distinctVertices u ->
  fold_right
    (fun p1 acc =>
       (length (filter (fun p2 => Vec.equals (pos p1) (pos p2)) (points u))
        + acc)%nat)
    0%nat (points t)
  = sharedVertices t u.
Proof.
  intros Hu. unfold sharedVertices, containsPoint.
  induction (points t) as [|p l IH]; [reflexivity|].
  cbn [fold_right]. rewrite IH, length_filter_cons, (matches_NoDup p _ Hu).
  reflexivity.
Qed.

(** X2.  When the four vertices of [u] differ by value, [t.isAdjacent(u)]
    holds exactly when three of the four vertices of [t] are vertices of
    [u]; a tetrahedron with four different vertices is not adjacent to
    itself; and two adjacent tetrahedra with four different vertices each
    have a face in common. *)
Theorem isAdjacent_shared_face (t u : Tetrahedron) :
  distinctVertices u ->
  (isAdjacent t u = true <-> sharedVertices t u = 3%nat)
  /\ isAdjacent u u = false
  /\ (distinctVertices t -> isAdjacent t u = true ->
      exists f, In f (getFaces t) /\ hasFace u f = true).
Proof.
  intros Hu.
  assert (Hiff : isAdjacent t u = true <-> sharedVertices t u = 3%nat).
  { rewrite isAdjacent_common, (common_shared t u Hu). apply Nat.eqb_eq. }
  split; [exact Hiff|]. split.
  - rewrite isAdjacent_common, (common_shared u u Hu).
    unfold sharedVertices, containsPoint, points.
    cbn [filter existsb]. rewrite !equals_refl. cbn [orb].
    rewrite !orb_true_r. reflexivity.
  - intros Ht Hadj. apply Hiff in Hadj.
    unfold sharedVertices, points in Hadj.
    rewrite !length_filter_cons in Hadj. cbn [filter length] in Hadj.
    unfold distinctVertices, points in Ht, Hu. cbn [map] in Ht, Hu.
    assert (Hin : forall p, containsPoint u p = true ->
                            In (pos p) [pos (pt0 u); pos (pt1 u);
                                        pos (pt2 u); pos (pt3 u)]).
    { intros p Hp. unfold containsPoint in Hp. apply existsb_exists in Hp.
      destruct Hp as (v & Hv & E). apply equals_eq in E. rewrite <- E.
      change (In (pos v) (map pos (points u))). now apply in_map. }
    assert (Hface : forall a b c : Vector3,
               NoDup [pos a; pos b; pos c] ->
               containsPoint u a = true -> containsPoint u b = true ->
               containsPoint u c = true ->
               hasFace u (mkFace a b c) = true).
    { intros a b c Habc Ha Hb Hc.
      apply Hin in Ha, Hb, Hc.
      apply existsb_exists.
      assert (Hperm : exists g, In g (getFaces u) /\
                Permutation (faceVertices (mkFace a b c)) (faceVertices g)).
      { unfold faceVertices, getFaces. cbn [map fa fb fc].
        inversion Habc as [|? ? Hn1 Habc']; subst.
        inversion Habc' as [|? ? Hn2 _]; subst.
        cbn [In] in Hn1, Hn2, Ha, Hb, Hc.
        destruct Ha as [Ea|[Ea|[Ea|[Ea|[]]]]];
          destruct Hb as [Eb|[Eb|[Eb|[Eb|[]]]]];
          destruct Hc as [Ec|[Ec|[Ec|[Ec|[]]]]];
          rewrite <- Ea, <- Eb, <- Ec in *;
          try (exfalso; tauto);
          first [ exists (mkFace (pt0 u) (pt1 u) (pt2 u));
                  split; [cbn [In]; tauto|]; cbn [map fa fb fc]; perm3
                | exists (mkFace (pt0 u) (pt1 u) (pt3 u));
                  split; [cbn [In]; tauto|]; cbn [map fa fb fc]; perm3
                | exists (mkFace (pt0 u) (pt2 u) (pt3 u));
                  split; [cbn [In]; tauto|]; cbn [map fa fb fc]; perm3
                | exists (mkFace (pt1 u) (pt2 u) (pt3 u));
                  split; [cbn [In]; tauto|]; cbn [map fa fb fc]; perm3 ]. }
      destruct Hperm as (g & Hg & Hp). exists g. split; [exact Hg|].
      apply sameFace_iff. exact Hp. }
    inversion Ht as [|? ? N0 Ht1]; subst.
    inversion Ht1 as [|? ? N1 Ht2]; subst.
    inversion Ht2 as [|? ? N2 Ht3]; subst.
    cbn [In] in N0, N1, N2.
    destruct (containsPoint u (pt0 t)) eqn:C0,
             (containsPoint u (pt1 t)) eqn:C1,
             (containsPoint u (pt2 t)) eqn:C2,
             (containsPoint u (pt3 t)) eqn:C3;
      cbn in Hadj; try discriminate Hadj.
    + exists (mkFace (pt0 t) (pt1 t) (pt2 t)). split; [cbn; auto|].
      apply Hface; auto; repeat constructor; cbn [In]; tauto.
    + exists (mkFace (pt0 t) (pt1 t) (pt3 t)). split; [cbn; auto|].
      apply Hface; auto; repeat constructor; cbn [In]; tauto.
    + exists (mkFace (pt0 t) (pt2 t) (pt3 t)). split; [cbn; auto|].
      apply Hface; auto; repeat constructor; cbn [In]; tauto.
    + exists (mkFace (pt1 t) (pt2 t) (pt3 t)). split; [cbn; auto 6|].
      apply Hface; auto; repeat constructor; cbn [In]; tauto.
Qed.

(** A constructed tetrahedron with a circumcenter has four vertices that
    differ by value. *)
Lemma built_distinct_vertices (t : Tetrahedron) :
  built t -> circumcenter t <> None -> distinctVertices t.
Proof.
  intros Hb Hc.
  assert (Hdet : edgeDet (pos (pt0 t)) (pos (pt1 t)) (pos (pt2 t))
                         (pos (pt3 t)) <> 0).
  { destruct (new_Tetrahedron_cases (pt0 t) (pt1 t) (pt2 t) (pt3 t))
      as [(_ & Hn & _) | (Hd & _)].
    - rewrite <- Hb in Hn. contradiction.
    - exact (nondegenerate_det_nonzero _ Hd). }
  destruct (edgeDet_distinct _ _ _ _ Hdet)
    as (Hab & Hac & Had & Hbc & Hbd & Hcd).
  unfold distinctVertices, points. cbn [map].
  repeat constructor; cbn [In]; intuition congruence.
Qed.

Lemma isAdjacent_shared_face_witness :
  let u := new_Tetrahedron (vertex 0 0 0 0) (vertex 1 2 0 0)
                           (vertex 2 0 2 0) (vertex 3 0 0 2) in
  let t := new_Tetrahedron (vertex 4 2 2 2) (vertex 1 2 0 0)
                           (vertex 2 0 2 0) (vertex 3 0 0 2) in
  distinctVertices u /\ (isAdjacent t u = true <-> sharedVertices t u = 3%nat).
Proof.
  intros u t.
  assert (Hu : distinctVertices u).
  { apply built_distinct_vertices; [reflexivity|].
    intros E. vm_compute in E. discriminate E. }
  split; [exact Hu|].
  exact (proj1 (isAdjacent_shared_face t u Hu)).
Defined.
(** ** The circumsphere: uniqueness and independence of the vertex order *)

Lemma two_nonzero : (1 + 1 : Qc) <> 0.
Proof. intro E. apply (f_equal this) in E. discriminate E. Qed.

(** The difference of two points equidistant from [v] and [d] is
    orthogonal to the edge [v - d]. *)
Lemma equidistant_orthogonal (v d P Q : Vec3) :
  Vec.distanceToSquared P v = Vec.distanceToSquared P d ->
  Vec.distanceToSquared Q v = Vec.distanceToSquared Q d ->
  (vx v - vx d) * (vx P - vx Q) + (vy v - vy d) * (vy P - vy Q)
  + (vz v - vz d) * (vz P - vz Q) = 0.
Proof.
  intros HP HQ.
  apply (Qcmult_integral_l (1 + 1)); [exact two_nonzero|].
  transitivity ((Vec.distanceToSquared Q v - Vec.distanceToSquared Q d)
                - (Vec.distanceToSquared P v - Vec.distanceToSquared P d)).
  - destruct v as [v1 v2 v3], d as [d1 d2 d3], P as [p1 p2 p3],
             Q as [q1 q2 q3].
    unfold Vec.distanceToSquared. cbn [vx vy vz]. ring.
  - rewrite HP, HQ. ring.
Qed.

(** With a nonzero edge determinant, at most one point is equidistant from
    the four vertices. *)
Lemma equidistant_unique (a b c d P Q : Vec3) :
  edgeDet a b c d <> 0 ->
  Vec.distanceToSquared P a = Vec.distanceToSquared P d ->
  Vec.distanceToSquared P b = Vec.distanceToSquared P d ->
  Vec.distanceToSquared P c = Vec.distanceToSquared P d ->
  Vec.distanceToSquared Q a = Vec.distanceToSquared Q d ->
  Vec.distanceToSquared Q b = Vec.distanceToSquared Q d ->
  Vec.distanceToSquared Q c = Vec.distanceToSquared Q d ->
  P = Q.
Proof.
  intros Hdet Pa Pb Pc Qa Qb Qc'.
  pose proof (equidistant_orthogonal a d P Q Pa Qa) as Ha.
  pose proof (equidistant_orthogonal b d P Q Pb Qb) as Hb.
  pose proof (equidistant_orthogonal c d P Q Pc Qc') as Hc.
  destruct a as [ax ay az], b as [bx by_ bz], c as [cx cy cz],
           d as [dx dy dz], P as [px py pz], Q as [qx qy qz].
  unfold edgeDet, Mat.determinant, Mat.set, Vec.sub in Hdet.
  cbn [vx vy vz te0 te1 te2 te3 te4 te5 te6 te7 te8] in *.
  set (a1 := ax - dx) in *. set (a2 := ay - dy) in *.
  set (a3 := az - dz) in *. set (b1 := bx - dx) in *.
  set (b2 := by_ - dy) in *. set (b3 := bz - dz) in *.
  set (c1 := cx - dx) in *. set (c2 := cy - dy) in *.
  set (c3 := cz - dz) in *.
  match type of Hdet with ?e <> _ => set (det := e) in * end.
  set (u1 := px - qx) in *. set (u2 := py - qy) in *.
  set (u3 := pz - qz) in *.
  assert (E1 : det * u1 = 0).
  { transitivity ((b2 * c3 - c2 * b3) * (a1 * u1 + a2 * u2 + a3 * u3)
                  - (a2 * c3 - c2 * a3) * (b1 * u1 + b2 * u2 + b3 * u3)
                  + (a2 * b3 - b2 * a3) * (c1 * u1 + c2 * u2 + c3 * u3)).
    - unfold det. ring.
    - rewrite Ha, Hb, Hc. ring. }
  assert (E2 : det * u2 = 0).
  { transitivity ((b3 * c1 - c3 * b1) * (a1 * u1 + a2 * u2 + a3 * u3)
                  - (a3 * c1 - c3 * a1) * (b1 * u1 + b2 * u2 + b3 * u3)
                  + (a3 * b1 - b3 * a1) * (c1 * u1 + c2 * u2 + c3 * u3)).
    - unfold det. ring.
    - rewrite Ha, Hb, Hc. ring. }
  assert (E3 : det * u3 = 0).
  { transitivity ((b1 * c2 - c1 * b2) * (a1 * u1 + a2 * u2 + a3 * u3)
                  - (a1 * c2 - c1 * a2) * (b1 * u1 + b2 * u2 + b3 * u3)
                  + (a1 * b2 - b1 * a2) * (c1 * u1 + c2 * u2 + c3 * u3)).
    - unfold det. ring.
    - rewrite Ha, Hb, Hc. ring. }
  apply (Qcmult_integral_l _ _ Hdet) in E1, E2, E3.
  unfold u1, u2, u3 in *.
  assert (px = qx) by (transitivity (px - qx + qx); [ring|rewrite E1; ring]).
  assert (py = qy) by (transitivity (py - qy + qy); [ring|rewrite E2; ring]).
  assert (pz = qz) by (transitivity (pz - qz + qz); [ring|rewrite E3; ring]).
  subst. reflexivity.
Qed.

(** A point at equal squared distance from the four vertices of a
    non-degenerate tetrahedron is what [calcCircumsphere] stores. *)
Lemma equidistant_is_circumcenter (a b c d P : Vec3) :
  ltb (Qcabs (edgeDet a b c d)) tolerance = false ->
  Vec.distanceToSquared P a = Vec.distanceToSquared P d ->
  Vec.distanceToSquared P b = Vec.distanceToSquared P d ->
  Vec.distanceToSquared P c = Vec.distanceToSquared P d ->
  calcCircumsphere a b c d = (Some P, Fin (Vec.distanceToSquared P a)).
Proof.
  intros Hdet H1 H2 H3.
  pose proof (nondegenerate_det_nonzero _ Hdet) as Hne.
  destruct (calc_nondegenerate _ _ _ _ Hdet) as (cc & E & Hb & Hc & Hd).
  assert (Ecc : cc = P).
  { apply (equidistant_unique a b c d); try assumption; congruence. }
  rewrite E, Ecc. reflexivity.
Qed.

(** X3.  In exact arithmetic (the numbers taken as rationals, without the
    rounding of binary64), the circumsphere is the only sphere through the
    four vertices: when the edge determinant is at least [1e-12] in
    absolute value, any point at equal squared distance from the four
    vertices is the stored circumcenter, and that squared distance is the
    stored [radiusSq]. *)
Theorem circumcenter_unique (p1 p2 p3 p4 : Vector3) (P : Vec3) :
  tolerance <= Qcabs (edgeDet (pos p1) (pos p2) (pos p3) (pos p4)) ->
  Vec.distanceToSquared P (pos p1) = Vec.distanceToSquared P (pos p4) ->
  Vec.distanceToSquared P (pos p2) = Vec.distanceToSquared P (pos p4) ->
  Vec.distanceToSquared P (pos p3) = Vec.distanceToSquared P (pos p4) ->
  circumcenter (new_Tetrahedron p1 p2 p3 p4) = Some P
  /\ radiusSq (new_Tetrahedron p1 p2 p3 p4)
     = Fin (Vec.distanceToSquared P (pos p1)).
Proof.
  intros Hdet H1 H2 H3. apply ltb_false_le in Hdet.
  unfold new_Tetrahedron.
  rewrite (equidistant_is_circumcenter _ _ _ _ P Hdet H1 H2 H3).
  split; reflexivity.
Qed.

Lemma circumcenter_unique_witness :
  let p1 := vertex 0 2 0 0 in
  let p2 := vertex 1 0 2 0 in
  let p3 := vertex 2 0 0 2 in
  let p4 := vertex 3 0 0 0 in
  let P := mkVec3 1 1 1 in
  tolerance <= Qcabs (edgeDet (pos p1) (pos p2) (pos p3) (pos p4)) /\
  circumcenter (new_Tetrahedron p1 p2 p3 p4) = Some P.
Proof.
  intros p1 p2 p3 p4 P.
  assert (H : tolerance
              <= Qcabs (edgeDet (pos p1) (pos p2) (pos p3) (pos p4))).
  { apply leb_le. vm_compute. reflexivity. }
  split; [exact H|].
  refine (proj1 (circumcenter_unique p1 p2 p3 p4 P H _ _ _));
    apply Qc_is_canon; reflexivity.
Defined.

(** Exchanging two vertices changes the sign of the edge determinant. *)
Lemma edgeDet_swaps (a b c d : Vec3) :
  edgeDet b a c d = - edgeDet a b c d /\
  edgeDet a c b d = - edgeDet a b c d /\
  edgeDet a b d c = - edgeDet a b c d.
Proof.
  destruct a as [a1 a2 a3], b as [b1 b2 b3], c as [c1 c2 c3],
           d as [d1 d2 d3].
  unfold edgeDet, Mat.determinant, Mat.set, Vec.sub.
  cbn [vx vy vz te0 te1 te2 te3 te4 te5 te6 te7 te8].
  split; [|split]; ring.
Qed.

(** Two orders of the same four points with the same absolute determinant
    give the same circumsphere. *)
Lemma calc_same_points (a b c d a' b' c' d' : Vec3) :
  Qcabs (edgeDet a' b' c' d') = Qcabs (edgeDet a b c d) ->
  (forall v, In v [a'; b'; c'; d'] -> In v [a; b; c; d]) ->
  calcCircumsphere a' b' c' d' = calcCircumsphere a b c d.
Proof.
  intros Habs Hsub.
  destruct (ltb (Qcabs (edgeDet a b c d)) tolerance) eqn:E.
  - rewrite (calc_degenerate a b c d E). apply calc_degenerate.
    rewrite Habs. exact E.
  - assert (E' : ltb (Qcabs (edgeDet a' b' c' d')) tolerance = false)
      by (rewrite Habs; exact E).
    destruct (calc_nondegenerate _ _ _ _ E) as (cc & -> & Hb & Hc & Hd).
    destruct (calc_nondegenerate _ _ _ _ E') as (cc' & -> & Hb' & Hc' & Hd').
    assert (Hall : forall v, In v [a'; b'; c'; d'] ->
                     Vec.distanceToSquared cc v = Vec.distanceToSquared cc a).
    { intros v Hv. apply Hsub in Hv.
      destruct Hv as [<-|[<-|[<-|[<-|[]]]]]; auto. }
    assert (Ecc : cc' = cc).
    { apply (equidistant_unique a' b' c' d');
        [exact (nondegenerate_det_nonzero _ E')| | | | | |].
      - congruence.
      - congruence.
      - congruence.
      - rewrite (Hall a'), (Hall d') by (cbn; tauto). reflexivity.
      - rewrite (Hall b'), (Hall d') by (cbn; tauto). reflexivity.
      - rewrite (Hall c'), (Hall d') by (cbn; tauto). reflexivity. }
    rewrite Ecc, (Hall a') by (cbn; tauto). reflexivity.
Qed.

(** The circumsphere computed for four points does not depend on their
    order. *)
Lemma calc_permutation (l l' : list Vec3) :
  Permutation l l' ->
  forall a b c d a' b' c' d',
    l = [a; b; c; d] -> l' = [a'; b'; c'; d'] ->
    calcCircumsphere a b c d = calcCircumsphere a' b' c' d'.
Proof.
  intros HP. induction HP as [l|x y l1 l2|l l' l'' HP1 IH1 HP2 IH2]
    using Permutation_ind_transp; intros a b c d a' b' c' d' El El'.
  - rewrite El in El'. injection El' as -> -> -> ->. reflexivity.
  - destruct (edgeDet_swaps a b c d) as (S1 & S2 & S3).
    destruct l1 as [|u1 [|u2 [|u3 l1]]]; cbn [app] in El, El'.
    + injection El as -> -> El. injection El' as -> -> El'.
      rewrite El in El'. injection El' as -> ->.
      symmetry. apply calc_same_points.
      * rewrite S1. apply Qcabs_opp.
      * cbn [In]. tauto.
    + injection El as -> -> -> El. injection El' as -> -> -> El'.
      rewrite El in El'. injection El' as ->. subst.
      symmetry. apply calc_same_points.
      * rewrite S2. apply Qcabs_opp.
      * cbn [In]. tauto.
    + injection El as -> -> -> -> El. injection El' as -> -> -> -> El'.
      symmetry. apply calc_same_points.
      * rewrite S3. apply Qcabs_opp.
      * cbn [In]. tauto.
    + apply (f_equal (@length Vec3)) in El. cbn [length] in El.
      rewrite length_app in El. cbn [length] in El. lia.
  - assert (Hlen : length l' = 4%nat).
    { rewrite <- (Permutation_length HP1), El. reflexivity. }
    destruct l' as [|m1 [|m2 [|m3 [|m4 [|? ?]]]]]; try discriminate Hlen.
    rewrite (IH1 a b c d m1 m2 m3 m4 El eq_refl).
    exact (IH2 m1 m2 m3 m4 a' b' c' d' eq_refl El').
Qed.

(** X4.  In exact arithmetic (the numbers taken as rationals, without the
    rounding of binary64), two tetrahedra built on the same four points,
    taken in any two orders, have the same circumcenter and the same
    [radiusSq], and contain the same points in their circumspheres. *)
Theorem circumsphere_order_independent
    (p1 p2 p3 p4 q1 q2 q3 q4 : Vector3) :
  Permutation (map pos [p1; p2; p3; p4]) (map pos [q1; q2; q3; q4]) ->
  let t := new_Tetrahedron p1 p2 p3 p4 in
  let u := new_Tetrahedron q1 q2 q3 q4 in
  circumcenter t = circumcenter u
  /\ radiusSq t = radiusSq u
  /\ forall x, circumsphereContains t x = circumsphereContains u x.
Proof.
  intros HP t u.
  assert (E : calcCircumsphere (pos p1) (pos p2) (pos p3) (pos p4)
              = calcCircumsphere (pos q1) (pos q2) (pos q3) (pos q4)).
  { exact (calc_permutation _ _ HP _ _ _ _ _ _ _ _ eq_refl eq_refl). }
  assert (Ec : circumcenter t = circumcenter u).
  { unfold t, u, new_Tetrahedron. cbn [circumcenter]. now rewrite E. }
  assert (Er : radiusSq t = radiusSq u).
  { unfold t, u, new_Tetrahedron. cbn [radiusSq]. now rewrite E. }
  split; [exact Ec|]. split; [exact Er|].
  intros x. unfold circumsphereContains. rewrite Ec, Er. reflexivity.
Qed.

Lemma circumsphere_order_independent_witness :
  let p1 := vertex 0 2 0 0 in
  let p2 := vertex 1 0 2 0 in
  let p3 := vertex 2 0 0 2 in
  let p4 := vertex 3 0 0 0 in
  Permutation (map pos [p1; p2; p3; p4]) (map pos [p4; p1; p3; p2]) /\
  circumcenter (new_Tetrahedron p1 p2 p3 p4)
  = circumcenter (new_Tetrahedron p4 p1 p3 p2).
Proof.
  intros p1 p2 p3 p4.
  assert (H : Permutation (map pos [p1; p2; p3; p4])
                          (map pos [p4; p1; p3; p2])).
  { cbn [map].
    apply perm_trans with [pos p1; pos p4; pos p3; pos p2];
      [|apply perm_swap].
    apply perm_skip.
    apply perm_trans with [pos p4; pos p2; pos p3];
      [|apply perm_skip; apply perm_swap].
    apply perm_trans with [pos p2; pos p4; pos p3];
      [apply perm_skip; apply perm_swap|apply perm_swap]. }
  split; [exact H|].
  exact (proj1 (circumsphere_order_independent p1 p2 p3 p4 p4 p1 p3 p2 H)).
Defined.
(** ** addPoint: insertions without effect, degenerate tetrahedra *)

Lemma filter_none {A : Type} (g : A -> bool) (l : list A) :
  (forall x, In x l -> g x = false) -> filter g l = [].
Proof.
  induction l as [|x l IH]; intros H; [reflexivity|]. simpl.
  rewrite (H x (or_introl eq_refl)). apply IH.
  intros y Hy. apply H. right. exact Hy.
Qed.

Lemma filter_all {A : Type} (g : A -> bool) (l : list A) :
  (forall x, In x l -> g x = true) -> filter g l = l.
Proof.
  induction l as [|x l IH]; intros H; [reflexivity|]. simpl.
  rewrite (H x (or_introl eq_refl)). f_equal. apply IH.
  intros y Hy. apply H. right. exact Hy.
Qed.

(** Without a bad tetrahedron [addPoint] returns three empty lists and
    leaves the triangulation as it is. *)
Lemma addPoint_nothing (d : Delaunay3D) (p : Vector3) :
  (forall t, In t (tetrahedra d) -> circumsphereContains t p = false) ->
  addPoint d p = (mkDelta [] [] [], d).
Proof.
  intros H. rewrite addPoint_spec.
  rewrite (filter_none _ _ H).
  rewrite filter_all
    by (intros t Ht; rewrite (H t Ht); reflexivity).
  cbn. rewrite app_nil_r. destruct d. reflexivity.
Qed.

(** The test depends on the coordinates of the point only. *)
Lemma circumsphereContains_pos (t : Tetrahedron) (p q : Vector3) :
  pos p = pos q -> circumsphereContains t p = circumsphereContains t q.
Proof. intros E. unfold circumsphereContains. rewrite E. reflexivity. Qed.

(** X5.  [addPoint] leaves the triangulation unchanged exactly when no live
    tetrahedron has the point strictly inside its circumsphere; the three
    returned lists are then empty. *)
Theorem addPoint_unchanged_iff (d : Delaunay3D) (p : Vector3) :
  (snd (addPoint d p) = d <->
   forall t, In t (tetrahedra d) -> circumsphereContains t p = false)
  /\ (badTetras (fst (addPoint d p)) = [] <-> snd (addPoint d p) = d)
  /\ (snd (addPoint d p) = d -> fst (addPoint d p) = mkDelta [] [] []).
Proof.
  assert (H1 : snd (addPoint d p) = d ->
               forall t, In t (tetrahedra d) ->
                         circumsphereContains t p = false).
  { intros E t Ht. apply (addPoint_excludes_point d p). rewrite E. exact Ht. }
  assert (H2 : (forall t, In t (tetrahedra d) ->
                          circumsphereContains t p = false) ->
               addPoint d p = (mkDelta [] [] [], d))
    by apply addPoint_nothing.
  split; [|split].
  - split; [exact H1|]. intros H. rewrite (H2 H). reflexivity.
  - split.
    + intros Hbad. rewrite H2; [reflexivity|]. intros t Ht.
      destruct (circumsphereContains t p) eqn:E; [|reflexivity].
      assert (Hin : In t (badTetras (fst (addPoint d p)))).
      { rewrite addPoint_spec. cbn [fst badTetras]. apply filter_In. auto. }
      rewrite Hbad in Hin. destruct Hin.
    + intros E. rewrite (H2 (H1 E)). reflexivity.
  - intros E. rewrite (H2 (H1 E)). reflexivity.
Qed.

(** X6.  Inserting a point a second time right after its insertion, as the
    same object or as another object with the same coordinates, does
    nothing. *)
Theorem addPoint_twice (d : Delaunay3D) (p : Vector3) (id : nat) :
  let d1 := snd (addPoint d p) in
  addPoint d1 p = (mkDelta [] [] [], d1)
  /\ addPoint d1 (mkVector3 id (pos p)) = (mkDelta [] [] [], d1).
Proof.
  intros d1. split; apply addPoint_nothing; intros t Ht.
  - exact (addPoint_excludes_point d p t Ht).
  - rewrite (circumsphereContains_pos t _ p) by reflexivity.
    exact (addPoint_excludes_point d p t Ht).
Qed.

(** X7.  A live tetrahedron without circumcenter is never removed: it is
    live after any further insertions. *)
Theorem degenerate_stays_live (d : Delaunay3D) (t : Tetrahedron)
    (pts : list Vector3) :
  In t (tetrahedra d) -> circumcenter t = None ->
  In t (tetrahedra (insertAll d pts)).
Proof.
  intros Hin Hc. revert d Hin.
  induction pts as [|p pts IH]; intros d Hin; [exact Hin|].
  cbn [insertAll fold_left].
  change (In t (tetrahedra (insertAll (snd (addPoint d p)) pts))).
  apply IH. apply addPoint_live. left. split; [exact Hin|].
  unfold circumsphereContains. rewrite Hc. reflexivity.
Qed.

(** The insertion of the centre of the box creates a flat tetrahedron on the
    face of the super-tetrahedron that passes through it. *)
Lemma degenerate_stays_live_witness :
  let d := snd (addPoint (fst (new_Delaunay3D (ofZ 20) 1))
                         (vertex 0 0 0 0)) in
  let t := nth 3 (tetrahedra d)
               (new_Tetrahedron (vertex 0 1 0 0) (vertex 0 0 1 0)
                                (vertex 0 0 0 1) (vertex 0 0 0 0)) in
  In t (tetrahedra d) /\ circumcenter t = None /\
  tetraIds t = [0; 2; 3; 4]%nat /\
  In t (tetrahedra (insertAll d [vertex 5 1 (-7) 2; vertex 6 (-3) (-3) (-3)])).
Proof.
  intros d t.
  assert (H1 : In t (tetrahedra d)).
  { apply nth_In. vm_compute. lia. }
  assert (H2 : circumcenter t = None) by (vm_compute; reflexivity).
  split; [exact H1|]. split; [exact H2|].
  split; [vm_compute; reflexivity|].
  exact (degenerate_stays_live d t _ H1 H2).
Defined.
(** ** Triangulations reached from the constructor *)

Lemma first_vertex_of_insertAll (d : Delaunay3D) (pts : list Vector3)
    (t : Tetrahedron) :
  In t (tetrahedra (insertAll d pts)) ->
  In t (tetrahedra d) \/ In (pt0 t) pts.
Proof.
  revert d. induction pts as [|p pts IH]; intros d Ht; [left; exact Ht|].
  cbn [insertAll fold_left] in Ht.
  change (In t (tetrahedra (insertAll (snd (addPoint d p)) pts))) in Ht.
  destruct (IH _ Ht) as [H | H]; [|right; right; exact H].
  apply addPoint_live in H. destruct H as [[H _] | H]; [left; exact H|].
  right. left. rewrite addPoint_spec in H. cbn [fst newTetras] in H.
  apply in_map_iff in H. destruct H as (g & <- & _). reflexivity.
Qed.

(** X8.  Whatever points are inserted into a fresh triangulation: every
    live tetrahedron is as its constructor left it, the four
    super-tetrahedron points are the ones the constructor made, every vertex
    of a live tetrahedron is one of them or an inserted point object, and
    every live tetrahedron other than the initial one has an inserted point
    as its first vertex. *)
Theorem reachable_invariants (size : Qc) (h : Heap) (pts : list Vector3) :
  let d0 := fst (new_Delaunay3D size h) in
  let d := insertAll d0 pts in
  wellFormed d
  /\ superPoints d = superPoints d0
  /\ map oid (superPoints d) = [h; S h; S (S h); S (S (S h))]
  /\ (forall t v, In t (tetrahedra d) -> In v (points t) ->
                  In v (superPoints d0 ++ pts))
  /\ (forall t, In t (tetrahedra d) ->
                In t (tetrahedra d0) \/ In (pt0 t) pts).
Proof.
  intros d0 d.
  split; [apply wellFormed_insertAll, wellFormed_new|].
  split; [apply superPoints_insertAll|].
  split; [unfold d; rewrite superPoints_insertAll; reflexivity|].
  split.
  - apply vertices_of_insertAll.
    unfold d0, new_Delaunay3D, new_Vector3.
    cbn [fst tetrahedra superPoints app].
    intros t v [<-|[]] Hv. exact Hv.
  - intros t. apply first_vertex_of_insertAll.
Qed.

(** X9.  The tetrahedra returned by [getTriangulation] on a triangulation
    reached from the constructor are live and have inserted point objects as
    their four vertices; as long as no point has been inserted the result is
    empty, and so is what [drawDelaunay] draws. *)
Theorem final_triangulation_vertices (size : Qc) (h : Heap)
    (pts : list Vector3) :
  let d := insertAll (fst (new_Delaunay3D size h)) pts in
  (forall t, In t (fst (getTriangulation d)) ->
             In t (tetrahedra d) /\
             forall v, In v (points t) -> In v pts)
  /\ (pts = [] -> fst (getTriangulation d) = [] /\ drawDelaunay d = []).
Proof.
  intros d.
  assert (H : forall t, In t (fst (getTriangulation d)) ->
                        In t (tetrahedra d) /\
                        forall v, In v (points t) -> In v pts).
  { intros t Ht. unfold getTriangulation in Ht. cbn [fst] in Ht.
    apply filter_In in Ht. destruct Ht as [Ht Hf]. split; [exact Ht|].
    intros v Hv. apply negb_true_iff in Hf.
    assert (Hv' : In v (superPoints (fst (new_Delaunay3D size h)) ++ pts)).
    { apply (vertices_of_insertAll (fst (new_Delaunay3D size h)) pts)
        with (t := t); [|exact Ht|exact Hv].
      unfold new_Delaunay3D, new_Vector3.
      cbn [fst tetrahedra superPoints app].
      intros t' v' [<-|[]] Hv''. exact Hv''. }
    apply in_app_or in Hv'. destruct Hv' as [Hs | Hp]; [|exact Hp].
    exfalso.
    assert (Ht' : existsb (fun p => includes (superPoints d) p) (points t)
                  = true).
    { apply existsb_exists. exists v. split; [exact Hv|].
      apply includes_spec. exists v. split; [|reflexivity].
      unfold d. rewrite superPoints_insertAll. exact Hs. }
    congruence. }
  split; [exact H|].
  intros ->.
  assert (E : fst (getTriangulation d) = []).
  { destruct (fst (getTriangulation d)) as [|t l] eqn:E; [reflexivity|].
    destruct (H t (or_introl eq_refl)) as [_ Hv].
    destruct (Hv (pt0 t)). unfold points. left. reflexivity. }
  split; [exact E|]. unfold drawDelaunay. rewrite E. reflexivity.
Qed.
(** ** The face map: cancellation and the size of the cavity *)

Lemma delete_absent (k : Key) (m : FaceMap) :
  MapOps.has k m = false -> MapOps.delete k m = m.
Proof.
  intros H. unfold MapOps.delete. apply filter_all. intros e He.
  destruct (FaceKey.eqb k (fst e)) eqn:E; [|reflexivity].
  exfalso. assert (Ht : MapOps.has k m = true).
  { unfold MapOps.has. apply existsb_exists. exists e. auto. }
  congruence.
Qed.

Lemma delete_app (k : Key) (m1 m2 : FaceMap) :
  MapOps.delete k (m1 ++ m2) = MapOps.delete k m1 ++ MapOps.delete k m2.
Proof. unfold MapOps.delete. apply filter_app. Qed.

(** Deleting a present key from a map without repeated keys removes one
    entry. *)
Lemma delete_length (k : Key) (m : FaceMap) :
  NoDup (map fst m) -> MapOps.has k m = true ->
  S (length (MapOps.delete k m)) = length m.
Proof.
  induction m as [|e m IH]; intros Hnd Hhas; [discriminate Hhas|].
  inversion Hnd as [|? ? Hnot Hnd']; subst.
  unfold MapOps.delete, MapOps.has in *. cbn [filter existsb] in *.
  destruct (FaceKey.eqb k (fst e)) eqn:E; cbn [negb length].
  - apply FaceKey_eqb_eq in E. subst k.
    fold (MapOps.delete (fst e) m). rewrite delete_absent; [reflexivity|].
    destruct (MapOps.has (fst e) m) eqn:E'; [|reflexivity].
    apply has_In in E'. contradiction.
  - cbn [orb] in Hhas. rewrite (IH Hnd' Hhas). reflexivity.
Qed.

(** X10.  Toggling two faces with the same key in a row cancels when the
    key was absent: the map is as before.  When the key was present, its
    entry is removed and the second face is filed at the end. *)
Theorem toggle_twice (m : FaceMap) (f g : Face) :
  sameFace f g = true ->
  (MapOps.has (FaceKey.key f) m = false ->
   toggleFace (toggleFace m f) g = m)
  /\ (MapOps.has (FaceKey.key f) m = true ->
      toggleFace (toggleFace m f) g
      = MapOps.delete (FaceKey.key f) m ++ [(FaceKey.key g, g)]).
Proof.
  intros Hs. apply sameFace_key in Hs. split; intros Hf.
  - destruct (toggle_cases m f) as [[Hf' _] | [_ ->]]; [congruence|].
    destruct (toggle_cases (m ++ [(FaceKey.key f, f)]) g)
      as [[_ ->] | [Hg _]].
    + rewrite <- Hs, delete_app, (delete_absent _ _ Hf).
      unfold MapOps.delete. cbn [filter fst].
      rewrite FaceKey_eqb_refl. cbn [negb]. apply app_nil_r.
    + rewrite <- Hs, has_app in Hg. unfold MapOps.has in Hg at 2.
      cbn [existsb fst] in Hg. rewrite FaceKey_eqb_refl in Hg.
      rewrite orb_true_r in Hg. discriminate Hg.
  - destruct (toggle_cases m f) as [[_ ->] | [Hf' _]]; [|congruence].
    destruct (toggle_cases (MapOps.delete (FaceKey.key f) m) g)
      as [[Hg _] | [_ ->]]; [|reflexivity].
    rewrite <- Hs, has_delete, FaceKey_eqb_refl in Hg.
    rewrite andb_false_r in Hg. discriminate Hg.
Qed.

Lemma toggle_twice_witness :
  let f := mkFace (vertex 0 1 0 0) (vertex 1 0 1 0) (vertex 2 0 0 1) in
  let g := mkFace (vertex 2 0 0 1) (vertex 0 1 0 0) (vertex 1 0 1 0) in
  sameFace f g = true /\ toggleFace (toggleFace [] f) g = [].
Proof.
  intros f g.
  assert (H : sameFace f g = true) by (vm_compute; reflexivity).
  split; [exact H|].
  exact (proj1 (toggle_twice [] f g H) eq_refl).
Defined.

Lemma toggle_length (seen : list Face) (m : FaceMap) (f : Face) :
  NoDup (map fst m) ->
  exists j, (j <= 1)%nat /\
            (length (toggleFace m f) + 2 * j = S (length m))%nat.
Proof.
  intros Hnd. destruct (toggle_cases m f) as [[Hf ->] | [Hf ->]].
  - exists 1%nat. split; [lia|].
    pose proof (delete_length _ _ Hnd Hf). lia.
  - exists 0%nat. split; [lia|]. rewrite length_app. cbn. lia.
Qed.

Lemma fold_toggle_length (fs seen : list Face) (m : FaceMap) :
  NoDup (map fst m) /\
  (forall e, In e m -> fst e = FaceKey.key (snd e) /\ In (snd e) seen) ->
  exists j, (length (fold_left toggleFace fs m) + 2 * j
             = length m + length fs)%nat.
Proof.
  revert seen m. induction fs as [|g fs IH]; intros seen m H.
  - exists 0%nat. cbn. lia.
  - cbn [fold_left length].
    destruct (toggle_length seen m g (proj1 H)) as (j1 & _ & H1).
    apply (toggle_invariant seen m g) in H.
    destruct (IH (g :: seen) _ H) as (j2 & H2).
    exists (j1 + j2)%nat. lia.
Qed.

Lemma length_flat_faces (l : list Tetrahedron) :
  length (flat_map getFaces l) = (4 * length l)%nat.
Proof.
  induction l as [|t l IH]; [reflexivity|].
  cbn [flat_map]. rewrite length_app, IH. cbn [getFaces length]. lia.
Qed.

(** X11.  For every state and point, the number of cavity faces returned by
    [addPoint] is four times the number of removed tetrahedra minus twice
    the number of cancellations: it is even and at most four times the
    number of removed tetrahedra; as many tetrahedra are created. *)
Theorem cavity_size (d : Delaunay3D) (p : Vector3) :
  let r := fst (addPoint d p) in
  (exists j, length (cavityFaces r) + 2 * j = 4 * length (badTetras r))%nat
  /\ Nat.even (length (cavityFaces r)) = true
  /\ (length (cavityFaces r) <= 4 * length (badTetras r))%nat
  /\ length (newTetras r) = length (cavityFaces r).
Proof.
  intros r. subst r. rewrite addPoint_spec.
  cbn [fst cavityFaces badTetras newTetras].
  set (bad := filter (fun t => circumsphereContains t p) (tetrahedra d)).
  rewrite collectFaces_flat. unfold MapOps.values. rewrite !length_map.
  destruct (fold_toggle_length (flat_map getFaces bad) [] [])
    as (j & Hj); [split; [constructor|intros e []]|].
  rewrite length_flat_faces in Hj. cbn [length] in Hj.
  split; [exists j; exact Hj|]. split; [|split; [lia|reflexivity]].
  apply Nat.even_spec. exists (2 * length bad - j)%nat. lia.
Qed.
(** ** The super-tetrahedron *)

Lemma six_spec : ofZ 6 = (1 + 1 + 1) * (1 + 1).
Proof. apply Qc_is_canon. reflexivity. Qed.

Lemma twelve_spec : ofZ 12 = (1 + 1 + 1) * (1 + 1) * (1 + 1).
Proof. apply Qc_is_canon. reflexivity. Qed.

Lemma twentyfive_spec :
  ofZ 25 = (1 + 1 + 1 + 1 + 1) * (1 + 1 + 1 + 1 + 1).
Proof. apply Qc_is_canon. reflexivity. Qed.

(** Side conditions of [field]: numerals that are not zero. *)
Ltac qc_constants_nonzero :=
  repeat match goal with |- _ /\ _ => split end;
  let E := fresh in
  intro E; apply (f_equal this) in E; vm_compute in E; discriminate E.

(** The edge determinant of the super-tetrahedron of scale [s]. *)
Lemma super_edgeDet (s : Qc) :
  edgeDet (mkVec3 (- s) (- s) (- s)) (mkVec3 s (- s) 0)
          (mkVec3 0 s (- s)) (mkVec3 0 (- s) s)
  = - (ofZ 6 * (s * s * s)).
Proof.
  rewrite six_spec.
  unfold edgeDet, Mat.determinant, Mat.set, Vec.sub.
  cbn [vx vy vz te0 te1 te2 te3 te4 te5 te6 te7 te8]. ring.
Qed.

Lemma insertAll_nothing (d : Delaunay3D) (pts : list Vector3) :
  (forall t p, In t (tetrahedra d) -> circumsphereContains t p = false) ->
  insertAll d pts = d.
Proof.
  intros H. induction pts as [|p pts IH]; [reflexivity|].
  cbn [insertAll fold_left]. rewrite addPoint_nothing by (intros; apply H; auto).
  exact IH.
Qed.

(** X12.  In exact arithmetic (the numbers taken as rationals, without
    the rounding of binary64), the super-tetrahedron of scale [s] has the
    edge determinant [-6 s^3].  When [6 |s|^3] is at least [1e-12] its
    circumsphere has the centre [(-s/6, -s/6, -s/6)] and the squared radius
    [25 s^2 / 12].  When it is smaller, the super-tetrahedron is degenerate
    and the triangulation never changes, whatever points are inserted. *)
Theorem super_tetrahedron_sphere (s : Qc) (h : Heap) :
  let d := fst (new_Delaunay3D s h) in
  let det := - (ofZ 6 * (s * s * s)) in
  length (tetrahedra d) = 1%nat
  /\ (tolerance <= Qcabs det ->
      Forall (fun T =>
                circumcenter T
                = Some (mkVec3 (- s / ofZ 6) (- s / ofZ 6) (- s / ofZ 6))
                /\ radiusSq T = Fin (ofZ 25 * (s * s) / ofZ 12))
             (tetrahedra d))
  /\ (Qcabs det < tolerance ->
      Forall (fun T => circumcenter T = None) (tetrahedra d)
      /\ forall pts, insertAll d pts = d).
Proof.
  intros d det.
  assert (Ed : tetrahedra d
               = (new_Tetrahedron
                    (mkVector3 h (mkVec3 (- s) (- s) (- s)))
                    (mkVector3 (S h) (mkVec3 s (- s) 0))
                    (mkVector3 (S (S h)) (mkVec3 0 s (- s)))
                    (mkVector3 (S (S (S h))) (mkVec3 0 (- s) s)) :: nil))
    by reflexivity.
  rewrite Ed. split; [reflexivity|]. split.
  - intros Hdet. apply ltb_false_le in Hdet.
    constructor; [|constructor].
    unfold new_Tetrahedron. cbn [pos].
    assert (Hdet' : ltb (Qcabs (edgeDet (mkVec3 (- s) (- s) (- s))
                                        (mkVec3 s (- s) 0)
                                        (mkVec3 0 s (- s))
                                        (mkVec3 0 (- s) s)))
                        tolerance = false)
      by (rewrite super_edgeDet; exact Hdet).
    rewrite (equidistant_is_circumcenter _ _ _ _
               (mkVec3 (- s / ofZ 6) (- s / ofZ 6) (- s / ofZ 6)) Hdet').
    + cbn [fst snd circumcenter radiusSq]. split; [reflexivity|].
      f_equal. unfold Vec.distanceToSquared. cbn [vx vy vz].
      rewrite six_spec, twelve_spec, twentyfive_spec. field.
      qc_constants_nonzero.
    + unfold Vec.distanceToSquared. cbn [vx vy vz]. rewrite six_spec.
      field. qc_constants_nonzero.
    + unfold Vec.distanceToSquared. cbn [vx vy vz]. rewrite six_spec.
      field. qc_constants_nonzero.
    + unfold Vec.distanceToSquared. cbn [vx vy vz]. rewrite six_spec.
      field. qc_constants_nonzero.
  - intros Hdet. apply ltb_lt in Hdet.
    assert (Hc : circumcenter
                   (new_Tetrahedron
                      (mkVector3 h (mkVec3 (- s) (- s) (- s)))
                      (mkVector3 (S h) (mkVec3 s (- s) 0))
                      (mkVector3 (S (S h)) (mkVec3 0 s (- s)))
                      (mkVector3 (S (S (S h))) (mkVec3 0 (- s) s))) = None).
    { unfold new_Tetrahedron. cbn [pos]. rewrite calc_degenerate;
        [reflexivity|]. rewrite super_edgeDet. exact Hdet. }
    split; [constructor; [exact Hc|constructor]|].
    intros pts. apply insertAll_nothing. rewrite Ed.
    intros t p [<-|[]]. unfold circumsphereContains. rewrite Hc. reflexivity.
Qed.
(** ** getTetraEdges and drawVoronoi: what is drawn *)

Lemma getTetraEdges_from (tetras : list Tetrahedron) (acc : list Qc) :
  fold_left
    (fun positions tetra =>
       let p0 := pos (pt0 tetra) in
       let p1 := pos (pt1 tetra) in
       let p2 := pos (pt2 tetra) in
       let p3 := pos (pt3 tetra) in
       let positions := positions ++ [vx p0; vy p0; vz p0; vx p1; vy p1; vz p1] in
       let positions := positions ++ [vx p0; vy p0; vz p0; vx p2; vy p2; vz p2] in
       let positions := positions ++ [vx p0; vy p0; vz p0; vx p3; vy p3; vz p3] in
       let positions := positions ++ [vx p1; vy p1; vz p1; vx p2; vy p2; vz p2] in
       let positions := positions ++ [vx p1; vy p1; vz p1; vx p3; vy p3; vz p3] in
       positions ++ [vx p2; vy p2; vz p2; vx p3; vy p3; vz p3])
    tetras acc
  = acc ++ segments (flat_map tetraEdges tetras).
Proof.
  revert acc. induction tetras as [|t l IH]; intros acc.
  - cbn. now rewrite app_nil_r.
  - cbn [fold_left flat_map]. rewrite IH. unfold segments.
    rewrite flat_map_app, <- !app_assoc. reflexivity.
Qed.

(** X13.  [getTetraEdges] lists, tetrahedron after tetrahedron, the six
    segments that join every two of its four vertices: 36 numbers per
    tetrahedron, nothing for an empty list, and the list for two lists put
    one after the other is the two lists of numbers put one after the
    other. *)
Theorem getTetraEdges_segments (l1 l2 : list Tetrahedron) :
  getTetraEdges l1 = segments (flat_map tetraEdges l1)
  /\ length (getTetraEdges l1) = (36 * length l1)%nat
  /\ getTetraEdges (l1 ++ l2) = getTetraEdges l1 ++ getTetraEdges l2
  /\ getTetraEdges [] = [].
Proof.
  assert (H : forall l, getTetraEdges l = segments (flat_map tetraEdges l)).
  { intros l. unfold getTetraEdges. now rewrite getTetraEdges_from. }
  split; [apply H|]. split; [|split; [|reflexivity]].
  - rewrite H. induction l1 as [|t l IH]; [reflexivity|].
    cbn [flat_map]. unfold segments in *.
    rewrite flat_map_app, length_app, IH.
    cbn [tetraEdges flat_map app segment length fst snd]. lia.
  - rewrite !H. unfold segments. now rewrite !flat_map_app.
Qed.

Lemma unorderedPairs_length (l : list Tetrahedron) :
  (2 * length (unorderedPairs l) = length l * (length l - 1))%nat.
Proof.
  induction l as [|t l IH]; [reflexivity|].
  cbn [unorderedPairs length]. rewrite length_app, length_map.
  destruct l as [|u l]; [reflexivity|].
  cbn [length] in *. nia.
Qed.

Lemma unorderedPairs_In (l : list Tetrahedron) (pr : Tetrahedron * Tetrahedron) :
  In pr (unorderedPairs l) -> In (fst pr) l /\ In (snd pr) l.
Proof.
  induction l as [|t l IH]; [intros []|].
  cbn [unorderedPairs]. intros H. apply in_app_or in H.
  destruct H as [H | H].
  - apply in_map_iff in H. destruct H as (u & <- & Hu). cbn. auto.
  - destruct (IH H). cbn. auto.
Qed.

Section VoronoiOutput.

Variable normalize : Vec3 -> Vec3.
Variable intersectBox : Ray -> Box3 -> option Vec3.

(** One iteration adds nothing or one segment, which starts at a
    circumcenter that lies in the box. *)
Lemma voronoiStep_adds (ti tj : Tetrahedron) (positions : list Qc) :
  voronoiStep normalize intersectBox ti tj positions = positions
  \/ exists c e,
       voronoiStep normalize intersectBox ti tj positions
       = positions ++ segment c e
       /\ Box3_containsPoint bounds c = true
       /\ (circumcenter ti = Some c \/ circumcenter tj = Some c).
Proof.
  unfold voronoiStep.
  destruct (negb (isAdjacent ti tj)); [left; reflexivity|].
  destruct (circumcenter ti) as [c1|]; [|left; reflexivity].
  destruct (circumcenter tj) as [c2|]; [|left; reflexivity].
  destruct (Box3_containsPoint bounds c1) eqn:I1,
           (Box3_containsPoint bounds c2) eqn:I2; cbn [andb negb].
  - right. exists c1, c2. auto.
  - destruct (intersectBox _ _) as [ip|]; [|left; reflexivity].
    right. exists c1, ip. auto.
  - destruct (intersectBox _ _) as [ip|]; [|left; reflexivity].
    right. exists c2, ip. auto.
  - left. reflexivity.
Qed.

(** X14.  What [drawVoronoi] hands to the geometry is a list of whole
    segments, at most one for every pair of tetrahedra of the final
    triangulation; every segment starts at the circumcenter of one of these
    tetrahedra, and that circumcenter lies in the box.  With fewer than two
    tetrahedra nothing is drawn. *)
Theorem voronoi_segments (d : Delaunay3D) :
  let final := fst (getTriangulation d) in
  exists segs : list (Vec3 * Vec3),
    drawVoronoi normalize intersectBox d = segments segs
    /\ length (drawVoronoi normalize intersectBox d)
       = (6 * length segs)%nat
    /\ (2 * length segs <= length final * (length final - 1))%nat
    /\ Forall (fun s =>
                 Box3_containsPoint bounds (fst s) = true /\
                 exists t, In t final /\ circumcenter t = Some (fst s))
              segs
    /\ ((length final <= 1)%nat ->
        drawVoronoi normalize intersectBox d = []).
Proof.
  intros final. unfold drawVoronoi, voronoiLoops. fold final.
  rewrite voronoiLoops_from.
  assert (H : forall pairs segs0,
             (forall pr, In pr pairs -> In (fst pr) final /\ In (snd pr) final) ->
             exists segs,
               fold_left
                 (fun positions pr =>
                    voronoiStep normalize intersectBox (fst pr) (snd pr)
                                positions)
                 pairs (segments segs0)
               = segments (segs0 ++ segs)
               /\ (length segs <= length pairs)%nat
               /\ Forall (fun s =>
                            Box3_containsPoint bounds (fst s) = true /\
                            exists t, In t final /\
                                      circumcenter t = Some (fst s))
                         segs).
  { induction pairs as [|pr pairs IH]; intros segs0 Hin.
    - exists []. cbn. rewrite app_nil_r. auto.
    - cbn [fold_left].
      assert (Hin' : forall pr', In pr' pairs ->
                                 In (fst pr') final /\ In (snd pr') final)
        by (intros; apply Hin; right; assumption).
      destruct (Hin pr (or_introl eq_refl)) as [Hi Hj].
      destruct (voronoiStep_adds (fst pr) (snd pr) (segments segs0))
        as [-> | (c & e & -> & Hc & Ht)].
      + destruct (IH segs0 Hin') as (segs & E & Hl & Hall).
        exists segs. split; [exact E|]. split; [cbn; lia|exact Hall].
      + assert (E0 : segments segs0 ++ segment c e
                     = segments (segs0 ++ [(c, e)])).
        { unfold segments. rewrite flat_map_app. cbn.
          reflexivity. }
        rewrite E0.
        destruct (IH (segs0 ++ [(c, e)]) Hin') as (segs & E & Hl & Hall).
        exists ((c, e) :: segs). rewrite E, <- app_assoc.
        split; [reflexivity|]. split; [cbn; lia|].
        constructor; [|exact Hall]. cbn [fst]. split; [exact Hc|].
        destruct Ht as [Ht | Ht]; eauto. }
  destruct (H (unorderedPairs final) [] (unorderedPairs_In final))
    as (segs & E & Hl & Hall).
  change (@nil Qc) with (segments []) at 1 2 3.
  exists segs. rewrite E. cbn [app].
  pose proof (unorderedPairs_length final) as Hp.
  split; [reflexivity|]. split; [|split; [lia|split; [exact Hall|]]].
  - clear. induction segs as [|s segs IH]; [reflexivity|].
    unfold segments in *. cbn [flat_map]. rewrite length_app, IH.
    cbn [segment length]. lia.
  - intros Hn. assert (length segs = 0)%nat by nia.
    destruct segs; [reflexivity|discriminate].
Qed.

End VoronoiOutput.
(** ** setupSimulation: where the generated points lie *)

(** One coordinate of a generated position. *)
Lemma coordinate_bounds (r j : Qc) :
  unitInterval r -> unitInterval j ->
  let x := (r - half) * BOX_SIZE + (j - half) * JITTER_AMOUNT in
  - (BOX_SIZE / ofZ 2 + JITTER_AMOUNT / ofZ 2) <= x
  /\ x < BOX_SIZE / ofZ 2 + JITTER_AMOUNT / ofZ 2.
Proof.
  intros [Hr0 Hr1] [Hj0 Hj1] x. subst x.
  unfold Qcle, Qclt in *.
  rewrite this_plus, !this_mult, !this_minus.
  change (this 0) with (0 # 1)%Q in *. change (this 1) with (1 # 1)%Q in *.
  change (this half) with (1 # 2)%Q.
  change (this BOX_SIZE) with (10 # 1)%Q.
  change (this JITTER_AMOUNT) with (1 # 1000000)%Q.
  change (this (- (BOX_SIZE / ofZ 2 + JITTER_AMOUNT / ofZ 2)))
    with (- (10000001 # 2000000))%Q.
  change (this (BOX_SIZE / ofZ 2 + JITTER_AMOUNT / ofZ 2))
    with (10000001 # 2000000)%Q.
  split; lra.
Qed.

(** X15.  With the results of [Math.random()] in [0, 1), every coordinate
    of a generated position is at least [-(BOX_SIZE + JITTER_AMOUNT) / 2]
    and below [(BOX_SIZE + JITTER_AMOUNT) / 2].  The jitter can take the
    position out of the box of [drawVoronoi]: with all six results 0, the
    position is not in [bounds]. *)
Theorem generated_position_bounds (d : Draw) :
  validDraw d ->
  let q := drawPosition d in
  let m := BOX_SIZE / ofZ 2 + JITTER_AMOUNT / ofZ 2 in
  (- m <= vx q /\ vx q < m)
  /\ (- m <= vy q /\ vy q < m)
  /\ (- m <= vz q /\ vz q < m)
  /\ (validDraw (mkDraw 0 0 0 0 0 0) /\
      Box3_containsPoint bounds (drawPosition (mkDraw 0 0 0 0 0 0)) = false).
Proof.
  intros (H1 & H2 & H3 & H4 & H5 & H6) q m.
  split; [exact (coordinate_bounds _ _ H1 H4)|].
  split; [exact (coordinate_bounds _ _ H2 H5)|].
  split; [exact (coordinate_bounds _ _ H3 H6)|].
  split; [|vm_compute; reflexivity].
  unfold validDraw, unitInterval. cbn [r1 r2 r3 j1 j2 j3].
  assert (H0 : (0 : Qc) <= 0 /\ (0 : Qc) < 1).
  { split; [apply Qcle_refl|reflexivity]. }
  tauto.
Qed.

Lemma generated_position_bounds_witness :
  let d := mkDraw (Q2Qc (3 # 4)) half (Q2Qc (1 # 4)) half 0 (Q2Qc (9 # 10)) in
  validDraw d /\
  - (BOX_SIZE / ofZ 2 + JITTER_AMOUNT / ofZ 2) <= vx (drawPosition d).
Proof.
  intros d.
  assert (H : validDraw d).
  { unfold validDraw, unitInterval, d. cbn [r1 r2 r3 j1 j2 j3].
    assert (forall a b : Qc, leb a b = true -> a <= b) by apply leb_le.
    assert (forall a b : Qc, ltb a b = true -> a < b) by apply ltb_lt.
    split; [split; auto|]. split; [split; auto|]. split; [split; auto|].
    split; [split; auto|]. split; [split; auto|]. split; auto. }
  split; [exact H|].
  exact (proj1 (proj1 (generated_position_bounds d H))).
Defined.

(** A generated position is the position of no super-tetrahedron point of
    the triangulation of [setupSimulation]: the second coordinate of each of
    these is 20 or -20. *)
Lemma generated_not_super (d : Draw) (h : Heap) (sp : Vector3) :
  validDraw d ->
  In sp (superPoints (fst (new_Delaunay3D (BOX_SIZE * ofZ 2) h))) ->
  pos sp <> drawPosition d.
Proof.
  intros (_ & H2 & _ & _ & H5 & _) Hsp E.
  pose proof (coordinate_bounds _ _ H2 H5) as [Hlo Hhi].
  change ((r2 d - half) * BOX_SIZE + (j2 d - half) * JITTER_AMOUNT)
    with (vy (drawPosition d)) in Hlo, Hhi.
  rewrite <- E in Hlo, Hhi.
  unfold new_Delaunay3D, new_Vector3 in Hsp. cbn [fst superPoints] in Hsp.
  destruct Hsp as [<-|[<-|[<-|[<-|[]]]]]; cbn [pos vy] in Hlo, Hhi.
  - apply Hlo. vm_compute. reflexivity.
  - apply Hlo. vm_compute. reflexivity.
  - vm_compute in Hhi. discriminate Hhi.
  - apply Hlo. vm_compute. reflexivity.
Qed.
(** ** setupSimulation, doNextStep, runAllSteps *)

Lemma numbered_shift (draws : list Draw) (h a : nat) :
  map (fun k => mkVector3 (S h + fst k) (drawPosition (snd k)))
      (combine (seq a (length draws)) draws)
  = map (fun k => mkVector3 (h + fst k) (drawPosition (snd k)))
        (combine (seq (S a) (length draws)) draws).
Proof.
  revert a. induction draws as [|d draws IH]; intros a; [reflexivity|].
  cbn [length seq combine map fst snd]. rewrite IH. f_equal. f_equal. lia.
Qed.

Lemma generatePoints_from (draws : list Draw) (h : Heap)
    (pts : list Vector3) :
  fold_left
    (fun acc d =>
       let p := drawPosition d in
       let '(v, h') := new_Vector3 (vx p) (vy p) (vz p) (snd acc) in
       (fst acc ++ [v], h'))
    draws (pts, h)
  = (pts ++ map (fun k => mkVector3 (h + fst k) (drawPosition (snd k)))
              (combine (seq 0 (length draws)) draws),
     h + length draws)%nat.
Proof.
  revert h pts. induction draws as [|d draws IH]; intros h pts.
  - cbn. rewrite app_nil_r, Nat.add_0_r. reflexivity.
  - cbn [fold_left length seq combine map].
    match goal with
    | |- fold_left _ draws ?a = _ =>
        assert (Ea : a = (pts ++ [mkVector3 h (drawPosition d)], S h))
    end.
    { unfold new_Vector3. cbn [fst snd].
      destruct (drawPosition d). reflexivity. }
    rewrite Ea, IH, <- app_assoc, numbered_shift. cbn [app fst snd].
    rewrite Nat.add_0_r, Nat.add_succ_r. reflexivity.
Qed.

Lemma combine_map_fst {A B : Type} (l1 : list A) (l2 : list B) :
  length l1 = length l2 -> map fst (combine l1 l2) = l1.
Proof.
  revert l2. induction l1 as [|a l1 IH]; intros [|b l2] H;
    try discriminate H; [reflexivity|].
  cbn. f_equal. apply IH. now injection H.
Qed.

Lemma combine_map_snd {A B : Type} (l1 : list A) (l2 : list B) :
  length l1 = length l2 -> map snd (combine l1 l2) = l2.
Proof.
  revert l2. induction l1 as [|a l1 IH]; intros [|b l2] H;
    try discriminate H; [reflexivity|].
  cbn. f_equal. apply IH. now injection H.
Qed.

(** The points made by [setupSimulation]: one object per draw, with the
    identities [h], [h + 1], ... in order. *)
Lemma generatePoints_spec (draws : list Draw) (h : Heap) :
  map oid (fst (generatePoints draws h)) = seq h (length draws)
  /\ map pos (fst (generatePoints draws h)) = map drawPosition draws
  /\ snd (generatePoints draws h) = (h + length draws)%nat.
Proof.
  unfold generatePoints. rewrite generatePoints_from. cbn [fst snd app].
  rewrite !map_map. cbn [oid pos].
  split; [|split; [|reflexivity]].
  - rewrite <- (map_map fst (fun k => (h + k)%nat)).
    rewrite combine_map_fst by apply length_seq.
    assert (H : forall a n, map (fun k => (h + k)%nat) (seq a n)
                            = seq (h + a) n).
    { intros a n. revert a. induction n as [|n IH]; intros a;
        [reflexivity|].
      cbn [seq map]. rewrite IH, Nat.add_succ_r. reflexivity. }
    rewrite H, Nat.add_0_r. reflexivity.
  - rewrite <- (map_map snd drawPosition).
    rewrite combine_map_snd by apply length_seq. reflexivity.
Qed.

Lemma firstn_succ_nth {A : Type} (l : list A) (j : nat) (x : A) :
  nth_error l j = Some x -> firstn (S j) l = firstn j l ++ [x].
Proof.
  revert j. induction l as [|a l IH]; intros [|j] H; try discriminate H.
  - injection H as ->. reflexivity.
  - cbn [firstn app]. f_equal. apply IH. exact H.
Qed.

Section StepsProperties.

Variable normalize : Vec3 -> Vec3.
Variable intersectBox : Ray -> Box3 -> option Vec3.

Abbreviation step := (Simulation.doNextStep normalize intersectBox).

(** The two branches of [doNextStep]. *)
Lemma doNextStep_complete (s : Simulation.State) :
  (length (Simulation.points s) <= Simulation.pointIndex s)%nat ->
  step s
  = Simulation.mkState
      (Simulation.points s) (Simulation.pointIndex s) (Simulation.delaunay s)
      (Some (drawVoronoi normalize intersectBox (Simulation.delaunay s)))
      false true true Simulation.Complete.
Proof.
  intros H. unfold Simulation.doNextStep.
  apply Nat.leb_le in H. rewrite H. reflexivity.
Qed.

Lemma doNextStep_insert (s : Simulation.State) :
  (Simulation.pointIndex s < length (Simulation.points s))%nat ->
  exists point,
    nth_error (Simulation.points s) (Simulation.pointIndex s) = Some point
    /\ step s
       = Simulation.mkState
           (Simulation.points s) (S (Simulation.pointIndex s))
           (snd (addPoint (Simulation.delaunay s) point))
           None
           (Simulation.delaunayEdgesVisible s)
           (Simulation.nextBtnDisabled s)
           (Simulation.runAllBtnDisabled s)
           (Simulation.Adding
              (S (Simulation.pointIndex s))
              (length (Simulation.points s))
              (length (badTetras
                         (fst (addPoint (Simulation.delaunay s) point))))
              (length (cavityFaces
                         (fst (addPoint (Simulation.delaunay s) point))))
              (length (newTetras
                         (fst (addPoint (Simulation.delaunay s) point))))).
Proof.
  intros H. unfold Simulation.doNextStep.
  assert (Hl : Nat.leb (length (Simulation.points s))
                       (Simulation.pointIndex s) = false)
    by (apply Nat.leb_gt; exact H).
  rewrite Hl.
  destruct (nth_error (Simulation.points s) (Simulation.pointIndex s))
    as [point|] eqn:E.
  - exists point. split; [reflexivity|].
    destruct (addPoint (Simulation.delaunay s) point). reflexivity.
  - apply nth_error_None in E. lia.
Qed.

(** A complete state is a fixed point of [doNextStep]. *)
Lemma complete_fixed (s : Simulation.State) :
  (length (Simulation.points s) <= Simulation.pointIndex s)%nat ->
  Simulation.stepInfo s = Simulation.Complete ->
  Simulation.nextBtnDisabled s = true ->
  Simulation.runAllBtnDisabled s = true ->
  Simulation.delaunayEdgesVisible s = false ->
  Simulation.voronoiEdges s
  = Some (drawVoronoi normalize intersectBox (Simulation.delaunay s)) ->
  step s = s.
Proof.
  intros H. rewrite (doNextStep_complete s H). destruct s.
  cbn [Simulation.points Simulation.pointIndex Simulation.delaunay
       Simulation.delaunayEdgesVisible Simulation.nextBtnDisabled
       Simulation.runAllBtnDisabled Simulation.voronoiEdges
       Simulation.stepInfo].
  intros -> -> -> -> ->. reflexivity.
Qed.

(** Any number of calls of [doNextStep]. *)
Lemma steps_general (d0 : Delaunay3D) (s : Simulation.State) (k : nat) :
  (Simulation.pointIndex s <= length (Simulation.points s))%nat ->
  Simulation.delaunay s
  = insertAll d0 (firstn (Simulation.pointIndex s) (Simulation.points s)) ->
  let s' := Nat.iter k step s in
  let n := length (Simulation.points s) in
  let i := Simulation.pointIndex s in
  Simulation.points s' = Simulation.points s
  /\ Simulation.pointIndex s' = Nat.min (i + k) n
  /\ Simulation.delaunay s'
     = insertAll d0 (firstn (Nat.min (i + k) n) (Simulation.points s))
  /\ ((i + k <= n)%nat ->
      Simulation.delaunayEdgesVisible s' = Simulation.delaunayEdgesVisible s
      /\ Simulation.nextBtnDisabled s' = Simulation.nextBtnDisabled s
      /\ Simulation.runAllBtnDisabled s' = Simulation.runAllBtnDisabled s
      /\ ((0 < k)%nat ->
          Simulation.voronoiEdges s' = None /\
          exists b c t,
            Simulation.stepInfo s' = Simulation.Adding (i + k) n b c t))
  /\ ((n < i + k)%nat ->
      Simulation.stepInfo s' = Simulation.Complete
      /\ Simulation.nextBtnDisabled s' = true
      /\ Simulation.runAllBtnDisabled s' = true
      /\ Simulation.delaunayEdgesVisible s' = false
      /\ Simulation.voronoiEdges s'
         = Some (drawVoronoi normalize intersectBox
                             (insertAll d0 (Simulation.points s)))).
Proof.
  intros Hi Hd s' n i. subst s'.
  induction k as [|k IH].
  - cbn [Nat.iter nat_rect]. rewrite Nat.add_0_r.
    fold i. fold n. rewrite (Nat.min_l i n) by exact Hi.
    split; [reflexivity|]. split; [reflexivity|]. split; [exact Hd|].
    split; [|intros H; unfold i, n in *; lia].
    intros _. split; [reflexivity|]. split; [reflexivity|].
    split; [reflexivity|]. intros H. lia.
  - change (Nat.iter (S k) step s) with (step (Nat.iter k step s)).
    set (sk := Nat.iter k step s) in *.
    destruct IH as (Hp & Hx & Hdk & Hlow & Hhigh).
    destruct (Nat.le_gt_cases n (i + k)) as [Hge | Hlt].
    + (* all points are in: the call reports completion *)
      rewrite doNextStep_complete
        by (rewrite Hp, Hx; fold n; lia).
      cbn [Simulation.points Simulation.pointIndex Simulation.delaunay
           Simulation.delaunayEdgesVisible Simulation.nextBtnDisabled
           Simulation.runAllBtnDisabled Simulation.voronoiEdges
           Simulation.stepInfo].
      rewrite Hx, Hdk, Hp.
      replace (Nat.min (i + k) n) with n by lia.
      replace (Nat.min (i + S k) n) with n by lia.
      split; [reflexivity|]. split; [reflexivity|]. split; [reflexivity|].
      split; [intros H; lia|]. intros _.
      unfold n. rewrite firstn_all. auto 6.
    + (* one more point *)
      destruct (doNextStep_insert sk) as (point & Hnth & ->);
        [rewrite Hp, Hx; fold n; lia|].
      cbn [Simulation.points Simulation.pointIndex Simulation.delaunay
           Simulation.delaunayEdgesVisible Simulation.nextBtnDisabled
           Simulation.runAllBtnDisabled Simulation.voronoiEdges
           Simulation.stepInfo].
      rewrite Hp, Hx in Hnth. rewrite Hx, Hp, Hdk.
      replace (Nat.min (i + k) n) with (i + k)%nat in * by lia.
      replace (Nat.min (i + S k) n) with (S (i + k)) by lia.
      destruct (Hlow (Nat.lt_le_incl _ _ Hlt)) as (Hv & Hn & Hr & _).
      split; [reflexivity|]. split; [reflexivity|].
      split.
      { rewrite (firstn_succ_nth _ _ _ Hnth), insertAll_last. reflexivity. }
      split; [|intros H; lia].
      intros _. split; [exact Hv|]. split; [exact Hn|]. split; [exact Hr|].
      intros _. split; [reflexivity|].
      rewrite Nat.add_succ_r. fold n. eauto.
Qed.

End StepsProperties.

(** The state that [setupSimulation] leaves. *)
Lemma setupSimulation_spec (visible : bool) (draws : list Draw) (h : Heap) :
  fst (Simulation.setupSimulation visible draws h)
  = Simulation.mkState
      (fst (generatePoints draws h)) 0
      (fst (new_Delaunay3D (BOX_SIZE * ofZ 2) (h + length draws)))
      None visible false false (Simulation.Initialized (length draws))
  /\ snd (Simulation.setupSimulation visible draws h)
     = (h + length draws + 4)%nat.
Proof.
  unfold Simulation.setupSimulation.
  destruct (generatePoints_spec draws h) as (_ & _ & Hh).
  destruct (generatePoints draws h) as [pts h1]. cbn [fst snd] in *.
  subst h1. unfold new_Delaunay3D, new_Vector3. cbn [fst snd].
  split; [reflexivity|]. lia.
Qed.

(** Agreement of the two readings of the final query. *)
Lemma byValue_of_identityIsValue (d : Delaunay3D) :
  identityIsValue d -> fst (getTriangulation d) = triangulationByValue d.
Proof.
  intros Hid. unfold getTriangulation, triangulationByValue. cbn [fst].
  apply filter_ext_in. intros t Ht. f_equal.
  apply existsb_ext_in. intros p Hp.
  destruct (Hid t p Ht Hp) as [H1 H2].
  destruct (includes (superPoints d) p) eqn:E1,
           (existsb (fun sp => Vec.equals (pos sp) (pos p))
                    (superPoints d)) eqn:E2; try reflexivity.
  - apply includes_spec, H1 in E1. destruct E1 as (sp & Hsp & E).
    assert (Ht' : existsb (fun sp => Vec.equals (pos sp) (pos p))
                          (superPoints d) = true).
    { apply existsb_exists. exists sp. split; [exact Hsp|].
      apply equals_eq. exact E. }
    congruence.
  - apply existsb_exists in E2. destruct E2 as (sp & Hsp & E).
    apply equals_eq in E.
    assert (Ht' : includes (superPoints d) p = true).
    { apply includes_spec, H2. exists sp. auto. }
    congruence.
Qed.

(** The points generated from valid draws are foreign to the
    super-tetrahedron made after them. *)
Lemma generated_points_foreign (draws : list Draw) (h : Heap) :
  Forall validDraw draws ->
  Forall (foreignPoint
            (fst (new_Delaunay3D (BOX_SIZE * ofZ 2) (h + length draws))))
         (fst (generatePoints draws h)).
Proof.
  intros Hv. destruct (generatePoints_spec draws h) as (Ho & Hp & _).
  apply Forall_forall. intros p Hin sp Hsp.
  assert (Hoid : (h <= oid p < h + length draws)%nat).
  { assert (H : In (oid p) (seq h (length draws)))
      by (rewrite <- Ho; now apply in_map).
    apply in_seq in H. exact H. }
  assert (Hpos : exists d, In d draws /\ pos p = drawPosition d).
  { assert (H : In (pos p) (map drawPosition draws))
      by (rewrite <- Hp; now apply in_map).
    apply in_map_iff in H. destruct H as (d & E & Hd). eauto. }
  destruct Hpos as (d & Hd & Epos).
  rewrite Forall_forall in Hv. split.
  - unfold new_Delaunay3D, new_Vector3 in Hsp.
    cbn [fst superPoints] in Hsp.
    destruct Hsp as [<-|[<-|[<-|[<-|[]]]]]; cbn [oid]; lia.
  - rewrite Epos. exact (generated_not_super d _ sp (Hv d Hd) Hsp).
Qed.

Section SimulationProperties.

Variable normalize : Vec3 -> Vec3.
Variable intersectBox : Ray -> Box3 -> option Vec3.

Abbreviation step := (Simulation.doNextStep normalize intersectBox).

(** The fields of the state after [setupSimulation]. *)
Lemma setupSimulation_facts (visible : bool) (draws : list Draw)
    (h : Heap) :
  let s := fst (Simulation.setupSimulation visible draws h) in
  let n := length draws in
  length (Simulation.points s) = n
  /\ map oid (Simulation.points s) = seq h n
  /\ map pos (Simulation.points s) = map drawPosition draws
  /\ NoDup (map oid (Simulation.points s))
  /\ map oid (superPoints (Simulation.delaunay s))
     = seq (h + n) 4
  /\ Simulation.pointIndex s = 0%nat
  /\ length (tetrahedra (Simulation.delaunay s)) = 1%nat
  /\ drawDelaunay (Simulation.delaunay s) = []
  /\ Simulation.voronoiEdges s = None
  /\ Simulation.nextBtnDisabled s = false
  /\ Simulation.runAllBtnDisabled s = false
  /\ Simulation.delaunayEdgesVisible s = visible
  /\ Simulation.stepInfo s = Simulation.Initialized n.
Proof.
  intros s n. subst s.
  rewrite (proj1 (setupSimulation_spec visible draws h)).
  cbn [Simulation.points Simulation.pointIndex Simulation.delaunay
       Simulation.delaunayEdgesVisible Simulation.nextBtnDisabled
       Simulation.runAllBtnDisabled Simulation.voronoiEdges
       Simulation.stepInfo].
  destruct (generatePoints_spec draws h) as (Ho & Hp & _).
  assert (Hlen : length (fst (generatePoints draws h)) = n).
  { rewrite <- (length_map oid), Ho. apply length_seq. }
  split; [exact Hlen|]. split; [exact Ho|]. split; [exact Hp|].
  split; [rewrite Ho; apply seq_NoDup|].
  split; [reflexivity|]. split; [reflexivity|]. split; [reflexivity|].
  split; [|auto 6].
  unfold drawDelaunay, getTriangulation, new_Delaunay3D, new_Vector3.
  cbn [fst tetrahedra superPoints app filter points new_Tetrahedron pt0
       pt1 pt2 pt3 existsb includes oid].
  rewrite Nat.eqb_refl. reflexivity.
Qed.

(** The state after [k] calls of [doNextStep] that follow
    [setupSimulation]. *)
Lemma progress_facts (visible : bool) (draws : list Draw) (h : Heap)
    (k : nat) :
  let s0 := fst (Simulation.setupSimulation visible draws h) in
  let s := Nat.iter k step s0 in
  let n := length draws in
  let pts := Simulation.points s0 in
  Simulation.points s = pts
  /\ Simulation.pointIndex s = Nat.min k n
  /\ Simulation.delaunay s
     = insertAll (Simulation.delaunay s0) (firstn k pts)
  /\ ((k <= n)%nat ->
      Simulation.nextBtnDisabled s = false
      /\ Simulation.runAllBtnDisabled s = false
      /\ Simulation.delaunayEdgesVisible s = visible
      /\ Simulation.voronoiEdges s = None)
  /\ ((n < k)%nat ->
      Simulation.stepInfo s = Simulation.Complete
      /\ Simulation.nextBtnDisabled s = true
      /\ Simulation.runAllBtnDisabled s = true
      /\ Simulation.delaunayEdgesVisible s = false
      /\ Simulation.delaunay s = insertAll (Simulation.delaunay s0) pts
      /\ Simulation.voronoiEdges s
         = Some (drawVoronoi normalize intersectBox
                             (insertAll (Simulation.delaunay s0) pts))).
Proof.
  intros s0 s n pts.
  destruct (setupSimulation_facts visible draws h)
    as (Hlen & _ & _ & _ & _ & Hi & _ & _ & Hvor & Hnb & Hrb & Hvis & _).
  fold s0 in Hlen, Hi, Hvor, Hnb, Hrb, Hvis.
  destruct (steps_general normalize intersectBox (Simulation.delaunay s0)
                          s0 k)
    as (Hp & Hx & Hd & Hlow & Hhigh).
  { rewrite Hi. lia. }
  { rewrite Hi. reflexivity. }
  fold s in Hp, Hx, Hd, Hlow, Hhigh. rewrite Hi, Hlen in *.
  cbn [Nat.add] in *. fold n in Hx, Hd, Hlow, Hhigh. fold pts in Hd, Hhigh.
  assert (Efirst : firstn (Nat.min k n) pts = firstn k pts).
  { destruct (Nat.le_gt_cases k n) as [H|H].
    - rewrite Nat.min_l by exact H. reflexivity.
    - rewrite Nat.min_r by lia.
      rewrite !firstn_all2; [reflexivity| |]; unfold pts; rewrite Hlen; lia. }
  split; [exact Hp|]. split; [exact Hx|].
  split; [rewrite Hd, Efirst; reflexivity|]. split.
  - intros Hk. destruct (Hlow Hk) as (H1 & H2 & H3 & H4).
    rewrite H1, H2, H3, Hvis, Hnb, Hrb.
    split; [reflexivity|]. split; [reflexivity|]. split; [reflexivity|].
    destruct k as [|k]; [exact Hvor|]. apply H4. lia.
  - intros Hk. destruct (Hhigh Hk) as (H1 & H2 & H3 & H4 & H5).
    split; [exact H1|]. split; [exact H2|]. split; [exact H3|].
    split; [exact H4|]. split; [|exact H5].
    rewrite Hd, Nat.min_r by lia.
    rewrite firstn_all2; [reflexivity|]. unfold pts. rewrite Hlen. lia.
Qed.

(** X16.  [setupSimulation] makes one point object per draw, with
    identities that differ from one another and from those of the four
    super-tetrahedron points, resets the index, and leaves a triangulation
    with the super-tetrahedron alone, of which [drawDelaunay] draws nothing;
    the buttons are enabled, the Voronoi group is empty, and the visibility
    of the Delaunay edges is as it was found. *)
Theorem setupSimulation_state (visible : bool) (draws : list Draw)
    (h : Heap) :
  let s := fst (Simulation.setupSimulation visible draws h) in
  let n := length draws in
  length (Simulation.points s) = n
  /\ map oid (Simulation.points s) = seq h n
  /\ map pos (Simulation.points s) = map drawPosition draws
  /\ NoDup (map oid (Simulation.points s))
  /\ map oid (superPoints (Simulation.delaunay s))
     = seq (h + n) 4
  /\ Simulation.pointIndex s = 0%nat
  /\ length (tetrahedra (Simulation.delaunay s)) = 1%nat
  /\ drawDelaunay (Simulation.delaunay s) = []
  /\ Simulation.voronoiEdges s = None
  /\ Simulation.nextBtnDisabled s = false
  /\ Simulation.runAllBtnDisabled s = false
  /\ Simulation.delaunayEdgesVisible s = visible
  /\ Simulation.stepInfo s = Simulation.Initialized n.
Proof. exact (setupSimulation_facts visible draws h). Qed.

(** X17.  After [k] calls of [doNextStep] that follow [setupSimulation],
    the first [min k n] of the [n] points have been inserted, in order and
    once each, and the index is [min k n].  Up to the [n]-th call the
    buttons and the visibility flag are untouched and the Voronoi group is
    empty.  From the call after the [n]-th on, the state is final: both
    buttons disabled, the Delaunay edges hidden, and the Voronoi group holds
    what [drawVoronoi] draws for the triangulation of all points. *)
Theorem doNextStep_progress (visible : bool) (draws : list Draw) (h : Heap)
    (k : nat) :
  let s0 := fst (Simulation.setupSimulation visible draws h) in
  let s := Nat.iter k step s0 in
  let n := length draws in
  let pts := Simulation.points s0 in
  Simulation.points s = pts
  /\ Simulation.pointIndex s = Nat.min k n
  /\ Simulation.delaunay s
     = insertAll (Simulation.delaunay s0) (firstn k pts)
  /\ ((k <= n)%nat ->
      Simulation.nextBtnDisabled s = false
      /\ Simulation.runAllBtnDisabled s = false
      /\ Simulation.delaunayEdgesVisible s = visible
      /\ Simulation.voronoiEdges s = None)
  /\ ((n < k)%nat ->
      Simulation.stepInfo s = Simulation.Complete
      /\ Simulation.nextBtnDisabled s = true
      /\ Simulation.runAllBtnDisabled s = true
      /\ Simulation.delaunayEdgesVisible s = false
      /\ Simulation.delaunay s = insertAll (Simulation.delaunay s0) pts
      /\ Simulation.voronoiEdges s
         = Some (drawVoronoi normalize intersectBox
                             (insertAll (Simulation.delaunay s0) pts))).
Proof. exact (progress_facts visible draws h k). Qed.

(** X18.  [runAllSteps] disables the two buttons at once and for good;
    when the timer has fired [ticks] times, [doNextStep] has run
    [ticks + 1] times; from the [n]-th firing on, all [n] points are in and
    the Voronoi edges are drawn.  Nothing stops the timer: further firings
    leave this state as it is. *)
Theorem runAllSteps_progress (visible : bool) (draws : list Draw) (h : Heap)
    (ticks : nat) :
  let s0 := fst (Simulation.setupSimulation visible draws h) in
  let s := Simulation.runAllSteps normalize intersectBox ticks s0 in
  let n := length draws in
  let pts := Simulation.points s0 in
  Simulation.nextBtnDisabled s = true
  /\ Simulation.runAllBtnDisabled s = true
  /\ Simulation.pointIndex s = Nat.min (S ticks) n
  /\ Simulation.delaunay s
     = insertAll (Simulation.delaunay s0) (firstn (S ticks) pts)
  /\ ((n <= ticks)%nat ->
      Simulation.stepInfo s = Simulation.Complete
      /\ Simulation.delaunayEdgesVisible s = false
      /\ Simulation.delaunay s = insertAll (Simulation.delaunay s0) pts
      /\ Simulation.voronoiEdges s
         = Some (drawVoronoi normalize intersectBox
                             (insertAll (Simulation.delaunay s0) pts))
      /\ Simulation.runAllSteps normalize intersectBox (S ticks) s0 = s).
Proof.
  intros s0 s n pts.
  destruct (setupSimulation_facts visible draws h)
    as (Hlen & _ & _ & _ & _ & Hi & _).
  fold s0 in Hlen, Hi.
  set (s1 := Simulation.mkState
               (Simulation.points s0) (Simulation.pointIndex s0)
               (Simulation.delaunay s0) (Simulation.voronoiEdges s0)
               (Simulation.delaunayEdgesVisible s0) true true
               (Simulation.stepInfo s0)).
  assert (Hrun : forall m, Simulation.runAllSteps normalize intersectBox m s0
                           = Nat.iter (S m) step s1) by reflexivity.
  unfold s. rewrite Hrun.
  destruct (steps_general normalize intersectBox (Simulation.delaunay s0)
                          s1 (S ticks))
    as (Hp & Hx & Hd & Hlow & Hhigh).
  { cbn [s1 Simulation.pointIndex Simulation.points]. rewrite Hi. lia. }
  { cbn [s1 Simulation.pointIndex Simulation.points Simulation.delaunay].
    rewrite Hi. reflexivity. }
  cbn [s1 Simulation.pointIndex Simulation.points Simulation.delaunay
       Simulation.delaunayEdgesVisible Simulation.nextBtnDisabled
       Simulation.runAllBtnDisabled] in Hp, Hx, Hd, Hlow, Hhigh.
  rewrite Hi, Hlen in *. fold pts in Hd, Hhigh.
  change (0 + S ticks)%nat with (S ticks) in *.
  assert (Efirst : firstn (Nat.min (S ticks) (length draws)) pts
                   = firstn (S ticks) pts).
  { destruct (Nat.le_gt_cases (S ticks) (length draws)) as [H|H].
    - rewrite Nat.min_l by exact H. reflexivity.
    - rewrite Nat.min_r by lia.
      rewrite !firstn_all2; [reflexivity| |]; unfold pts; rewrite Hlen; lia. }
  assert (Hflags : Simulation.nextBtnDisabled (Nat.iter (S ticks) step s1)
                   = true
                   /\ Simulation.runAllBtnDisabled
                        (Nat.iter (S ticks) step s1) = true).
  { destruct (Nat.le_gt_cases (S ticks) (length draws)) as [H|H].
    - destruct (Hlow H) as (_ & H2 & H3 & _). auto.
    - destruct (Hhigh H) as (_ & H2 & H3 & _). auto. }
  split; [exact (proj1 Hflags)|]. split; [exact (proj2 Hflags)|].
  split; [exact Hx|]. split; [rewrite Hd, Efirst; reflexivity|].
  intros Hn. fold n in Hn.
  destruct Hhigh as (H1 & _ & _ & H4 & H5); [unfold n in Hn; lia|].
  assert (Hall : Simulation.delaunay (Nat.iter (S ticks) step s1)
                 = insertAll (Simulation.delaunay s0) pts).
  { rewrite Hd, Nat.min_r by (unfold n in Hn; lia).
    rewrite firstn_all2; [reflexivity|]. unfold pts. rewrite Hlen. lia. }
  split; [exact H1|]. split; [exact H4|]. split; [exact Hall|].
  split; [exact H5|].
  rewrite Hrun.
  change (Nat.iter (S (S ticks)) step s1)
    with (step (Nat.iter (S ticks) step s1)).
  set (sk := Nat.iter (S ticks) step s1) in *.
  apply complete_fixed.
  - rewrite Hp, Hx, Hlen. unfold n in Hn. lia.
  - exact H1.
  - exact (proj1 Hflags).
  - exact (proj2 Hflags).
  - exact H4.
  - rewrite Hall. exact H5.
Qed.

(** X19.  Once a run is complete the Delaunay edges are hidden, and neither
    [setupSimulation] nor [doNextStep] shows them again: after a restart
    they stay hidden through the whole next run. *)
Theorem delaunay_edges_stay_hidden (visible : bool) (draws draws' : list Draw)
    (h h' : Heap) (j k' : nat) :
  let s := Nat.iter (S (length draws + j)) step
                    (fst (Simulation.setupSimulation visible draws h)) in
  let s' := Nat.iter k' step
              (fst (Simulation.setupSimulation
                      (Simulation.delaunayEdgesVisible s) draws' h')) in
  Simulation.delaunayEdgesVisible s = false
  /\ Simulation.delaunayEdgesVisible s' = false.
Proof.
  intros s s'.
  assert (Hs : Simulation.delaunayEdgesVisible s = false).
  { destruct (progress_facts visible draws h (S (length draws + j)))
      as (_ & _ & _ & _ & Hhigh).
    destruct Hhigh as (_ & _ & _ & H & _); [lia|exact H]. }
  split; [exact Hs|]. unfold s'. rewrite Hs.
  destruct (progress_facts false draws' h' k') as (_ & _ & _ & Hlow & Hhigh).
  destruct (Nat.le_gt_cases k' (length draws')) as [H|H].
  - destruct (Hlow H) as (_ & _ & Hv & _). exact Hv.
  - destruct (Hhigh H) as (_ & _ & _ & Hv & _). exact Hv.
Qed.

(** X20.  In the simulation, with the results of [Math.random()] in
    [0, 1), no generated point is a super-tetrahedron point, by identity or
    by coordinates; so at every step the final query returns exactly the
    live tetrahedra none of whose vertices has the coordinates of a
    super-tetrahedron point. *)
Theorem simulation_query_by_value (visible : bool) (draws : list Draw)
    (h : Heap) (k : nat) :
  Forall validDraw draws ->
  let s0 := fst (Simulation.setupSimulation visible draws h) in
  let s := Nat.iter k step s0 in
  Forall (foreignPoint (Simulation.delaunay s0)) (Simulation.points s0)
  /\ identityIsValue (Simulation.delaunay s)
  /\ fst (getTriangulation (Simulation.delaunay s))
     = triangulationByValue (Simulation.delaunay s).
Proof.
  intros Hv s0 s.
  destruct (progress_facts visible draws h k) as (_ & _ & Hd & _).
  fold s0 in Hd. fold s in Hd.
  assert (E0 : s0 = Simulation.mkState
                      (fst (generatePoints draws h)) 0
                      (fst (new_Delaunay3D (BOX_SIZE * ofZ 2)
                                           (h + length draws)))
                      None visible false false
                      (Simulation.Initialized (length draws)))
    by exact (proj1 (setupSimulation_spec visible draws h)).
  assert (Hf : Forall (foreignPoint (Simulation.delaunay s0))
                      (Simulation.points s0)).
  { rewrite E0. cbn [Simulation.delaunay Simulation.points].
    apply generated_points_foreign. exact Hv. }
  assert (Hid : identityIsValue (Simulation.delaunay s)).
  { rewrite Hd. rewrite E0 in Hf |- *.
    cbn [Simulation.delaunay Simulation.points] in Hf |- *.
    apply identityIsValue_insertAll.
    rewrite Forall_forall in Hf |- *. intros p Hp. apply Hf.
    rewrite <- (firstn_skipn k). apply in_or_app. left. exact Hp. }
  split; [exact Hf|]. split; [exact Hid|].
  apply byValue_of_identityIsValue. exact Hid.
Qed.

End SimulationProperties.

Lemma simulation_query_by_value_witness :
  let draws := [mkDraw (Q2Qc (3 # 4)) half (Q2Qc (1 # 4)) half 0
                       (Q2Qc (9 # 10))]%list in
  let s := Nat.iter 1 (Simulation.doNextStep (fun v => v) (fun _ _ => None))
                    (fst (Simulation.setupSimulation true draws 0)) in
  Forall validDraw draws /\
  fst (getTriangulation (Simulation.delaunay s))
  = triangulationByValue (Simulation.delaunay s).
Proof.
  intros draws s.
  assert (H : Forall validDraw draws).
  { constructor; [|constructor].
    unfold validDraw, unitInterval. cbn [r1 r2 r3 j1 j2 j3].
    assert (forall a b : Qc, leb a b = true -> a <= b) by apply leb_le.
    assert (forall a b : Qc, ltb a b = true -> a < b) by apply ltb_lt.
    split; [split; auto|]. split; [split; auto|]. split; [split; auto|].
    split; [split; auto|]. split; [split; auto|]. split; auto. }
  split; [exact H|].
  exact (proj2 (proj2 (simulation_query_by_value
                         (fun v => v) (fun _ _ => None) true draws 0 1 H))).
Defined.
(** ** The faces of the live tetrahedra, counted modulo 2 *)

(** The six ways in which a list of three elements is a permutation of
    another. *)
Lemma perm3_cases {A : Type} (a b c a' b' c' : A) :
  Permutation [a; b; c] [a'; b'; c'] ->
  (a' = a /\ b' = b /\ c' = c) \/ (a' = a /\ b' = c /\ c' = b) \/
  (a' = b /\ b' = a /\ c' = c) \/ (a' = b /\ b' = c /\ c' = a) \/
  (a' = c /\ b' = a /\ c' = b) \/ (a' = c /\ b' = b /\ c' = a).
Proof.
  intros H.
  assert (Hin : In a' [a; b; c]).
  { apply (Permutation_in a' (Permutation_sym H)). left. reflexivity. }
  destruct Hin as [<- | [<- | [<- | []]]].
  - apply Permutation_cons_inv in H.
    destruct (Permutation_length_2_inv H) as [E|E]; inversion E; subst; tauto.
  - assert (H' : Permutation [b; a; c] [b; b'; c']).
    { eapply perm_trans; [apply perm_swap|exact H]. }
    apply Permutation_cons_inv in H'.
    destruct (Permutation_length_2_inv H') as [E|E]; inversion E; subst; tauto.
  - assert (H' : Permutation [c; a; b] [c; b'; c']).
    { eapply perm_trans; [|exact H].
      eapply perm_trans; [apply perm_swap|].
      apply perm_skip. apply perm_swap. }
    apply Permutation_cons_inv in H'.
    destruct (Permutation_length_2_inv H') as [E|E]; inversion E; subst; tauto.
Qed.

Lemma sameFace_perm (f g g' : Face) :
  Permutation (faceVertices g) (faceVertices g') ->
  sameFace f g = sameFace f g'.
Proof.
  intros H. apply key_eq_iff in H. unfold sameFace. rewrite H. reflexivity.
Qed.

Lemma coneOccurrences_unfold (f : Face) (p a b c : Vector3) :
  coneOccurrences f p (mkFace a b c)
  = ((if sameFace f (mkFace p a b) then 1 else 0)
     + ((if sameFace f (mkFace p a c) then 1 else 0)
        + ((if sameFace f (mkFace p b c) then 1 else 0)
           + (if sameFace f (mkFace a b c) then 1 else 0))))%nat.
Proof.
  unfold coneOccurrences, tetraOnFace, new_Tetrahedron, getFaces.
  cbn [pt0 pt1 pt2 pt3 fa fb fc].
  rewrite !occurrences_cons. cbn [occurrences filter length]. lia.
Qed.

(** The faces of the new tetrahedron depend on the cavity face through the
    coordinates of its vertices only, whatever their order. *)
Lemma coneOccurrences_sameFace (f : Face) (p : Vector3) (g g' : Face) :
  sameFace g g' = true -> coneOccurrences f p g = coneOccurrences f p g'.
Proof.
  intros H. apply sameFace_iff in H.
  destruct g as [a b c], g' as [a' b' c'].
  cbn [faceVertices map fa fb fc] in H.
  rewrite !coneOccurrences_unfold.
  assert (P : forall u v w u' v' w' : Vector3,
             Permutation [pos u; pos v; pos w] [pos u'; pos v'; pos w'] ->
             sameFace f (mkFace u v w) = sameFace f (mkFace u' v' w')).
  { intros. apply sameFace_perm. assumption. }
  destruct (perm3_cases _ _ _ _ _ _ H)
    as [(Ea & Eb & Ec) | [(Ea & Eb & Ec) | [(Ea & Eb & Ec)
       | [(Ea & Eb & Ec) | [(Ea & Eb & Ec) | (Ea & Eb & Ec)]]]]].
  - rewrite (P p a b p a' b'), (P p a c p a' c'), (P p b c p b' c'),
      (P a b c a' b' c'); [reflexivity|..]; rewrite ?Ea, ?Eb, ?Ec; perm3.
  - rewrite (P p a b p a' c'), (P p a c p a' b'), (P p b c p b' c'),
      (P a b c a' b' c'); [lia|..]; rewrite ?Ea, ?Eb, ?Ec; perm3.
  - rewrite (P p a b p a' b'), (P p a c p b' c'), (P p b c p a' c'),
      (P a b c a' b' c'); [lia|..]; rewrite ?Ea, ?Eb, ?Ec; perm3.
  - rewrite (P p a b p a' c'), (P p a c p b' c'), (P p b c p a' b'),
      (P a b c a' b' c'); [lia|..]; rewrite ?Ea, ?Eb, ?Ec; perm3.
  - rewrite (P p a b p b' c'), (P p a c p a' b'), (P p b c p a' c'),
      (P a b c a' b' c'); [lia|..]; rewrite ?Ea, ?Eb, ?Ec; perm3.
  - rewrite (P p a b p b' c'), (P p a c p a' c'), (P p b c p a' b'),
      (P a b c a' b' c'); [lia|..]; rewrite ?Ea, ?Eb, ?Ec; perm3.
Qed.

Lemma list_sum_cons (x : nat) (l : list nat) :
  list_sum (x :: l) = (x + list_sum l)%nat.
Proof. reflexivity. Qed.

(** Deleting a present key from a map without repeated keys takes the
    weight of one entry away. *)
Lemma delete_weight (w : Face -> nat) (k : Key) (m : FaceMap) :
  NoDup (map fst m) -> MapOps.has k m = true ->
  exists e,
    In e m /\ fst e = k /\
    list_sum (map w (MapOps.values m))
    = (list_sum (map w (MapOps.values (MapOps.delete k m))) + w (snd e))%nat.
Proof.
  induction m as [|e m IH]; intros Hnd Hhas; [discriminate Hhas|].
  inversion Hnd as [|? ? Hnot Hnd']; subst.
  unfold MapOps.delete, MapOps.has, MapOps.values in *.
  cbn [filter existsb map] in *.
  destruct (FaceKey.eqb k (fst e)) eqn:E; cbn [negb].
  - apply FaceKey_eqb_eq in E. subst k.
    exists e. split; [left; reflexivity|]. split; [reflexivity|].
    fold (MapOps.delete (fst e) m). rewrite delete_absent.
    + rewrite list_sum_cons. lia.
    + destruct (MapOps.has (fst e) m) eqn:E'; [|reflexivity].
      apply has_In in E'. contradiction.
  - cbn [orb] in Hhas. destruct (IH Hnd' Hhas) as (e' & He' & Hk & Hs).
    exists e'. split; [right; exact He'|]. split; [exact Hk|].
    cbn [map]. rewrite !list_sum_cons, Hs. lia.
Qed.

(** One step of the face map changes the parity of a total weight by the
    weight of the face, when faces with the same key weigh the same. *)
Lemma toggle_weight (w : Face -> nat) (m : FaceMap) (f : Face) :
  (forall g g', sameFace g g' = true -> w g = w g') ->
  NoDup (map fst m) ->
  (forall e, In e m -> fst e = FaceKey.key (snd e)) ->
  Nat.odd (list_sum (map w (MapOps.values (toggleFace m f))))
  = xorb (Nat.odd (list_sum (map w (MapOps.values m)))) (Nat.odd (w f)).
Proof.
  intros Hw Hnd Hkey.
  destruct (toggle_cases m f) as [[Hf ->] | [Hf ->]].
  - destruct (delete_weight w _ _ Hnd Hf) as (e & He & Hk & Hs).
    assert (Ew : w (snd e) = w f).
    { apply Hw. apply sameFace_key. rewrite <- (Hkey e He). exact Hk. }
    rewrite Hs, Ew, Nat.odd_add.
    destruct (Nat.odd (list_sum _)), (Nat.odd (w f)); reflexivity.
  - unfold MapOps.values. rewrite !map_app. cbn [map snd].
    rewrite list_sum_app, list_sum_cons. cbn [list_sum fold_right].
    rewrite Nat.add_0_r. apply Nat.odd_add.
Qed.

Lemma fold_toggle_weight (w : Face -> nat) (fs seen : list Face)
    (m : FaceMap) :
  (forall g g', sameFace g g' = true -> w g = w g') ->
  NoDup (map fst m) /\
  (forall e, In e m -> fst e = FaceKey.key (snd e) /\ In (snd e) seen) ->
  Nat.odd (list_sum (map w (MapOps.values (fold_left toggleFace fs m))))
  = xorb (Nat.odd (list_sum (map w (MapOps.values m))))
         (Nat.odd (list_sum (map w fs))).
Proof.
  intros Hw. revert seen m.
  induction fs as [|g fs IH]; intros seen m H.
  - cbn. destruct (Nat.odd _); reflexivity.
  - cbn [fold_left map]. rewrite list_sum_cons.
    pose proof (toggle_invariant seen m g H) as H'.
    rewrite (IH (g :: seen) _ H').
    rewrite (toggle_weight w m g Hw (proj1 H)
               (fun e He => proj1 (proj2 H e He))).
    rewrite Nat.odd_add.
    destruct (Nat.odd (list_sum (map w (MapOps.values m)))),
             (Nat.odd (w g)), (Nat.odd (list_sum (map w fs))); reflexivity.
Qed.

Lemma odd_sum_congr {A : Type} (u v : A -> nat) (l : list A) :
  (forall x, Nat.odd (u x) = Nat.odd (v x)) ->
  Nat.odd (list_sum (map u l)) = Nat.odd (list_sum (map v l)).
Proof.
  intros H. induction l as [|x l IH]; [reflexivity|].
  cbn [map]. rewrite !list_sum_cons, !Nat.odd_add, IH, H. reflexivity.
Qed.

Lemma sum_allFaces (w : Face -> nat) (l : list Tetrahedron) :
  list_sum (map w (allFaces l))
  = list_sum (map (fun t => list_sum (map w (getFaces t))) l).
Proof.
  unfold allFaces. induction l as [|t l IH]; [reflexivity|].
  cbn [flat_map map]. rewrite list_sum_cons, map_app, list_sum_app, IH.
  reflexivity.
Qed.

Lemma occurrences_allFaces (f : Face) (l : list Tetrahedron) :
  occurrences f (allFaces l)
  = list_sum (map (fun t => occurrences f (getFaces t)) l).
Proof.
  unfold allFaces. induction l as [|t l IH]; [reflexivity|].
  cbn [flat_map map]. rewrite list_sum_cons, occurrences_app, IH.
  reflexivity.
Qed.

Lemma occurrences_cones (f : Face) (p : Vector3) (cavity : list Face) :
  occurrences f (allFaces (map (tetraOnFace p) cavity))
  = list_sum (map (coneOccurrences f p) cavity).
Proof.
  unfold allFaces. induction cavity as [|g l IH]; [reflexivity|].
  cbn [map flat_map]. rewrite list_sum_cons, occurrences_app, IH.
  reflexivity.
Qed.

(** Every edge of a tetrahedron lies on two of its faces: over the four
    faces of a tetrahedron, the faces of the new tetrahedra that hold the
    new point cancel in pairs. *)
Lemma tetra_cone_parity (f : Face) (p : Vector3) (t : Tetrahedron) :
  Nat.odd (list_sum (map (coneOccurrences f p) (getFaces t)))
  = Nat.odd (occurrences f (getFaces t)).
Proof.
  unfold getFaces. cbn [map]. rewrite !list_sum_cons.
  cbn [list_sum fold_right].
  rewrite !coneOccurrences_unfold, !occurrences_cons.
  cbn [occurrences filter length].
  set (n01 := if sameFace f (mkFace p (pt0 t) (pt1 t)) then 1%nat else 0%nat).
  set (n02 := if sameFace f (mkFace p (pt0 t) (pt2 t)) then 1%nat else 0%nat).
  set (n03 := if sameFace f (mkFace p (pt0 t) (pt3 t)) then 1%nat else 0%nat).
  set (n12 := if sameFace f (mkFace p (pt1 t) (pt2 t)) then 1%nat else 0%nat).
  set (n13 := if sameFace f (mkFace p (pt1 t) (pt3 t)) then 1%nat else 0%nat).
  set (n23 := if sameFace f (mkFace p (pt2 t) (pt3 t)) then 1%nat else 0%nat).
  set (o1 := if sameFace f (mkFace (pt0 t) (pt1 t) (pt2 t)) then 1%nat else 0%nat).
  set (o2 := if sameFace f (mkFace (pt0 t) (pt1 t) (pt3 t)) then 1%nat else 0%nat).
  set (o3 := if sameFace f (mkFace (pt0 t) (pt2 t) (pt3 t)) then 1%nat else 0%nat).
  set (o4 := if sameFace f (mkFace (pt1 t) (pt2 t) (pt3 t)) then 1%nat else 0%nat).
  replace (n01 + (n02 + (n12 + o1)) +
           (n01 + (n03 + (n13 + o2)) +
            (n02 + (n03 + (n23 + o3)) + (n12 + (n13 + (n23 + o4)) + 0))))%nat
    with ((o1 + (o2 + (o3 + (o4 + 0))))
          + 2 * (n01 + n02 + n03 + n12 + n13 + n23))%nat by lia.
  apply Nat.odd_add_mul_2.
Qed.

Lemma occurrences_partition (f : Face) (test : Tetrahedron -> bool)
    (l : list Tetrahedron) :
  occurrences f (allFaces l)
  = (occurrences f (allFaces (filter (fun t => negb (test t)) l))
     + occurrences f (allFaces (filter test l)))%nat.
Proof.
  unfold allFaces. induction l as [|t l IH]; [reflexivity|].
  cbn [flat_map filter]. rewrite occurrences_app, IH.
  destruct (test t); cbn [negb flat_map]; rewrite occurrences_app; lia.
Qed.

(** [addPoint] never changes the parity of the number of live tetrahedra
    on a face, whatever the state and the point. *)
Lemma addPoint_face_parity (d : Delaunay3D) (p : Vector3) (f : Face) :
  Nat.odd (occurrences f (allFaces (tetrahedra (snd (addPoint d p)))))
  = Nat.odd (occurrences f (allFaces (tetrahedra d))).
Proof.
  rewrite addPoint_spec. cbn [snd tetrahedra].
  set (bad := filter (fun t => circumsphereContains t p) (tetrahedra d)).
  set (good := filter (fun t => negb (circumsphereContains t p))
                      (tetrahedra d)).
  rewrite (occurrences_partition f (fun t => circumsphereContains t p)
             (tetrahedra d)).
  fold bad good.
  unfold allFaces at 1. rewrite flat_map_app. fold (allFaces good).
  fold (allFaces (map (tetraOnFace p) (MapOps.values (collectFaces bad)))).
  rewrite occurrences_app, !Nat.odd_add. f_equal.
  rewrite occurrences_cones, collectFaces_flat.
  rewrite (fold_toggle_weight (coneOccurrences f p) _ [] []);
    [|intros g g'; apply coneOccurrences_sameFace
     |split; [constructor|intros e []]].
  cbn [MapOps.values map list_sum Nat.odd Nat.even negb xorb].
  fold (allFaces bad). rewrite sum_allFaces, occurrences_allFaces.
  apply odd_sum_congr. intros t. apply tetra_cone_parity.
Qed.

Lemma insertAll_face_parity (d : Delaunay3D) (pts : list Vector3)
    (f : Face) :
  Nat.odd (occurrences f (allFaces (tetrahedra (insertAll d pts))))
  = Nat.odd (occurrences f (allFaces (tetrahedra d))).
Proof.
  revert d. induction pts as [|p pts IH]; intros d; [reflexivity|].
  cbn [insertAll fold_left]. fold (insertAll (snd (addPoint d p)) pts).
  rewrite IH. apply addPoint_face_parity.
Qed.

Lemma occurrences_positive (f : Face) (l : list Face) :
  Nat.odd (occurrences f l) = true ->
  exists g, In g l /\ sameFace f g = true.
Proof.
  unfold occurrences. intros H.
  destruct (filter (sameFace f) l) as [|g rest] eqn:E; [discriminate H|].
  assert (Hg : In g (filter (sameFace f) l)) by (rewrite E; left; reflexivity).
  apply filter_In in Hg. exists g. exact Hg.
Qed.

Lemma faces_distinct_of_det (p1 p2 p3 p4 : Vector3) :
  edgeDet (pos p1) (pos p2) (pos p3) (pos p4) <> 0 ->
  NoDup (map FaceKey.key (getFaces (new_Tetrahedron p1 p2 p3 p4))).
Proof.
  intros Hdet.
  destruct (edgeDet_distinct _ _ _ _ Hdet)
    as (Hab & Hac & Had & Hbc & Hbd & Hcd).
  unfold getFaces, new_Tetrahedron. cbn [map pt0 pt1 pt2 pt3].
  assert (D : forall f g v, In v (faceVertices f) -> ~ In v (faceVertices g) ->
                            FaceKey.key f <> FaceKey.key g
                            /\ FaceKey.key g <> FaceKey.key f).
  { intros f g v H1 H2. split; [|apply not_eq_sym];
      exact (faces_differ f g v H1 H2). }
  repeat constructor; cbn [In]; intros H;
    repeat (destruct H as [H|H]; [revert H|]); try exact H.
  - eapply (D _ _ (pos p3)); cbn; intuition congruence.
  - eapply (D _ _ (pos p2)); cbn; intuition congruence.
  - eapply (D _ _ (pos p1)); cbn; intuition congruence.
  - eapply (D _ _ (pos p2)); cbn; intuition congruence.
  - eapply (D _ _ (pos p1)); cbn; intuition congruence.
  - eapply (D _ _ (pos p1)); cbn; intuition congruence.
Qed.

Lemma super_faces_distinct (size : Qc) (h : Heap) :
  size <> 0 ->
  NoDup (map FaceKey.key
             (allFaces (tetrahedra (fst (new_Delaunay3D size h))))).
Proof.
  intros Hs.
  cbn [new_Delaunay3D new_Vector3 fst tetrahedra app allFaces flat_map].
  rewrite app_nil_r. apply faces_distinct_of_det. cbn [pos].
  rewrite super_edgeDet. intros E.
  assert (E' : ofZ 6 * (size * size * size) = 0).
  { rewrite <- (Qcopp_involutive (ofZ 6 * (size * size * size))), E.
    reflexivity. }
  apply Qcmult_integral in E'. destruct E' as [E' | E']; [discriminate E'|].
  apply Qcmult_integral in E'. destruct E' as [E' | E']; [|contradiction].
  apply Qcmult_integral in E'. destruct E' as [E' | E']; contradiction.
Qed.

(** X21.  An insertion never changes the parity of the number of faces of
    live tetrahedra that have a given key, whatever the state and the
    point.  Hence, in every triangulation reached from the constructor with
    a scale other than 0, by points inside or outside, that number is odd
    exactly for the keys of the four faces of the super-tetrahedron; each of
    these faces lies on a live tetrahedron, and the live set is never
    empty. *)
Theorem face_parity_invariant (size : Qc) (h : Heap) (pts : list Vector3) :
  size <> 0 ->
  let d0 := fst (new_Delaunay3D size h) in
  let d := insertAll d0 pts in
  (forall d' p f,
      Nat.odd (occurrences f (allFaces (tetrahedra (snd (addPoint d' p)))))
      = Nat.odd (occurrences f (allFaces (tetrahedra d'))))
  /\ (forall f, Nat.odd (occurrences f (allFaces (tetrahedra d)))
                = listsFace (allFaces (tetrahedra d0)) f)
  /\ (forall f, In f (allFaces (tetrahedra d0)) ->
                exists t, In t (tetrahedra d) /\ hasFace t f = true)
  /\ tetrahedra d <> [].
Proof.
  intros Hs d0 d.
  assert (P : forall f, Nat.odd (occurrences f (allFaces (tetrahedra d)))
                        = listsFace (allFaces (tetrahedra d0)) f).
  { intros f. subst d d0. rewrite insertAll_face_parity.
    rewrite (occurrences_NoDup f _ (super_faces_distinct size h Hs)).
    destruct (listsFace _ f); reflexivity. }
  assert (Q : forall f, In f (allFaces (tetrahedra d0)) ->
                        exists t, In t (tetrahedra d) /\ hasFace t f = true).
  { intros f Hf.
    assert (Hl : listsFace (allFaces (tetrahedra d0)) f = true).
    { unfold listsFace. apply existsb_exists. exists f.
      split; [exact Hf|]. apply sameFace_key. reflexivity. }
    rewrite <- P in Hl.
    destruct (occurrences_positive _ _ Hl) as (g & Hg & Hsame).
    unfold allFaces in Hg. apply in_flat_map in Hg.
    destruct Hg as (t & Ht & Hgt). exists t. split; [exact Ht|].
    unfold hasFace. apply existsb_exists. exists g. auto. }
  split; [intros d' p f; apply addPoint_face_parity|].
  split; [exact P|]. split; [exact Q|].
  destruct (Q (mkFace (mkVector3 h (mkVec3 (- size) (- size) (- size)))
                      (mkVector3 (S h) (mkVec3 size (- size) 0))
                      (mkVector3 (S (S h)) (mkVec3 0 size (- size)))))
    as (t & Ht & _).
  - left. reflexivity.
  - intros E. rewrite E in Ht. exact Ht.
Qed.

Lemma face_parity_invariant_witness :
  let d0 := fst (new_Delaunay3D (ofZ 20) 4) in
  let d := insertAll d0 [vertex 0 0 30 0; vertex 1 (-4) 2 2;
                         vertex 2 4 (-4) (-1); vertex 3 (-4) (-5) (-5)] in
  ofZ 20 <> 0
  /\ map (fun f => tetrahedraWithFace f (tetrahedra d))
         (allFaces (tetrahedra d0)) = [1; 1; 1; 1]%nat
  /\ tetrahedra d <> [].
Proof.
  intros d0 d.
  assert (Hs : ofZ 20 <> 0) by discriminate.
  split; [exact Hs|]. split; [vm_compute; reflexivity|].
  exact (proj2 (proj2 (proj2 (face_parity_invariant (ofZ 20) 4 _ Hs)))).
Defined.

(** ** The Delaunay invariant *)

(** *** The circumspheres through a common face *)












(** *** The faces of the super-tetrahedron *)





(** *** The invariant along a run *)














(** ** Exact arithmetic and the arithmetic of the code *)

Section Rounding.

Import PrimFloat.

(** X22.  With binary64 numbers, the circumsphere that the super-tetrahedron
    of the program (scale [BOX_SIZE * 2 = 20]) holds is not the exact one,
    centre [(-10/3, -10/3, -10/3)] and squared radius [2500/3]: the stored
    centre is [(-3.333333333333333, -3.3333333333333321,
    -3.3333333333333321)], the stored squared radius 833.33333333333348, and
    three of its own four vertices test strictly inside.  With the first
    two points in the other order, the stored squared radius is
    833.33333333333326 and no vertex tests inside. *)
Theorem binary64_super_tetrahedron :
  let p1 := Binary64.vertex 0 (-20) (-20) (-20) in
  let p2 := Binary64.vertex 1 20 (-20) 0 in
  let p3 := Binary64.vertex 2 0 20 (-20) in
  let p4 := Binary64.vertex 3 0 (-20) 20 in
  let t := Binary64.new_Tetrahedron p1 p2 p3 p4 in
  let u := Binary64.new_Tetrahedron p2 p1 p3 p4 in
  Binary64.tetrahedra (Binary64.new_Delaunay3D 20 0) = [t]%list
  /\ Binary64.circumcenter t
     = Some (Binary64.mkVec3 (-3.333333333333333) (-3.3333333333333321)
                             (-3.3333333333333321))
  /\ Binary64.radiusSq t = 833.33333333333348%float
  /\ map (Binary64.circumsphereContains t) [p1; p2; p3; p4]
     = [false; true; true; true]
  /\ Binary64.radiusSq u = 833.33333333333326%float
  /\ map (Binary64.circumsphereContains u) [p1; p2; p3; p4]
     = [false; false; false; false].
Proof. repeat split; vm_compute; reflexivity. Qed.

(** Rounding can break the Delaunay property.  The three points
    [(-1, -3, -4)], [(-1, -3, -2)] and [(4, -4, -4)] lie strictly inside the
    super-tetrahedron of scale 20 and no tetrahedron of the run is
    degenerate, in either arithmetic.  In exact arithmetic the run ends
    with 12 live tetrahedra, none of which has one of the points strictly
    inside its circumsphere; with binary64 numbers it ends with 11, one of
    which has the first point, not one of its vertices, strictly inside. *)
Lemma binary64_delaunay_run :
  let pts := [vertex 0 (-1) (-3) (-4); vertex 1 (-1) (-3) (-2);
              vertex 2 4 (-4) (-4)] in
  let d0 := fst (new_Delaunay3D (ofZ 20) 3) in
  let ptsF := [Binary64.vertex 0 (-1) (-3) (-4);
               Binary64.vertex 1 (-1) (-3) (-2);
               Binary64.vertex 2 4 (-4) (-4)] in
  let dF := Binary64.new_Delaunay3D 20 3 in
  (Forall (fun p => insideSuperTetrahedron d0 (pos p)) pts
   /\ regularRun d0 pts = true
   /\ length (tetrahedra (insertAll d0 pts)) = 12%nat
   /\ violatesDelaunay (insertAll d0 pts) pts = false)
  /\ (Binary64.regularRun dF ptsF = true
      /\ length (Binary64.tetrahedra (Binary64.insertAll dF ptsF)) = 11%nat
      /\ Binary64.violatesDelaunay (Binary64.insertAll dF ptsF) ptsF = true).
Proof.
  intros pts d0 ptsF dF. split.
  - split; [|split; [|split]]; [|vm_compute; reflexivity..].
    repeat apply Forall_cons; [| | |apply Forall_nil].
    + exists (Q2Qc (2 # 15)), (Q2Qc (1 # 12)), (Q2Qc (17 # 40)),
        (Q2Qc (43 # 120)).
      do 4 (split; [reflexivity|]).
      split; [|split; [|split]]; apply Qc_is_canon; reflexivity.
    + exists (Q2Qc (1 # 10)), (Q2Qc (1 # 20)), (Q2Qc (17 # 40)),
        (Q2Qc (17 # 40)).
      do 4 (split; [reflexivity|]).
      split; [|split; [|split]]; apply Qc_is_canon; reflexivity.
    + exists (Q2Qc (1 # 15)), (Q2Qc (4 # 15)), (Q2Qc (2 # 5)),
        (Q2Qc (4 # 15)).
      do 4 (split; [reflexivity|]).
      split; [|split; [|split]]; apply Qc_is_canon; reflexivity.
  - split; [|split]; vm_compute; reflexivity.
Qed.

(** A degenerate tetrahedron breaks it in both arithmetics: the run with
    the scale [2^-13] and the points [(-2, -3, -3)], [(-2, -2, -3)] and
    [(1, -1, -1)] in units of [2^-15], all of them binary64 numbers, fails
    on binary64 numbers as it does on rationals. *)
Lemma binary64_degenerate_run :
  let ptsF := [Binary64.vertex 0 (-0x2p-15) (-0x3p-15) (-0x3p-15);
               Binary64.vertex 1 (-0x2p-15) (-0x2p-15) (-0x3p-15);
               Binary64.vertex 2 0x1p-15 (-0x1p-15) (-0x1p-15)] in
  let dF := Binary64.new_Delaunay3D 0x1p-13 3 in
  Binary64.regularRun dF [] = true
  /\ Binary64.regularRun dF ptsF = false
  /\ Binary64.violatesDelaunay (Binary64.insertAll dF ptsF) ptsF = true.
Proof. repeat split; vm_compute; reflexivity. Qed.

End Rounding.
